(** * servicetelemetry: admission controller and probe orchestrator

    A shallow embedding of the [core] package of servicetelemetry:
    - [Limiter]: the priority queue and the [ConcurrencyLimiter]
      (AcquireWithPriority / Acquire / Release / Close), as a labelled
      transition system over the goroutines that use one limiter;
    - [Checker]: the [ServiceChecker] (result cache, retry loop with
      exponential backoff, TCP and HTTP probes, TLS expiry rendering),
      as state-passing functions over an explicit world. *)

From Stdlib Require Import ZArith String Ascii List Bool Lia DecimalString.
From Stdlib Require Import Floats.SpecFloat.
From stdpp Require Import base option list gmap strings.

Local Open Scope string_scope.
Local Open Scope list_scope.

(** ** The admission controller *)

Module Limiter.

(** [TaskPriority]: an [int] enumeration built with [iota]. *)
Inductive TaskPriority := PriorityLow | PriorityNormal | PriorityHigh.

Definition prio_rank (p : TaskPriority) : Z :=
  match p with PriorityLow => 0 | PriorityNormal => 1 | PriorityHigh => 2 end.

(** [PriorityTask]. Tasks are handled through pointers in the source and
    compared by address ([execTask != task]); [task_ptr] is that address.
    The [Target] field is never read by the limiter and is left out. *)
Record PriorityTask := mkTask {
  task_ptr : nat;
  Priority : TaskPriority;
  Index    : Z
}.

Definition set_Index (t : PriorityTask) (i : Z) : PriorityTask :=
  mkTask (task_ptr t) (Priority t) i.

Definition PriorityQueue := list PriorityTask.

Definition Len (pq : PriorityQueue) : nat := length pq.

(** [Less]: the higher priority sorts first. container/heap only passes
    indices below [Len], so the out-of-range default is never observed. *)
Definition Less (pq : PriorityQueue) (i j : nat) : bool :=
  match pq !! i, pq !! j with
  | Some a, Some b => (prio_rank (Priority a) >? prio_rank (Priority b))%Z
  | _, _ => false
  end.

(** [Swap]: exchange the two slots, then refresh both [Index] fields. *)
Definition Swap (pq : PriorityQueue) (i j : nat) : PriorityQueue :=
  match pq !! i, pq !! j with
  | Some a, Some b =>
      <[j := set_Index a (Z.of_nat j)]> (<[i := set_Index b (Z.of_nat i)]> pq)
  | _, _ => pq
  end.

(** [Push]: [task.Index = n; *pq = append( *pq, task)]. *)
Definition Push (pq : PriorityQueue) (x : PriorityTask) : PriorityQueue :=
  pq ++ [set_Index x (Z.of_nat (Len pq))].

(** [Pop]: remove the last slot and mark the task as popped ([Index = -1]).
    On an empty queue [old[n-1]] is out of range and the source panics. *)
Definition Pop (pq : PriorityQueue) : option (PriorityTask * PriorityQueue) :=
  match last pq with
  | Some t => Some (set_Index t (-1), take (Len pq - 1) pq)
  | None => None
  end.

(** container/heap, instantiated at [PriorityQueue]. The standard library's
    [up] and [down] are loops; [fuel] bounds their iterations, and [Len pq]
    is always enough because [j] strictly decreases in [up] and [i]
    strictly increases below [n] in [down]. *)
Fixpoint up (fuel : nat) (pq : PriorityQueue) (j : nat) : PriorityQueue :=
  match fuel with
  | O => pq
  | S fuel' =>
      let i := ((j - 1) / 2)%nat in
      if (i =? j)%nat || negb (Less pq j i) then pq
      else up fuel' (Swap pq i j) i
  end.

Fixpoint down (fuel : nat) (pq : PriorityQueue) (i n : nat) : PriorityQueue :=
  match fuel with
  | O => pq
  | S fuel' =>
      let j1 := (2 * i + 1)%nat in
      if (n <=? j1)%nat then pq
      else
        let j2 := (j1 + 1)%nat in
        let j := if (j2 <? n)%nat && Less pq j2 j1 then j2 else j1 in
        if negb (Less pq j i) then pq
        else down fuel' (Swap pq i j) j n
  end.

Definition heap_Push (pq : PriorityQueue) (x : PriorityTask) : PriorityQueue :=
  let pq' := Push pq x in
  up (Len pq') pq' (Len pq' - 1).

Definition heap_Pop (pq : PriorityQueue) : option (PriorityTask * PriorityQueue) :=
  match pq with
  | [] => None
  | _ =>
      let n := (Len pq - 1)%nat in
      let pq1 := Swap pq 0 n in
      Pop (down (Len pq) pq1 0 n)
  end.

(** Panic values raised by the limiter or by the runtime on its behalf. *)
Definition msg_closed : string := "ConcurrencyLimiter已关闭".
Definition msg_send_closed : string := "send on closed channel".
Definition msg_index : string := "index out of range".

(** Where a goroutine stands in [AcquireWithPriority(task); ...; Release()].
    Each constructor is a point at which other goroutines may run. *)
Inductive pc :=
| PEnter                      (* at [cl.mu.Lock()], first line of AcquireWithPriority *)
| PLoop                       (* holds mu; at the test [len(cl.sem) == cap(cl.sem)] *)
| PParked                     (* inside [cl.cond.Wait()], mu released, not yet signalled *)
| PWoken                      (* signalled; Wait is re-locking mu *)
| PPop                        (* holds mu; at [heap.Pop(&cl.pq)] *)
| PSend (x : PriorityTask)    (* holds mu; at [cl.sem <- struct{}{}] *)
| PCompare (x : PriorityTask) (* holds mu; at [if execTask != task] *)
| PHolding                    (* AcquireWithPriority returned; slot held *)
| PRelSignal                  (* Release received from sem; at [cl.mu.Lock()] *)
| PDone                       (* Release returned *)
| PPanicked (msg : string)    (* unwound by a panic; the deferred Unlock has run *)
| PFatal.                     (* a deferred Unlock hit an unlocked mutex *)

(** One goroutine: the priority of its task, the number of enclosing
    AcquireWithPriority frames (each with a pending deferred Unlock), and
    its program point. Its task pointer is its own index. *)
Record thread := mkThread {
  th_prio  : TaskPriority;
  th_depth : nat;
  th_pc    : pc
}.

Definition set_pc (th : thread) (p : pc) : thread :=
  mkThread (th_prio th) (th_depth th) p.

(** [ConcurrencyLimiter] together with the goroutines using it. [sem] is
    a buffered channel of empty structs: only its length, capacity and
    closed flag matter. [mu] records the goroutine holding the mutex and
    [waiters] the goroutines parked on [cond]. *)
Record state := mkState {
  sem_len    : nat;
  sem_cap    : nat;
  sem_closed : bool;
  pq         : PriorityQueue;
  mu         : option nat;
  waiters    : list nat;
  closed     : bool;
  threads    : list thread
}.

(** [NewConcurrencyLimiter(max)]: [make(chan struct{}, max)] panics on a
    negative size; [heap.Init] on the empty queue does nothing. *)
Definition NewConcurrencyLimiter (max : Z) (ths : list thread) : option state :=
  if (max <? 0)%Z then None
  else Some (mkState 0 (Z.to_nat max) false [] None [] false ths).

Definition fresh (p : TaskPriority) : thread := mkThread p 0 PEnter.

Definition own_task (t : nat) (th : thread) : PriorityTask :=
  mkTask t (th_prio th) 0.

(** Waking a parked goroutine. *)
Definition wake (w : nat) (ths : list thread) : list thread :=
  match ths !! w with
  | Some th => <[w := set_pc th PWoken]> ths
  | None => ths
  end.

(** [cond.Signal()]: wakes one waiter, if there is any. sync.Cond does not
    promise which one; [k] is the scheduler's choice (the head when [k]
    is out of range). Returns the remaining waiters and the threads. *)
Definition signal (k : nat) (ws : list nat) (ths : list thread)
  : list nat * list thread :=
  match ws !! k with
  | Some w => (delete k ws, wake w ths)
  | None =>
      match ws with
      | [] => ([], ths)
      | w :: ws' => (ws', wake w ths)
      end
  end.

(** [cond.Broadcast()]: wakes every waiter. *)
Definition broadcast (ws : list nat) (ths : list thread) : list thread :=
  foldr wake ths ws.

(** Leaving AcquireWithPriority, by return or by panic, runs the deferred
    Unlock of every frame. With one frame that releases [mu]; with more,
    the second Unlock finds the mutex unlocked, which is fatal. *)
Definition unwind (th : thread) (p : pc) : thread :=
  match th_depth th with
  | O => set_pc th p
  | S _ => set_pc th PFatal
  end.

(** One scheduling step of goroutine [t]; [None] when [t] cannot move
    (blocked on the mutex, on the channel or on the condition variable,
    or finished). *)
Definition step_thread (t k : nat) (st : state) : option state :=
  match threads st !! t with
  | None => None
  | Some th =>
      let upd (th' : thread) (ths : list thread) := <[t := th']> ths in
      match th_pc th with
      | PEnter =>
          match mu st with
          | Some _ => None
          | None =>
              if closed st then
                Some (mkState (sem_len st) (sem_cap st) (sem_closed st) (pq st)
                        None (waiters st) (closed st)
                        (upd (unwind th (PPanicked msg_closed)) (threads st)))
              else
                let pq' := heap_Push (pq st) (own_task t th) in
                let '(ws, ths) := signal k (waiters st) (threads st) in
                Some (mkState (sem_len st) (sem_cap st) (sem_closed st) pq'
                        (Some t) ws (closed st) (upd (set_pc th PLoop) ths))
          end
      | PLoop =>
          if (sem_len st =? sem_cap st)%nat then
            Some (mkState (sem_len st) (sem_cap st) (sem_closed st) (pq st)
                    None (waiters st ++ [t]) (closed st)
                    (upd (set_pc th PParked) (threads st)))
          else
            Some (mkState (sem_len st) (sem_cap st) (sem_closed st) (pq st)
                    (mu st) (waiters st) (closed st)
                    (upd (set_pc th PPop) (threads st)))
      | PParked => None
      | PWoken =>
          match mu st with
          | Some _ => None
          | None =>
              Some (mkState (sem_len st) (sem_cap st) (sem_closed st) (pq st)
                      (Some t) (waiters st) (closed st)
                      (upd (set_pc th PLoop) (threads st)))
          end
      | PPop =>
          match heap_Pop (pq st) with
          | None =>
              Some (mkState (sem_len st) (sem_cap st) (sem_closed st) (pq st)
                      None (waiters st) (closed st)
                      (upd (unwind th (PPanicked msg_index)) (threads st)))
          | Some (x, pq') =>
              Some (mkState (sem_len st) (sem_cap st) (sem_closed st) pq'
                      (mu st) (waiters st) (closed st)
                      (upd (set_pc th (PSend x)) (threads st)))
          end
      | PSend x =>
          if sem_closed st then
            Some (mkState (sem_len st) (sem_cap st) (sem_closed st) (pq st)
                    None (waiters st) (closed st)
                    (upd (unwind th (PPanicked msg_send_closed)) (threads st)))
          else if (sem_len st <? sem_cap st)%nat then
            Some (mkState (S (sem_len st)) (sem_cap st) (sem_closed st) (pq st)
                    (mu st) (waiters st) (closed st)
                    (upd (set_pc th (PCompare x)) (threads st)))
          else None
      | PCompare x =>
          if (task_ptr x =? t)%nat then
            Some (mkState (sem_len st) (sem_cap st) (sem_closed st) (pq st)
                    None (waiters st) (closed st)
                    (upd (unwind th PHolding) (threads st)))
          else
            Some (mkState (sem_len st) (sem_cap st) (sem_closed st)
                    (heap_Push (pq st) x)
                    (mu st) (waiters st) (closed st)
                    (upd (mkThread (th_prio th) (S (th_depth th)) PEnter)
                       (threads st)))
      | PHolding =>
          match sem_len st with
          | S n =>
              Some (mkState n (sem_cap st) (sem_closed st) (pq st)
                      (mu st) (waiters st) (closed st)
                      (upd (set_pc th PRelSignal) (threads st)))
          | O =>
              if sem_closed st then
                Some (mkState 0 (sem_cap st) (sem_closed st) (pq st)
                        (mu st) (waiters st) (closed st)
                        (upd (set_pc th PRelSignal) (threads st)))
              else None
          end
      | PRelSignal =>
          match mu st with
          | Some _ => None
          | None =>
              let '(ws, ths) := signal k (waiters st) (threads st) in
              Some (mkState (sem_len st) (sem_cap st) (sem_closed st) (pq st)
                      None ws (closed st) (upd (set_pc th PDone) ths))
          end
      | PDone | PPanicked _ | PFatal => None
      end
  end.

(** [Close()], called by some goroutine outside [threads]: sets [closed],
    closes the channel and wakes every waiter. Closing an already closed
    channel panics before the broadcast. *)
Definition step_close (st : state) : option state :=
  match mu st with
  | Some _ => None
  | None =>
      if sem_closed st then
        Some (mkState (sem_len st) (sem_cap st) true (pq st)
                None (waiters st) true (threads st))
      else
        Some (mkState (sem_len st) (sem_cap st) true (pq st)
                None [] true (broadcast (waiters st) (threads st)))
  end.

Inductive label :=
| Run (t k : nat)   (* goroutine [t] takes its next step *)
| CallClose.        (* Close() runs *)

Definition step (l : label) (st : state) : option state :=
  match l with
  | Run t k => step_thread t k st
  | CallClose => step_close st
  end.

(** Running a schedule; a label whose step is not enabled leaves the
    state as it is (the goroutine stays blocked). *)
Fixpoint exec (sched : list label) (st : state) : state :=
  match sched with
  | [] => st
  | l :: sched' => exec sched' (default st (step l st))
  end.

Definition pc_of (t : nat) (st : state) : option pc :=
  th_pc <$> threads st !! t.

Definition is_holding (th : thread) : bool :=
  match th_pc th with PHolding => true | _ => false end.

(** The goroutines that have been admitted and have not started Release. *)
Definition holders (st : state) : nat :=
  length (List.filter is_holding (threads st)).

(** The slot tokens a goroutine has put into [sem] and not taken back:
    one per enclosing frame that went through the send, and one more
    between its own send and its receive in Release. *)
Definition tokens_out (th : thread) : nat :=
  th_depth th + match th_pc th with PCompare _ | PHolding => 1 | _ => 0 end.

Definition tokens (ths : list thread) : nat := sum_list (tokens_out <$> ths).

(** The invariant behind the concurrency bound. *)
Definition slots_inv (st : state) : Prop :=
  tokens (threads st) <= sem_len st /\ sem_len st <= sem_cap st.

(** *** Heap order and bookkeeping *)

(** The rank stored at slot [i] (0 beyond the end). *)
Definition rk (q : PriorityQueue) (i : nat) : Z :=
  match q !! i with
  | Some t => prio_rank (Priority t)
  | None => 0%Z
  end.

(** container/heap's parent of slot [c]. *)
Definition parent (c : nat) : nat := ((c - 1) / 2)%nat.

(** The first [n] slots are in max-heap order under [Less]. *)
Definition is_heap_upto (q : PriorityQueue) (n : nat) : Prop :=
  forall c, (0 < c < n)%nat -> (rk q c <= rk q (parent c))%Z.

Definition is_heap (q : PriorityQueue) : Prop := is_heap_upto q (length q).

(** Every queued task records its own slot in [Index]. *)
Definition indexed (q : PriorityQueue) : Prop :=
  forall i t, q !! i = Some t -> Index t = Z.of_nat i.

(** What identifies a task whatever its [Index]. *)
Definition ident (t : PriorityTask) : nat * TaskPriority := (task_ptr t, Priority t).

(** What [up] needs of the queue when slot [j] may exceed its parent. *)
Definition up_ok (q : PriorityQueue) (j : nat) : Prop :=
  (forall c, 0 < c < length q -> c <> j -> (rk q c <= rk q (parent c))%Z) /\
  (forall c, 0 < c < length q -> parent c = j -> 0 < j -> (rk q c <= rk q (parent j))%Z).

(** What [down] needs of the first [n] slots when slot [i] may be below
    its children. *)
Definition down_ok (q : PriorityQueue) (i n : nat) : Prop :=
  (forall c, 0 < c < n -> parent c <> i -> (rk q c <= rk q (parent c))%Z) /\
  (forall c, 0 < c < n -> parent c = i -> 0 < i -> (rk q c <= rk q (parent i))%Z).

(** The queue of a limiter is a heap with correct indices. *)
Definition queue_ok (st : state) : Prop := is_heap (pq st) /\ indexed (pq st).

(** *** Locks, waiters and queue accounting *)

(** Is the goroutine inside a critical section of [mu]? A caller that
    has made the recursive call still holds the lock of its outer frame. *)
Definition holds_mu (th : thread) : bool :=
  match th_pc th with
  | PLoop | PPop | PSend _ | PCompare _ => true
  | PEnter => (0 <? th_depth th)%nat
  | _ => false
  end.

(** [mu] is held by whoever is inside a critical section. *)
Definition mutex_ok (st : state) : Prop :=
  forall u th, threads st !! u = Some th -> holds_mu th = true -> mu st = Some u.

(** The wait list of [cond] holds the parked goroutines, each once. *)
Definition waitlist_ok (st : state) : Prop :=
  NoDup (waiters st) /\
  forall u, u ∈ waiters st <-> pc_of u st = Some PParked.

(** The queue entries accounted to a goroutine: one from its heap.Push
    to its heap.Pop, and one for every task it has pushed back. *)
Definition queued (th : thread) : nat :=
  th_depth th +
  match th_pc th with PLoop | PParked | PWoken | PPop => 1 | _ => 0 end.

Definition queued_tasks (ths : list thread) : nat := sum_list (queued <$> ths).

(** How far a goroutine is from the end of [Release]. Every step it takes
    lowers its rank; being woken raises it by two, which the rank lost by
    the goroutine that signals outweighs. *)
Definition rank (th : thread) : nat :=
  match th_pc th with
  | PEnter => match th_depth th with O => 12 | S _ => 1 end
  | PWoken => 9
  | PLoop => 8
  | PParked => 7
  | PPop => 7
  | PSend _ => 6
  | PCompare _ => 5
  | PHolding => 4
  | PRelSignal => 3
  | PDone | PPanicked _ | PFatal => 0
  end.

Definition total_rank (st : state) : nat := sum_list (rank <$> threads st).

(** **** The same, on the fields a step changes *)

(** [waitlist_ok], for a wait list and the goroutines. *)
Definition wl (ws : list nat) (ths : list thread) : Prop :=
  NoDup ws /\ forall u, u ∈ ws <-> th_pc <$> ths !! u = Some PParked.

(** [mutex_ok], for a mutex and the goroutines. *)
Definition mx (m : option nat) (ths : list thread) : Prop :=
  forall u th, ths !! u = Some th -> holds_mu th = true -> m = Some u.

(** Waking such a goroutine changes nothing that is counted. *)
Definition parked_or_woken (th : thread) : Prop :=
  th_pc th = PParked \/ th_pc th = PWoken.

(** The queue is as long as the goroutines account for. *)
Definition queue_counted (st : state) : Prop :=
  length (pq st) = queued_tasks (threads st).

(** No goroutine has hit the index panic of [Pop]. *)
Definition no_underflow (st : state) : Prop :=
  forall t, pc_of t st <> Some (PPanicked msg_index).

(** What holds of the queue in every state. *)
Definition accounted (st : state) : Prop :=
  waitlist_ok st /\ queue_counted st /\ no_underflow st.

(** Goroutine [t] is blocked in its recursive call, on the mutex its
    outer frame holds. *)
Definition self_locked (t : nat) (th : thread) (st : state) : Prop :=
  threads st !! t = Some th /\ mu st = Some t /\ mutex_ok st.

(** What can still change once the mutex is never released again:
    nobody is admitted, nobody finishes Release, nobody is woken. *)
Definition frozen (st st' : state) : Prop :=
  pq st' = pq st /\ closed st' = closed st /\ waiters st' = waiters st /\
  forall u, (pc_of u st' = Some PHolding -> pc_of u st = Some PHolding) /\
            (pc_of u st' = Some PDone -> pc_of u st = Some PDone) /\
            (pc_of u st = Some PParked -> pc_of u st' = Some PParked).

(** [total_rank], for the goroutines alone. *)
Definition rank_sum (ths : list thread) : nat := sum_list (rank <$> ths).

(** A goroutine that has not got as far as [heap.Pop]. *)
Definition before_pop (th : thread) : Prop :=
  match th_pc th with
  | PEnter | PLoop | PParked | PWoken | PPanicked _ | PFatal => True
  | _ => False
  end.

(** A limiter without capacity: the wait loop never ends. *)
Definition no_room (st : state) : Prop :=
  sem_len st = 0 /\ sem_cap st = 0 /\
  forall t th, threads st !! t = Some th -> before_pop th.

(** *** The limiter as SubmitTargets uses it *)

(** [Acquire()]: a task of normal priority. *)
Definition Acquire : thread := fresh PriorityNormal.

(** Has the goroutine's Acquire call returned? *)
Definition returned (th : thread) : bool :=
  match th_pc th with PHolding | PRelSignal | PDone => true | _ => false end.

(** SubmitTargets calls [limiter.Acquire()] from the request's goroutine,
    once per target and in order, and starts the target's worker when the
    call has returned; the worker ends with [limiter.Release()]. Entry [t]
    of [threads] is the Acquire call for target [t] followed by the
    Release of its worker, so the call for target [t] may start only when
    the calls for the earlier targets have returned. *)
Definition in_turn (t : nat) (st : state) : bool :=
  match pc_of t st with
  | Some PEnter => forallb returned (take t (threads st))
  | _ => true
  end.

(** A step of the handler or of one of its workers. The limiter is local
    to the request and nobody calls Close. *)
Definition handler_step (l : label) (st : state) : option state :=
  match l with
  | Run t k => if in_turn t st then step_thread t k st else None
  | CallClose => None
  end.

(** Running a schedule of the handler and its workers; a label that is
    not enabled leaves the state as it is. *)
Fixpoint handler_exec (sched : list label) (st : state) : state :=
  match sched with
  | [] => st
  | l :: sched' => handler_exec sched' (default st (handler_step l st))
  end.

(** The labels of a schedule that were enabled when their turn came. *)
Fixpoint fired (sched : list label) (st : state) : nat :=
  match sched with
  | [] => 0
  | l :: sched' =>
      match handler_step l st with
      | Some st' => S (fired sched' st')
      | None => fired sched' st
      end
  end.

(** Has the worker's Release returned? *)
Definition is_done (th : thread) : bool :=
  match th_pc th with PDone => true | _ => false end.

(** Every Acquire has returned and every worker has released its slot. *)
Definition all_done (st : state) : bool := forallb is_done (threads st).

(** The limiter of one request with [targets] targets:
    [NewConcurrencyLimiter(h.cfg.Monitor.Concurrency)]. *)
Definition SubmitTargets (concurrency : Z) (targets : nat) : option state :=
  NewConcurrencyLimiter concurrency (replicate targets Acquire).

(** **** What a run of the handler keeps true *)

(** Between its heap.Push and its heap.Pop. *)
Definition waiting (th : thread) : bool :=
  match th_pc th with PLoop | PParked | PWoken | PPop => true | _ => false end.

(** Inside AcquireWithPriority, past the first Lock. *)
Definition acquiring (th : thread) : bool :=
  match th_pc th with
  | PLoop | PParked | PWoken | PPop | PSend _ | PCompare _ => true
  | _ => false
  end.

(** Holding a slot or releasing it, the Signal of Release still to come. *)
Definition will_signal (th : thread) : bool :=
  match th_pc th with PHolding | PRelSignal => true | _ => false end.

(** Goroutine [t] has neither recursed nor panicked, and a task it has
    popped is its own. *)
Definition own_turn (t : nat) (th : thread) : Prop :=
  th_depth th = 0 /\
  match th_pc th with
  | PPanicked _ | PFatal => False
  | PSend x | PCompare x => task_ptr x = t
  | _ => True
  end.

(** ... for every goroutine. *)
Definition own_all (ths : list thread) : Prop :=
  forall t th, ths !! t = Some th -> own_turn t th.

(** A call has started only if the earlier ones have returned. *)
Definition in_order (ths : list thread) : Prop :=
  forall u v thu thv, u < v -> ths !! u = Some thu -> ths !! v = Some thv ->
    th_pc thv <> PEnter -> returned thu = true.

(** The queue holds the task of the caller that is waiting, and nothing
    else. *)
Definition queue_is (q : PriorityQueue) (ths : list thread) : Prop :=
  (forall t th, ths !! t = Some th -> waiting th = true ->
                q = [mkTask t (th_prio th) 0]) /\
  ((forall t th, ths !! t = Some th -> waiting th = false) -> q = []).

(** [sem] holds exactly the tokens the goroutines have put in, and a
    caller past the wait loop finds room in it. *)
Definition slots_are (len cap : nat) (ths : list thread) : Prop :=
  len = tokens ths /\ len <= cap /\
  forall t th, ths !! t = Some th ->
    match th_pc th with PPop | PSend _ => len < cap | _ => True end.

(** A locked mutex has an owner inside its critical section. *)
Definition mutex_owned (m : option nat) (ths : list thread) : Prop :=
  forall u, m = Some u -> exists th, ths !! u = Some th /\ holds_mu th = true.

(** A parked caller has a worker left that will signal. *)
Definition wakeable (ths : list thread) : Prop :=
  (exists u th, ths !! u = Some th /\ th_pc th = PParked) ->
  exists v th, ths !! v = Some th /\ will_signal th = true.

(** The invariant of a run of the handler. *)
Definition handler_inv (st : state) : Prop :=
  closed st = false /\ sem_closed st = false /\
  waitlist_ok st /\ mutex_ok st /\
  mutex_owned (mu st) (threads st) /\
  own_all (threads st) /\
  in_order (threads st) /\
  queue_is (pq st) (threads st) /\
  slots_are (sem_len st) (sem_cap st) (threads st) /\
  (1 <= sem_cap st -> wakeable (threads st)).

(** Concrete scenarios, capacity 1. Goroutine 0 is admitted first. *)
Definition admit0 : list label := [Run 0 0; Run 0 0; Run 0 0; Run 0 0; Run 0 0].

(** Goroutine 1 blocks, Close runs, goroutine 1 is woken and re-tests the
    slot condition, then goroutine 2 calls Acquire. *)
Definition sched_close : list label :=
  admit0 ++ [Run 1 0; Run 1 0; CallClose; Run 1 0; Run 1 0; Run 2 0].

(** Goroutine 0 then releases, which wakes goroutine 1 again. *)
Definition sched_drain : list label :=
  [Run 0 0; Run 0 0; Run 1 0; Run 1 0; Run 1 0; Run 1 0].

(** Goroutines 1 (low) and 2 (high) block behind goroutine 0; its Release
    wakes goroutine 1, which pops the task of goroutine 2. *)
Definition sched_popped : list label :=
  admit0 ++ [Run 1 0; Run 1 0; Run 2 0; Run 2 0; Run 1 0; Run 1 0]
         ++ [Run 0 0; Run 0 1; Run 1 0; Run 1 0; Run 1 0; Run 1 0].

(** ... and then compares it with its own. *)
Definition sched_preempt : list label := sched_popped ++ [Run 1 0].

(** A limiter of capacity 1 used by three goroutines that have not
    started yet. *)
Definition three (p0 p1 p2 : TaskPriority) : state :=
  mkState 0 1 false [] None [] false (fresh <$> [p0; p1; p2]).

End Limiter.

(** ** The probe orchestrator *)

Module Checker.

(** *** Durations and instants

    [time.Duration] is an [int64] count of nanoseconds; arithmetic on it
    wraps around. Instants are nanoseconds on one clock. *)
Definition wrap64 (z : Z) : Z := ((z + 2 ^ 63) mod 2 ^ 64 - 2 ^ 63)%Z.

Definition maxDuration : Z := (2 ^ 63 - 1)%Z.
Definition minDuration : Z := (- 2 ^ 63)%Z.

Definition Millisecond : Z := 1000000.
Definition Hour : Z := 3600000000000.

Definition dur_mul (a b : Z) : Z := wrap64 (a * b).

(** [x << i] on [int64], for a shift count [i >= 0]. *)
Definition shl64 (x i : Z) : Z := wrap64 (Z.shiftl x i).

(** [t.Sub(u)]: the difference, saturated to the range of Duration. *)
Definition time_sub (t u : Z) : Z :=
  Z.max minDuration (Z.min maxDuration (t - u)).

(** [d.Milliseconds()]: integer division truncates toward zero. *)
Definition Milliseconds (d : Z) : Z := (d ÷ Millisecond)%Z.

(** [base * (1 << i)] with [base := 100 * time.Millisecond]: the untyped
    constant 1 takes the type of [base], so the shift and the product
    are both computed in int64. *)
Definition base : Z := (100 * Millisecond)%Z.
Definition backoff_at (i : Z) : Z := dur_mul base (shl64 1 i).

(** [backoff := make([]time.Duration, n)] filled by the first loop of
    CheckTarget. *)
Definition make_backoff (n : Z) : list Z :=
  (fun i => backoff_at (Z.of_nat i)) <$> seq 0 (Z.to_nat n).

(** *** float64, for [Duration.Hours]

    IEEE 754 binary64 through the specification of the standard library:
    round to nearest even, as Go does. *)
Definition prec : Z := 53.
Definition emax : Z := 1024.

Definition float64_of_Z (z : Z) : spec_float := binary_normalize prec emax z 0 false.

(** [int(f)]: the fraction is discarded. Infinities and NaN, whose
    conversion Go leaves to the implementation, do not arise from
    [Hours], which is bounded by 2^63 / 3.6e12. *)
Definition int_of_float64 (f : spec_float) : Z :=
  match f with
  | S754_finite s m e =>
      let v := if (0 <=? e)%Z then (Z.pos m * 2 ^ e)%Z else (Z.pos m / 2 ^ (- e))%Z in
      if s then (- v)%Z else v
  | _ => 0%Z
  end.

(** [d.Hours()]: [float64(d / Hour) + float64(d % Hour) / (60 * 60 * 1e9)]. *)
Definition Hours (d : Z) : spec_float :=
  SFadd prec emax (float64_of_Z (d ÷ Hour)%Z)
    (SFdiv prec emax (float64_of_Z (Z.rem d Hour)) (float64_of_Z Hour)).

(** [int(expiry.Sub(time.Now()).Hours() / 24)]. *)
Definition days_until (expiry now : Z) : Z :=
  int_of_float64 (SFdiv prec emax (Hours (time_sub expiry now)) (float64_of_Z 24)).

(** *** Strings *)

(** [%d]. *)
Definition itoa (z : Z) : string := NilZero.string_of_int (Z.to_int z).

Definition HasPrefix (s p : string) : bool := String.prefix p s.

Definition TrimPrefix (s p : string) : string :=
  if HasPrefix s p then String.substring (String.length p) (String.length s - String.length p) s
  else s.

(** [strings.ToLower] on the ASCII letters. On other code points Go applies
    the Unicode mapping, which never produces one of the bytes of
    "tcp://", the only text a lowered string is compared with here. *)
Definition lower_ascii (c : ascii) : ascii :=
  let n := nat_of_ascii c in
  if (65 <=? n)%nat && (n <=? 90)%nat then ascii_of_nat (n + 32) else c.

Fixpoint ToLower (s : string) : string :=
  match s with
  | EmptyString => EmptyString
  | String c s' => String (lower_ascii c) (ToLower s')
  end.

(** [strings.Contains]. *)
Fixpoint Contains (s sub : string) : bool :=
  if String.prefix sub s then true
  else match s with
       | EmptyString => false
       | String _ s' => Contains s' sub
       end.

Fixpoint IndexByte (s : string) (c : ascii) : option nat :=
  match s with
  | EmptyString => None
  | String a s' => if Ascii.eqb a c then Some 0%nat else S <$> IndexByte s' c
  end.

Fixpoint LastIndexByte (s : string) (c : ascii) : option nat :=
  match s with
  | EmptyString => None
  | String a s' =>
      match LastIndexByte s' c with
      | Some i => Some (S i)
      | None => if Ascii.eqb a c then Some 0%nat else None
      end
  end.

(** [s[i:]] and [s[i:j]]. *)
Definition from (i : nat) (s : string) : string :=
  String.substring i (String.length s - i) s.
Definition slice (i j : nat) (s : string) : string := String.substring i (j - i) s.

(** *** The net package, as far as the TCP probe reaches it *)

Definition missingPort : string := "missing port in address".
Definition tooManyColons : string := "too many colons in address".

(** [net.SplitHostPort], transcribed from the standard library. The
    result is the pair (host, port) or the text of the AddrError. *)
Definition SplitHostPort (hostport : string) : (string * string) + string :=
  match LastIndexByte hostport ":" with
  | None => inr missingPort
  | Some i =>
      let finish (host : string) (j k : nat) : (string * string) + string :=
        if IndexByte (from j hostport) "[" is Some _ then inr "unexpected '[' in address"
        else if IndexByte (from k hostport) "]" is Some _ then inr "unexpected ']' in address"
        else inl (host, from (S i) hostport) in
      if HasPrefix hostport "[" then
        match IndexByte hostport "]" with
        | None => inr "missing ']' in address"
        | Some e =>
            if (S e =? String.length hostport)%nat then inr missingPort
            else if (S e =? i)%nat then finish (slice 1 e hostport) 1%nat (S e)
            else if String.get (S e) hostport is Some ":"%char then inr tooManyColons
            else inr missingPort
        end
      else
        let host := slice 0 i hostport in
        if IndexByte host ":" is Some _ then inr tooManyColons
        else finish host 0%nat 0%nat
  end.

Definition AddrError (addr why : string) : string :=
  "address " +:+ addr +:+ ": " +:+ why.

Definition is_digit (c : ascii) : bool :=
  (48 <=? nat_of_ascii c)%nat && (nat_of_ascii c <=? 57)%nat.

(** The digit loop of [net.parsePort] over a uint32 accumulator: [None]
    when a character is not a digit (the name needs a lookup). *)
Fixpoint port_digits (s : string) (n : Z) : option Z :=
  match s with
  | EmptyString => Some n
  | String d s' =>
      if is_digit d then
        if (2 ^ 30 <=? n)%Z then Some (2 ^ 32 - 1)%Z
        else
          let n10 := ((n * 10) mod 2 ^ 32)%Z in
          let nn := ((n10 + (Z.of_nat (nat_of_ascii d) - 48)) mod 2 ^ 32)%Z in
          if (nn <? n10)%Z then Some (2 ^ 32 - 1)%Z else port_digits s' nn
      else None
  end.

(** [net.parsePort]: the port number, or [None] when the service has to
    be looked up by name. *)
Definition parsePort (service : string) : option Z :=
  match service with
  | EmptyString => Some 0%Z
  | String c rest =>
      let neg := Ascii.eqb c "-" in
      let digits := if Ascii.eqb c "+" || neg then rest else service in
      match port_digits digits 0 with
      | None => None
      | Some n =>
          let cutoff := (2 ^ 30)%Z in
          let port := if negb neg && (cutoff <=? n)%Z then (cutoff - 1)%Z
                      else if neg && (cutoff <? n)%Z then cutoff
                      else n in
          Some (if neg then (- port)%Z else port)
      end
  end.

(** *** The environment of a probe

    What the network answers is not decided by the program: the [n]-th
    network operation of a run gets its answer, and its duration, from
    the environment. *)
Inductive DialReply :=
| DialOK
| DialTimeout (msg : string)    (* a net.Error whose Timeout() is true *)
| DialFailed (msg : string).

Inductive BodyRead :=
| BodyOK (body : string)
| BodyFailed (msg : string).

Record Response := mkResponse {
  RespStatusCode   : Z;
  RespBody         : BodyRead;
  (* [resp.TLS], and the NotAfter instants of its PeerCertificates *)
  RespTLS          : option (list Z)
}.

Inductive HttpReply :=
| DoTimeout (msg : string)      (* a net.Error whose Timeout() is true *)
| DoFailed (msg : string)
| DoOK (resp : Response).

Record Env := mkEnv {
  (* the service database consulted by net.LookupPort for network "tcp" *)
  services    : string -> option Z;
  (* the error of http.NewRequest("GET", url, nil), if any *)
  new_request : string -> option string;
  dial        : nat -> string -> DialReply;
  http_do     : nat -> string -> HttpReply;
  latency     : nat -> Z
}.

(** [net.LookupPort("tcp", service)]. *)
Definition LookupPort (env : Env) (service : string) : option Z :=
  let port := match parsePort service with
              | Some p => Some p
              | None => services env service
              end in
  match port with
  | Some p => if (p <? 0)%Z || (65535 <? p)%Z then None else Some p
  | None => None
  end.

(** *** Data model *)

Definition ErrorTypeNetwork : string := "network".
Definition ErrorTypeTimeout : string := "timeout".
Definition ErrorTypeSSL     : string := "ssl".
Definition ErrorTypeHTTP    : string := "http".
Definition ErrorTypeKeyword : string := "keyword".
Definition ErrorTypeInvalid : string := "invalid".
Definition ErrorTypeUnknown : string := "unknown".

Record MonitorTarget := mkTarget {
  URL       : string;
  Keyword   : string;
  IsCurrent : bool;
  TargetPriority : string
}.

(** [MonitorResult]; [ID] and [CreatedAt] belong to the storage layer and
    keep their zero values here. [ResponseTime] is a float64 holding a
    whole number of milliseconds. *)
Record MonitorResult := mkResult {
  TargetURL      : string;
  Status         : string;
  StatusCode     : Z;
  ResponseTime   : Z;
  SSLCertExpiry  : string;
  KeywordMatched : bool;
  ErrorMsg       : string;
  ErrorType      : string;
  Warning        : string;
  CheckedAt      : Z
}.

Record MonitorConfig := mkConfig {
  HTTPTimeout : Z;
  TCPTimeout  : Z;
  MaxRetry    : Z;
  MaxBodySize : Z;
  CacheTTL    : Z
}.

Definition set_StatusCode (r : MonitorResult) (c : Z) : MonitorResult :=
  mkResult (TargetURL r) (Status r) c (ResponseTime r) (SSLCertExpiry r)
    (KeywordMatched r) (ErrorMsg r) (ErrorType r) (Warning r) (CheckedAt r).
Definition set_ResponseTime (r : MonitorResult) (ms : Z) : MonitorResult :=
  mkResult (TargetURL r) (Status r) (StatusCode r) ms (SSLCertExpiry r)
    (KeywordMatched r) (ErrorMsg r) (ErrorType r) (Warning r) (CheckedAt r).
Definition set_SSLCertExpiry (r : MonitorResult) (s : string) : MonitorResult :=
  mkResult (TargetURL r) (Status r) (StatusCode r) (ResponseTime r) s
    (KeywordMatched r) (ErrorMsg r) (ErrorType r) (Warning r) (CheckedAt r).
Definition set_KeywordMatched (r : MonitorResult) (b : bool) : MonitorResult :=
  mkResult (TargetURL r) (Status r) (StatusCode r) (ResponseTime r) (SSLCertExpiry r)
    b (ErrorMsg r) (ErrorType r) (Warning r) (CheckedAt r).
Definition set_Warning (r : MonitorResult) (s : string) : MonitorResult :=
  mkResult (TargetURL r) (Status r) (StatusCode r) (ResponseTime r) (SSLCertExpiry r)
    (KeywordMatched r) (ErrorMsg r) (ErrorType r) s (CheckedAt r).
(** [result.Status = s; result.ErrorMsg = m; result.ErrorType = k]. *)
Definition set_outcome (r : MonitorResult) (s m k : string) : MonitorResult :=
  mkResult (TargetURL r) s (StatusCode r) (ResponseTime r) (SSLCertExpiry r)
    (KeywordMatched r) m k (Warning r) (CheckedAt r).

(** *** The world a check runs in *)

Inductive Event :=
| EvAttempt (retry : Z)       (* an iteration of the retry loop starts *)
| EvDial (address : string)   (* net.DialTimeout *)
| EvGet (url : string)        (* client.Do *)
| EvSleep (d : Z).            (* time.Sleep *)

Record World := mkWorld {
  now   : Z;                             (* time.Now() *)
  cache : gmap string MonitorResult;     (* resultCache *)
  ops   : nat;                           (* network operations so far *)
  trace : list Event                     (* what has happened, oldest first *)
}.

Definition log (e : Event) (w : World) : World :=
  mkWorld (now w) (cache w) (ops w) (trace w ++ [e]).

(** A network operation: it is recorded and takes its time. *)
Definition net_op (env : Env) (e : Event) (w : World) : World :=
  mkWorld (now w + latency env (ops w)) (cache w) (S (ops w)) (trace w ++ [e]).

(** [time.Sleep(d)] returns at once when [d <= 0]. *)
Definition Sleep (d : Z) (w : World) : World :=
  mkWorld (now w + Z.max 0 d) (cache w) (ops w) (trace w ++ [EvSleep d]).

(** The pair [(error, ErrorType)] returned by a probe: [None] is [nil]. *)
Definition ProbeErr : Type := option string * string.
Definition ok : ProbeErr := (None, "").
Definition fail (msg kind : string) : ProbeErr := (Some msg, kind).

(** *** checkTCP *)
Definition checkTCP (env : Env) (cfg : MonitorConfig) (url : string)
    (result : MonitorResult) (w : World) : ProbeErr * MonitorResult * World :=
  let address := TrimPrefix url "tcp://" in
  if String.eqb address "" then
    (fail "无效的TCP地址，格式应为 tcp://ip:port" ErrorTypeInvalid, result, w)
  else
    match SplitHostPort address with
    | inr why =>
        (fail ("解析TCP地址失败：" +:+ AddrError address why) ErrorTypeInvalid, result, w)
    | inl (_, portStr) =>
        match LookupPort env portStr with
        | None => (fail ("无效的端口号：" +:+ portStr) ErrorTypeInvalid, result, w)
        | Some _ =>
            let reply := dial env (ops w) address in
            let w := net_op env (EvDial address) w in
            match reply with
            | DialTimeout msg => (fail ("TCP连接超时：" +:+ msg) ErrorTypeTimeout, result, w)
            | DialFailed msg => (fail ("TCP连接失败：" +:+ msg) ErrorTypeNetwork, result, w)
            | DialOK => (ok, set_StatusCode result 0, w)
            end
        end
    end.

(** *** checkHTTP *)

(** The certificate block of checkHTTP, given [days]. *)
Definition record_certificate (days : Z) (result : MonitorResult) : MonitorResult :=
  let result :=
    if (0 <? days)%Z then set_SSLCertExpiry result ("还有" +:+ itoa days +:+ "天过期")
    else if (days =? 0)%Z then set_SSLCertExpiry result "今日过期"
    else set_SSLCertExpiry result ("已过期" +:+ itoa (- days) +:+ "天") in
  if (days <? 7)%Z then
    set_Warning result ("SSL证书即将过期（剩余" +:+ itoa days +:+ "天）")
  else result.

(** [io.ReadAll(io.LimitReader(resp.Body, n))]. *)
Definition limit_body (n : Z) (body : string) : string :=
  String.substring 0 (Z.to_nat n) body.

Definition checkHTTP (env : Env) (cfg : MonitorConfig) (url keyword : string)
    (result : MonitorResult) (w : World) : ProbeErr * MonitorResult * World :=
  match new_request env url with
  | Some msg => (fail ("创建HTTP请求失败：" +:+ msg) ErrorTypeInvalid, result, w)
  | None =>
      let reply := http_do env (ops w) url in
      let w := net_op env (EvGet url) w in
      match reply with
      | DoTimeout msg => (fail ("HTTP请求超时：" +:+ msg) ErrorTypeTimeout, result, w)
      | DoFailed msg =>
          if Contains msg "certificate"
          then (fail ("SSL证书验证失败：" +:+ msg) ErrorTypeSSL, result, w)
          else (fail ("HTTP请求失败：" +:+ msg) ErrorTypeNetwork, result, w)
      | DoOK resp =>
          match RespBody resp with
          | BodyFailed msg => (fail ("读取响应体失败：" +:+ msg) ErrorTypeUnknown, result, w)
          | BodyOK full =>
              let body := limit_body (MaxBodySize cfg) full in
              let result := set_StatusCode result (RespStatusCode resp) in
              let matched := Contains body keyword in
              let result :=
                if String.eqb keyword "" then result else set_KeywordMatched result matched in
              if negb (String.eqb keyword "") && negb matched then
                (fail ("响应体未找到关键词：" +:+ keyword) ErrorTypeKeyword, result, w)
              else
                let result :=
                  match RespTLS resp with
                  | Some (expiry :: _) => record_certificate (days_until expiry (now w)) result
                  | _ => result
                  end in
                if (RespStatusCode resp <? 200)%Z || (300 <=? RespStatusCode resp)%Z then
                  (fail ("HTTP状态码异常：" +:+ itoa (RespStatusCode resp)) ErrorTypeHTTP,
                   result, w)
                else (ok, result, w)
          end
      end
  end.

(** *** The cache *)

(** [GetCachedResult]: the entry, unless it is older than [cacheTTL]. *)
Definition GetCachedResult (cfg : MonitorConfig) (targetURL : string) (w : World)
  : option MonitorResult :=
  match cache w !! targetURL with
  | None => None
  | Some result =>
      if (CacheTTL cfg <? time_sub (now w) (CheckedAt result))%Z then None
      else Some result
  end.

Definition updateCache (result : MonitorResult) (w : World) : World :=
  mkWorld (now w) (<[TargetURL result := result]> (cache w)) (ops w) (trace w).

(** [CleanExpiredCache]. *)
Definition CleanExpiredCache (cfg : MonitorConfig) (w : World) : World :=
  mkWorld (now w)
    (filter (fun kv => ¬ (CacheTTL cfg < time_sub (now w) (CheckedAt kv.2))%Z) (cache w))
    (ops w) (trace w).

(** *** CheckTarget *)

(** The protocol dispatch of one attempt. *)
Definition probe (env : Env) (cfg : MonitorConfig) (target : MonitorTarget)
    (result : MonitorResult) (w : World) : ProbeErr * MonitorResult * World :=
  if HasPrefix (ToLower (URL target)) "tcp://"
  then checkTCP env cfg (URL target) result w
  else checkHTTP env cfg (URL target) (Keyword target) result w.

(** The retry loop, [n] iterations from [retry] on. [retry] stays below
    [MaxRetry], the length of [backoff], so [backoff[retry]] is in range. *)
Fixpoint retry_loop (env : Env) (cfg : MonitorConfig) (target : MonitorTarget)
    (backoff : list Z) (n : nat) (retry : Z) (result : MonitorResult) (w : World)
  : MonitorResult * World :=
  match n with
  | O => (result, w)
  | S n' =>
      let w := log (EvAttempt retry) w in
      let start := now w in
      let '(err, result, w) := probe env cfg target result w in
      let result := set_ResponseTime result (Milliseconds (time_sub (now w) start)) in
      match fst err with
      | None => (set_outcome result "success" "" "", w)
      | Some msg =>
          if (retry =? MaxRetry cfg - 1)%Z then
            retry_loop env cfg target backoff n' (retry + 1)%Z
              (set_outcome result "failed" msg (snd err)) w
          else
            retry_loop env cfg target backoff n' (retry + 1)%Z result
              (Sleep (default 0%Z (backoff !! Z.to_nat retry)) w)
      end
  end.

(** [CheckTarget]. [None] is the runtime panic of [make] on a negative
    length. *)
Definition CheckTarget (env : Env) (cfg : MonitorConfig) (target : MonitorTarget)
    (w : World) : option (MonitorResult * World) :=
  match GetCachedResult cfg (URL target) w with
  | Some cachedResult => Some (cachedResult, w)
  | None =>
      let result := mkResult (URL target) "" 0 0 "" false "" "" "" (now w) in
      if (MaxRetry cfg <? 0)%Z then None
      else
        let backoff := make_backoff (MaxRetry cfg) in
        let '(result, w) :=
          retry_loop env cfg target backoff (Z.to_nat (MaxRetry cfg)) 0 result w in
        Some (result, updateCache result w)
  end.

(** The attempts and sleeps of a trace, in order. *)
Definition is_pacing (e : Event) : bool :=
  match e with EvAttempt _ | EvSleep _ => true | _ => false end.
Definition pacing (w : World) : list Event := List.filter is_pacing (trace w).

Definition is_network (e : Event) : bool :=
  match e with EvDial _ | EvGet _ => true | _ => false end.
Definition network_events (w : World) : list Event := List.filter is_network (trace w).

(** *** Fixtures: environments, configurations and worlds for examples *)

Definition Second : Z := 1000000000.

(** The limits of [config.DefaultConfig], with [n] as MaxRetry. *)
Definition cfg_retry (n : Z) : MonitorConfig :=
  mkConfig (10 * Second) (5 * Second) n (1024 * 1024) (30 * Second).

(** Every dial and every request fails; each takes one millisecond. *)
Definition env_refusing : Env :=
  mkEnv (fun _ => None) (fun _ => None)
    (fun _ _ => DialFailed "connection refused")
    (fun _ _ => DoFailed "connection refused")
    (fun _ => Millisecond).

(** Every request is answered by [resp]. *)
Definition env_answering (resp : Response) : Env :=
  mkEnv (fun _ => None) (fun _ => None)
    (fun _ _ => DialOK) (fun _ _ => DoOK resp) (fun _ => Millisecond).

Definition w0 : World := mkWorld 0 ∅ 0 [].

Definition blank (url : string) (at_ : Z) : MonitorResult :=
  mkResult url "" 0 0 "" false "" "" "" at_.

(** The error of a probe outcome, its kind and its result. *)
Definition err_of (o : ProbeErr * MonitorResult * World) : option string := o.1.1.1.
Definition kind_of (o : ProbeErr * MonitorResult * World) : string := o.1.1.2.
Definition result_of (o : ProbeErr * MonitorResult * World) : MonitorResult := o.1.2.
Definition world_of (o : ProbeErr * MonitorResult * World) : World := o.2.

(** Does the keyword check of checkHTTP reject this body? *)
Definition keyword_missing (cfg : MonitorConfig) (keyword full : string) : bool :=
  negb (String.eqb keyword "") && negb (Contains (limit_body (MaxBodySize cfg) full) keyword).

Definition non_2xx (code : Z) : bool := (code <? 200)%Z || (300 <=? code)%Z.



(** The pacing of a check whose [n] remaining attempts all fail, from
    attempt [retry] on: every attempt but the last is followed by its
    backoff sleep. *)
Fixpoint failing_pacing (n : nat) (retry : Z) : list Event :=
  match n with
  | O => []
  | S n' =>
      EvAttempt retry ::
      match n' with
      | O => []
      | S _ => EvSleep (backoff_at retry) :: failing_pacing n' (retry + 1)%Z
      end
  end.

(** A target whose probe fails whatever the state it runs in. *)
Definition always_fails (env : Env) (cfg : MonitorConfig) (target : MonitorTarget) : Prop :=
  forall result w, err_of (probe env cfg target result w) <> None.

(** What a check that misses the cache does. It marks attempt 0 and runs
    the probe on a blank result; whatever follows starts from the world
    that probe leaves. When the probe succeeds, its result, with the
    elapsed time and the status filled in, is the final one. The final
    result is for the target and is stored under its URL. *)
Definition fresh_check (env : Env) (cfg : MonitorConfig) (target : MonitorTarget)
    (w : World) : Prop :=
  let out := probe env cfg target (blank (URL target) (now w)) (log (EvAttempt 0) w) in
  exists r' w' rest,
    CheckTarget env cfg target w = Some (r', w') /\
    trace w' = trace (world_of out) ++ rest /\
    (ops (world_of out) <= ops w')%nat /\
    (err_of out = None ->
     r' = set_outcome
            (set_ResponseTime (result_of out)
               (Milliseconds (time_sub (now (world_of out)) (now w))))
            "success" "" "" /\
     w' = updateCache r' (world_of out)) /\
    TargetURL r' = URL target /\
    cache w' = <[URL target := r']> (cache w).

(** A world whose cache holds one result for [url], checked at instant 0. *)
Definition cached_result (url : string) : MonitorResult :=
  mkResult url "success" 200 12 "" false "" "" "" 0.
Definition w_cached (url : string) (at_ : Z) : World :=
  mkWorld at_ {[ url := cached_result url ]} 0 [].

Definition target_of (url : string) : MonitorTarget := mkTarget url "" true "".

(** *** The shape of a run of attempts *)

(** Where a run of attempts stands: nothing yet, an attempt has been
    marked, its network operation has been made, the sleep after a
    failed attempt has been taken. *)
Inductive phase := Idle | Attempted | Probed | Slept.

(** [evs] continues a run of attempts, the next one numbered [i]: an
    attempt is its mark followed by at most one network operation;
    between two attempts lies exactly one sleep; the run does not start
    with a sleep and does not end with one. *)
Fixpoint paced (p : phase) (i : Z) (evs : list Event) : bool :=
  match evs with
  | [] => match p with Slept => false | _ => true end
  | e :: evs' =>
      match p, e with
      | Idle, EvAttempt j | Slept, EvAttempt j =>
          (j =? i)%Z && paced Attempted (i + 1) evs'
      | Attempted, EvDial _ | Attempted, EvGet _ => paced Probed i evs'
      | Attempted, EvSleep _ | Probed, EvSleep _ => paced Slept i evs'
      | _, _ => false
      end
  end.

(** *** Measures of a trace *)

Definition is_attempt (e : Event) : bool :=
  match e with EvAttempt _ => true | _ => false end.
Definition is_sleep (e : Event) : bool :=
  match e with EvSleep _ => true | _ => false end.

Definition count_attempts (evs : list Event) : Z :=
  Z.of_nat (length (List.filter is_attempt evs)).
Definition count_sleeps (evs : list Event) : Z :=
  Z.of_nat (length (List.filter is_sleep evs)).

(** The time spent in time.Sleep: a non-positive argument costs nothing. *)
Fixpoint total_sleep (evs : list Event) : Z :=
  match evs with
  | [] => 0
  | EvSleep d :: evs' => Z.max 0 d + total_sleep evs'
  | _ :: evs' => total_sleep evs'
  end.

(** The error kinds of the package. *)
Definition error_kinds : list string :=
  [ErrorTypeNetwork; ErrorTypeTimeout; ErrorTypeSSL; ErrorTypeHTTP;
   ErrorTypeKeyword; ErrorTypeInvalid; ErrorTypeUnknown].

(** The fields of a result that only an HTTP exchange fills in. *)
Definition no_http_fields (r : MonitorResult) : Prop :=
  StatusCode r = 0%Z /\ SSLCertExpiry r = "" /\ Warning r = "" /\ KeywordMatched r = false.


(** Does checkHTTP accept this answer of the network? *)
Definition http_reply_ok (cfg : MonitorConfig) (keyword : string) (reply : HttpReply) : bool :=
  match reply with
  | DoOK resp =>
      match RespBody resp with
      | BodyOK full =>
          negb (keyword_missing cfg keyword full) && negb (non_2xx (RespStatusCode resp))
      | BodyFailed _ => false
      end
  | _ => false
  end.

(** The pacing of a check whose attempts [retry .. retry + k - 1] fail
    and whose attempt [retry + k] succeeds. *)
Fixpoint recover_pacing (k : nat) (retry : Z) : list Event :=
  EvAttempt retry ::
  match k with
  | O => []
  | S k' => EvSleep (backoff_at retry) :: recover_pacing k' (retry + 1)%Z
  end.

Definition is_get (e : Event) : bool :=
  match e with EvGet _ => true | _ => false end.
Definition is_dial (e : Event) : bool :=
  match e with EvDial _ => true | _ => false end.

(** No byte of [s] is a colon or a square bracket. *)
Fixpoint plain (s : string) : bool :=
  match s with
  | EmptyString => true
  | String c s' =>
      negb (Ascii.eqb c ":") && negb (Ascii.eqb c "[") && negb (Ascii.eqb c "]") && plain s'
  end.

(** The first request is reset, every later one is answered with 200. *)
Definition env_flaky : Env :=
  mkEnv (fun _ => None) (fun _ => None)
    (fun _ _ => DialOK)
    (fun n _ => if (n =? 0)%nat then DoFailed "connection reset"
                else DoOK (mkResponse 200 (BodyOK "all good") None))
    (fun _ => Millisecond).

(** *** Attempts that never see a response body *)

(** The exchange fails before a response body has been read: the request
    times out or fails, or reading the body fails. *)
Definition transport_failure (reply : HttpReply) : bool :=
  match reply with
  | DoTimeout _ | DoFailed _ => true
  | DoOK resp =>
      match RespBody resp with BodyFailed _ => true | BodyOK _ => false end
  end.

(** The kinds checkHTTP reports for such a failure. *)
Definition transport_kinds : list string :=
  [ErrorTypeTimeout; ErrorTypeSSL; ErrorTypeNetwork; ErrorTypeUnknown].

(** The kind checkHTTP reports for it. *)
Definition transport_kind (reply : HttpReply) : string :=
  match reply with
  | DoTimeout _ => ErrorTypeTimeout
  | DoFailed msg => if Contains msg "certificate" then ErrorTypeSSL else ErrorTypeNetwork
  | DoOK _ => ErrorTypeUnknown
  end.

(** The fields of a result that only an answered exchange writes. *)
Definition same_http_fields (r r' : MonitorResult) : Prop :=
  StatusCode r = StatusCode r' /\ SSLCertExpiry r = SSLCertExpiry r' /\
  Warning r = Warning r' /\ KeywordMatched r = KeywordMatched r'.

(** The first request is answered with 503, every later one times out. *)
Definition env_degrading : Env :=
  mkEnv (fun _ => None) (fun _ => None)
    (fun _ _ => DialOK)
    (fun n _ => if (n =? 0)%nat
                then DoOK (mkResponse 503 (BodyOK "busy") None)
                else DoTimeout "context deadline exceeded")
    (fun _ => Millisecond).

End Checker.

(** ** Properties of the admission controller *)

Module LimiterProofs.
Import Limiter.

(** The fuel given to [up] and [down] by heap_Push and heap_Pop is never
    used up: with any larger amount the loops return the same queue. *)
Lemma up_fuel (f1 f2 : nat) (q : PriorityQueue) (j : nat) :
  j < f1 -> j < f2 -> up f1 q j = up f2 q j.
Proof.
  revert f2 q j. induction f1 as [|f1 IH]; intros f2 q j H1 H2; [lia|].
  destruct f2 as [|f2]; [lia|]. cbn [up].
  destruct ((j - 1) / 2 =? j)%nat eqn:Heq; [reflexivity|].
  apply Nat.eqb_neq in Heq. cbn [orb].
  destruct (negb (Less q j ((j - 1) / 2))); [reflexivity|].
  assert ((j - 1) / 2 <= j - 1) by (apply Nat.Div0.div_le_upper_bound; lia).
  apply IH; lia.
Qed.

Lemma down_fuel (f1 f2 : nat) (q : PriorityQueue) (i n : nat) :
  n - i <= f1 -> n - i <= f2 -> down f1 q i n = down f2 q i n.
Proof.
  revert f2 q i. induction f1 as [|f1 IH]; intros f2 q i H1 H2.
  - destruct f2 as [|f2]; [reflexivity|]. cbn [down].
    replace (n <=? 2 * i + 1)%nat with true by (symmetry; apply Nat.leb_le; lia).
    reflexivity.
  - destruct f2 as [|f2]; cbn [down].
    + replace (n <=? 2 * i + 1)%nat with true by (symmetry; apply Nat.leb_le; lia).
      reflexivity.
    + destruct (n <=? 2 * i + 1)%nat eqn:Hle; [reflexivity|].
      apply Nat.leb_gt in Hle.
      destruct ((2 * i + 1 + 1 <? n)%nat && Less q (2 * i + 1 + 1) (2 * i + 1))%bool;
        match goal with
        | |- context [negb ?b] => destruct (negb b); [reflexivity|]
        end; apply IH; lia.
Qed.

Lemma heap_Push_fuel (q : PriorityQueue) (x : PriorityTask) (extra : nat) :
  heap_Push q x = up (Len (Push q x) + extra) (Push q x) (Len (Push q x) - 1).
Proof.
  unfold heap_Push. apply up_fuel; unfold Len, Push; rewrite length_app; simpl; lia.
Qed.

Lemma heap_Pop_fuel (q : PriorityQueue) (extra : nat) :
  heap_Pop q =
  match q with
  | [] => None
  | _ => Pop (down (Len q + extra) (Swap q 0 (Len q - 1)) 0 (Len q - 1))
  end.
Proof.
  unfold heap_Pop. destruct q as [|x q]; [reflexivity|].
  f_equal. apply down_fuel; lia.
Qed.

Lemma tokens_insert (ths : list thread) (t : nat) (th th' : thread) :
  ths !! t = Some th ->
  tokens (<[t := th']> ths) + tokens_out th = tokens ths + tokens_out th'.
Proof.
  unfold tokens. revert t. induction ths as [|a ths IH]; intros [|t] Hl;
    simpl in *; try discriminate.
  - injection Hl as ->. lia.
  - specialize (IH t Hl). unfold fmap in IH. lia.
Qed.

Lemma tokens_insert_le (ths : list thread) (t : nat) (th th' : thread) :
  ths !! t = Some th -> tokens_out th' <= tokens_out th ->
  tokens (<[t := th']> ths) <= tokens ths.
Proof. intros Hl Hle. pose proof (tokens_insert ths t th th' Hl). lia. Qed.

Lemma tokens_lookup_le (ths : list thread) (t : nat) (th : thread) :
  ths !! t = Some th -> tokens_out th <= tokens ths.
Proof.
  unfold tokens. revert t. induction ths as [|a ths IH]; intros [|t] Hl;
    simpl in *; try discriminate.
  - injection Hl as ->. lia.
  - specialize (IH t Hl). unfold fmap in IH. lia.
Qed.

Lemma depth_le_tokens_out (th : thread) : th_depth th <= tokens_out th.
Proof. unfold tokens_out. lia. Qed.

Lemma wake_tokens (w : nat) (ths : list thread) : tokens (wake w ths) <= tokens ths.
Proof.
  unfold wake. destruct (ths !! w) as [th|] eqn:Hw; [|lia].
  apply (tokens_insert_le ths w th); [assumption|].
  unfold tokens_out; simpl. lia.
Qed.

Lemma wake_lookup (w t : nat) (ths : list thread) (th : thread) :
  ths !! t = Some th ->
  exists th', wake w ths !! t = Some th' /\ th_depth th' = th_depth th.
Proof.
  intros Hl. unfold wake. destruct (ths !! w) as [tw|] eqn:Hw.
  - destruct (decide (w = t)) as [->|Hne].
    + rewrite Hl in Hw. injection Hw as <-.
      exists (set_pc th PWoken). split; [|reflexivity].
      apply list_lookup_insert_eq. eapply lookup_lt_Some; eassumption.
    + exists th. split; [|reflexivity].
      rewrite list_lookup_insert_ne by assumption. assumption.
  - exists th. split; [assumption|reflexivity].
Qed.

Lemma signal_tokens (k : nat) (ws : list nat) (ths : list thread) :
  tokens (signal k ws ths).2 <= tokens ths.
Proof.
  unfold signal. destruct (ws !! k); simpl; [apply wake_tokens|].
  destruct ws; simpl; [lia|apply wake_tokens].
Qed.

Lemma signal_lookup (k t : nat) (ws : list nat) (ths : list thread) (th : thread) :
  ths !! t = Some th ->
  exists th', (signal k ws ths).2 !! t = Some th' /\ th_depth th' = th_depth th.
Proof.
  intros Hl. unfold signal. destruct (ws !! k); simpl; [apply wake_lookup, Hl|].
  destruct ws; simpl; [eauto|apply wake_lookup, Hl].
Qed.

Lemma broadcast_tokens (ws : list nat) (ths : list thread) :
  tokens (broadcast ws ths) <= tokens ths.
Proof.
  unfold broadcast. induction ws as [|w ws IH]; simpl; [lia|].
  etransitivity; [apply wake_tokens|exact IH].
Qed.

(** A step that signals and then moves [t] to a point outside the
    token-carrying ones does not create tokens. *)
Lemma signal_then_move (k t : nat) (ws : list nat) (ths : list thread)
      (th : thread) (p : pc) :
  ths !! t = Some th ->
  tokens_out (set_pc th p) = th_depth th ->
  tokens (<[t := set_pc th p]> (signal k ws ths).2) <= tokens ths.
Proof.
  intros Hl Hp.
  destruct (signal_lookup k t ws ths th Hl) as (th' & Hl' & Hd).
  etransitivity; [|apply (signal_tokens k ws ths)].
  apply (tokens_insert_le _ t th'); [assumption|].
  rewrite Hp, <- Hd. apply depth_le_tokens_out.
Qed.

Lemma unwind_tokens (th : thread) (p : pc) :
  tokens_out (set_pc th p) <= tokens_out th ->
  tokens_out (unwind th p) <= tokens_out th.
Proof.
  unfold unwind. destruct (th_depth th) eqn:Hd; [tauto|].
  intros _. unfold tokens_out. simpl. lia.
Qed.

Lemma step_thread_inv (t k : nat) (st st' : state) :
  slots_inv st -> step_thread t k st = Some st' -> slots_inv st'.
Proof.
  unfold slots_inv, step_thread. intros [Htok Hcap].
  destruct (threads st !! t) as [th|] eqn:Hl; [|discriminate].
  pose proof (fun th' => tokens_insert (threads st) t th th' Hl) as Hins.
  pose proof (tokens_lookup_le _ _ _ Hl) as Hth.
  destruct (th_pc th) eqn:Hpc.
  - (* PEnter *)
    destruct (mu st); [discriminate|]. destruct (closed st).
    + intros [= <-]; simpl. split; [|assumption].
      etransitivity; [|exact Htok].
      apply (tokens_insert_le _ t th); [assumption|].
      apply unwind_tokens. unfold tokens_out; simpl; rewrite Hpc; lia.
    + destruct (signal k (waiters st) (threads st)) as [ws ths] eqn:Hs.
      intros [= <-]; simpl. split; [|assumption].
      etransitivity; [|exact Htok].
      replace ths with (signal k (waiters st) (threads st)).2 by (rewrite Hs; reflexivity).
      apply signal_then_move; [assumption|]. unfold tokens_out; simpl; lia.
  - (* PLoop *)
    destruct (sem_len st =? sem_cap st)%nat; intros [= <-]; simpl;
      (split; [|assumption]); etransitivity; try exact Htok;
      apply (tokens_insert_le _ t th); try assumption;
      unfold tokens_out; simpl; rewrite Hpc; lia.
  - discriminate.
  - (* PWoken *)
    destruct (mu st); [discriminate|]. intros [= <-]; simpl.
    split; [|assumption]. etransitivity; [|exact Htok].
    apply (tokens_insert_le _ t th); [assumption|].
    unfold tokens_out; simpl; rewrite Hpc; lia.
  - (* PPop *)
    destruct (heap_Pop (pq st)) as [[x pq']|]; intros [= <-]; simpl;
      (split; [|assumption]); etransitivity; try exact Htok;
      apply (tokens_insert_le _ t th); try assumption.
    + unfold tokens_out; simpl; rewrite Hpc; lia.
    + apply unwind_tokens. unfold tokens_out; simpl; rewrite Hpc; lia.
  - (* PSend *)
    destruct (sem_closed st).
    + intros [= <-]; simpl. split; [|assumption].
      etransitivity; [|exact Htok].
      apply (tokens_insert_le _ t th); [assumption|].
      apply unwind_tokens. unfold tokens_out; simpl; rewrite Hpc; lia.
    + destruct (sem_len st <? sem_cap st)%nat eqn:Hlt; [|discriminate].
      apply Nat.ltb_lt in Hlt. intros [= <-]; simpl.
      assert (Hold : tokens_out th = th_depth th)
        by (unfold tokens_out; rewrite Hpc; lia).
      assert (Hnew : tokens_out (set_pc th (PCompare x)) = th_depth th + 1)
        by (unfold tokens_out; simpl; lia).
      specialize (Hins (set_pc th (PCompare x))).
      split; lia.
  - (* PCompare *)
    destruct (task_ptr x =? t)%nat; intros [= <-]; simpl;
      (split; [|assumption]); etransitivity; try exact Htok;
      apply (tokens_insert_le _ t th); try assumption.
    + apply unwind_tokens. unfold tokens_out; simpl; rewrite Hpc; lia.
    + unfold tokens_out; simpl; rewrite Hpc; lia.
  - (* PHolding *)
    assert (Hone : tokens_out th = th_depth th + 1)
      by (unfold tokens_out; rewrite Hpc; reflexivity).
    specialize (Hins (set_pc th PRelSignal)).
    assert (Hnew : tokens_out (set_pc th PRelSignal) = th_depth th)
      by (unfold tokens_out; simpl; lia).
    destruct (sem_len st) as [|n] eqn:Hn.
    + destruct (sem_closed st); [|discriminate].
      intros [= <-]; simpl. split; lia.
    + intros [= <-]; simpl. split; lia.
  - (* PRelSignal *)
    destruct (mu st); [discriminate|].
    destruct (signal k (waiters st) (threads st)) as [ws ths] eqn:Hs.
    intros [= <-]; simpl. split; [|assumption].
    etransitivity; [|exact Htok].
    replace ths with (signal k (waiters st) (threads st)).2 by (rewrite Hs; reflexivity).
    apply signal_then_move; [assumption|]. unfold tokens_out; simpl; lia.
  - discriminate.
  - discriminate.
  - discriminate.
Qed.

Lemma step_close_inv (st st' : state) :
  slots_inv st -> step_close st = Some st' -> slots_inv st'.
Proof.
  unfold slots_inv, step_close. intros [Htok Hcap].
  destruct (mu st); [discriminate|].
  destruct (sem_closed st); intros [= <-]; simpl; split; try assumption.
  etransitivity; [apply broadcast_tokens|assumption].
Qed.

Lemma step_inv (l : label) (st st' : state) :
  slots_inv st -> step l st = Some st' -> slots_inv st'.
Proof.
  destruct l; simpl; eauto using step_thread_inv, step_close_inv.
Qed.

Lemma exec_inv (sched : list label) (st : state) :
  slots_inv st -> slots_inv (exec sched st).
Proof.
  revert st. induction sched as [|l sched IH]; intros st Hinv; simpl; [assumption|].
  apply IH. destruct (step l st) as [st'|] eqn:Hs; simpl; [|assumption].
  eapply step_inv; eassumption.
Qed.

Lemma holders_le_tokens (ths : list thread) :
  length (List.filter is_holding ths) <= tokens ths.
Proof.
  unfold tokens. induction ths as [|th ths IH]; simpl; [lia|].
  unfold fmap in IH. unfold tokens_out at 1.
  destruct (is_holding th) eqn:Hh; unfold is_holding in Hh;
    destruct (th_pc th); try discriminate; simpl; lia.
Qed.

Lemma tokens_fresh (prios : list TaskPriority) : tokens (fresh <$> prios) = 0.
Proof. unfold tokens. induction prios as [|p prios IH]; simpl; [reflexivity|exact IH]. Qed.

Lemma closed_step (l : label) (st st' : state) :
  closed st = true -> step l st = Some st' -> closed st' = true.
Proof.
  intros Hc. destruct l as [t k|]; simpl.
  - unfold step_thread. destruct (threads st !! t) as [th|]; [|discriminate].
    destruct (th_pc th); try discriminate;
      repeat match goal with
             | |- context [match ?x with _ => _ end] => destruct x
             end;
      try discriminate; intros [= <-]; simpl; assumption.
  - unfold step_close. destruct (mu st); [discriminate|].
    destruct (sem_closed st); intros [= <-]; reflexivity.
Qed.

Lemma closed_exec (sched : list label) (st : state) :
  closed st = true -> closed (exec sched st) = true.
Proof.
  revert st. induction sched as [|l sched IH]; intros st Hc; simpl; [assumption|].
  apply IH. destruct (step l st) as [st'|] eqn:Hs; simpl; [|assumption].
  eapply closed_step; eassumption.
Qed.

Lemma sem_cap_step (l : label) (st st' : state) :
  step l st = Some st' -> sem_cap st' = sem_cap st.
Proof.
  destruct l as [t k|]; simpl.
  - unfold step_thread. destruct (threads st !! t) as [th|]; [|discriminate].
    destruct (th_pc th); try discriminate;
      repeat match goal with
             | |- context [match ?x with _ => _ end] => destruct x
             end;
      try discriminate; intros [= <-]; reflexivity.
  - unfold step_close. destruct (mu st); [discriminate|].
    destruct (sem_closed st); intros [= <-]; reflexivity.
Qed.

Lemma sem_cap_exec (sched : list label) (st : state) :
  sem_cap (exec sched st) = sem_cap st.
Proof.
  revert st. induction sched as [|l sched IH]; intros st; simpl; [reflexivity|].
  rewrite IH. destruct (step l st) as [st'|] eqn:Hs; simpl; [|reflexivity].
  eapply sem_cap_step; eassumption.
Qed.

(** C7. For every capacity [max] accepted by NewConcurrencyLimiter, every
    set of goroutines running AcquireWithPriority then Release, and every
    interleaving of their steps with calls of Close, the number of
    goroutines holding a slot never exceeds [max], and the semaphore never
    holds more than [max] tokens. *)
Theorem holders_never_exceed_capacity
    (max : Z) (prios : list TaskPriority) (st : state) (sched : list label) :
  NewConcurrencyLimiter max (fresh <$> prios) = Some st ->
  (Z.of_nat (holders (exec sched st)) <= max)%Z /\
  (Z.of_nat (sem_len (exec sched st)) <= max)%Z.
Proof.
  unfold NewConcurrencyLimiter. destruct (max <? 0)%Z eqn:Hneg; [discriminate|].
  apply Z.ltb_ge in Hneg. intros [= <-].
  set (st0 := mkState 0 (Z.to_nat max) false [] None [] false (fresh <$> prios)).
  assert (Hinv0 : slots_inv st0).
  { unfold slots_inv, st0; simpl. rewrite tokens_fresh. lia. }
  pose proof (sem_cap_exec sched st0) as Hcap. simpl in Hcap.
  destruct (exec_inv sched st0 Hinv0) as [Htok Hlen].
  rewrite Hcap in Hlen.
  pose proof (holders_le_tokens (threads (exec sched st0))) as Hh.
  unfold holders. lia.
Qed.

Lemma holders_never_exceed_capacity_witness :
  exists st,
    NewConcurrencyLimiter 1 (fresh <$> [PriorityNormal; PriorityLow; PriorityHigh]) = Some st /\
    holders (exec sched_preempt st) = 0 /\
    holders (exec admit0 st) = 1 /\
    (Z.of_nat (holders (exec admit0 st)) <= 1)%Z.
Proof.
  eexists. split; [reflexivity|]. split; [reflexivity|]. split; [reflexivity|].
  apply (holders_never_exceed_capacity 1 [PriorityNormal; PriorityLow; PriorityHigh]
           _ admit0 eq_refl).
Defined.

(** C1, as the code has it. Once the limiter is closed, a call of
    AcquireWithPriority (or Acquire) that obtains the mutex panics with
    the message of [msg_closed]: it returns nothing, enqueues nothing,
    takes no slot and releases the mutex on the way out; and the limiter
    stays closed whatever runs next. *)
Theorem acquire_after_close_panics (st : state) (t k : nat) (th : thread) :
  closed st = true -> mu st = None ->
  threads st !! t = Some th -> th_pc th = PEnter -> th_depth th = 0 ->
  exists st',
    step (Run t k) st = Some st' /\
    pc_of t st' = Some (PPanicked msg_closed) /\
    pq st' = pq st /\ sem_len st' = sem_len st /\ mu st' = None /\
    forall sched, closed (exec sched st') = true.
Proof.
  intros Hc Hmu Hl Hpc Hd. simpl. unfold step_thread.
  rewrite Hl, Hpc, Hmu, Hc. eexists. split; [reflexivity|].
  unfold pc_of; simpl. repeat split; try reflexivity.
  - rewrite list_lookup_insert_eq by (eapply lookup_lt_Some; eassumption).
    unfold unwind. rewrite Hd. reflexivity.
  - intros sched. apply closed_exec. reflexivity.
Qed.

(** C1 fails as stated: with capacity 1, goroutine 0 admitted and
    goroutine 1 blocked, Close leaves goroutine 1 blocked (it is woken,
    finds the semaphore still full and waits again) and goroutine 2,
    calling Acquire afterwards, is unwound by a panic. When goroutine 0
    later releases, goroutine 1 is unwound by the runtime panic of a send
    on the closed channel. No call reports the closure by returning. *)
Lemma acquire_after_close_counterexample :
  exists st,
    NewConcurrencyLimiter 1 (fresh <$> [PriorityNormal; PriorityNormal; PriorityNormal]) = Some st /\
    closed (exec sched_close st) = true /\
    pc_of 1 (exec sched_close st) = Some PParked /\
    pc_of 2 (exec sched_close st) = Some (PPanicked msg_closed) /\
    pc_of 1 (exec sched_drain (exec sched_close st)) = Some (PPanicked msg_send_closed).
Proof. eexists. repeat split; reflexivity. Qed.

(** C9, as the code has it. A caller whose popped task is not its own
    pushes the popped task back with heap.Push and calls
    AcquireWithPriority again for its own task, one frame deeper: the
    retry is a direct recursive call, with no loop and no bound. *)
Theorem preempted_caller_recurses (st : state) (t k : nat) (th : thread) (x : PriorityTask) :
  threads st !! t = Some th -> th_pc th = PCompare x -> task_ptr x <> t ->
  exists st',
    step (Run t k) st = Some st' /\
    pq st' = heap_Push (pq st) x /\
    threads st' !! t = Some (mkThread (th_prio th) (S (th_depth th)) PEnter).
Proof.
  intros Hl Hpc Hne. simpl. unfold step_thread. rewrite Hl, Hpc.
  apply Nat.eqb_neq in Hne. rewrite Hne. eexists. split; [reflexivity|].
  simpl. split; [reflexivity|].
  apply list_lookup_insert_eq. eapply lookup_lt_Some; eassumption.
Qed.

Lemma preempted_caller_recurses_witness :
  let st := exec sched_popped (three PriorityNormal PriorityLow PriorityHigh) in
  let x := mkTask 2 PriorityHigh (-1) in
  threads st !! 1 = Some (mkThread PriorityLow 0 (PCompare x)) /\
  exists st',
    step (Run 1 0) st = Some st' /\
    pq st' = heap_Push (pq st) x /\
    threads st' !! 1 = Some (mkThread PriorityLow 1 PEnter).
Proof.
  split; [reflexivity|].
  apply (preempted_caller_recurses
           (exec sched_popped (three PriorityNormal PriorityLow PriorityHigh))
           1 0 (mkThread PriorityLow 0 (PCompare (mkTask 2 PriorityHigh (-1))))
           (mkTask 2 PriorityHigh (-1)));
    [reflexivity|reflexivity|simpl; lia].
Defined.

(** C9 fails as stated: with capacity 1, goroutine 1 (low priority) is
    woken by the Release of goroutine 0 and pops the task of goroutine 2
    (high priority). It takes the free slot, pushes that task back and
    re-enters AcquireWithPriority while still holding the mutex. From
    there no step of any goroutine, nor Close, is enabled: the caller is
    not waiting in a loop, nobody holds the slot it consumed, and no
    schedule makes progress. *)
Lemma preempted_caller_counterexample :
  exists st,
    NewConcurrencyLimiter 1 (fresh <$> [PriorityNormal; PriorityLow; PriorityHigh]) = Some st /\
    threads (exec sched_preempt st) !! 1 = Some (mkThread PriorityLow 1 PEnter) /\
    mu (exec sched_preempt st) = Some 1 /\
    pc_of 2 (exec sched_preempt st) = Some PParked /\
    sem_len (exec sched_preempt st) = 1 /\
    holders (exec sched_preempt st) = 0 /\
    forall sched, exec sched (exec sched_preempt st) = exec sched_preempt st.
Proof.
  eexists. split; [reflexivity|]. repeat split; try reflexivity.
  induction sched as [|l sched IH]; [reflexivity|].
  cbn [exec]. replace (step l _) with (@None state); [exact IH|].
  destruct l as [[|[|[|t]]] k|]; reflexivity.
Qed.

Lemma acquire_after_close_panics_witness :
  let st := exec (admit0 ++ [CallClose]) (three PriorityNormal PriorityNormal PriorityNormal) in
  closed st = true /\ mu st = None /\
  threads st !! 1 = Some (fresh PriorityNormal) /\
  exists st',
    step (Run 1 0) st = Some st' /\
    pc_of 1 st' = Some (PPanicked msg_closed) /\
    pq st' = pq st /\ sem_len st' = sem_len st /\ mu st' = None /\
    forall sched, closed (exec sched st') = true.
Proof.
  split; [reflexivity|]. split; [reflexivity|]. split; [reflexivity|].
  apply (acquire_after_close_panics
           (exec (admit0 ++ [CallClose]) (three PriorityNormal PriorityNormal PriorityNormal))
           1 0 (fresh PriorityNormal)); reflexivity.
Defined.

End LimiterProofs.

(** ** Properties of the probe orchestrator *)

Module CheckerProofs.
Import Checker.
Local Open Scope Z_scope.

(** *** Backoff intervals *)

Lemma wrap64_small (z : Z) : - 2 ^ 63 <= z < 2 ^ 63 -> wrap64 z = z.
Proof.
  intros Hz. unfold wrap64.
  rewrite Z.mod_small; [lia|].
  change (2 ^ 64) with (2 ^ 63 + 2 ^ 63). lia.
Qed.

Lemma backoff_exact (i : Z) :
  0 <= i <= 36 -> backoff_at i = 100 * Millisecond * 2 ^ i.
Proof.
  intros Hi. unfold backoff_at, dur_mul, shl64, base.
  rewrite Z.shiftl_mul_pow2 by lia. rewrite Z.mul_1_l.
  assert (Hpow : 0 < 2 ^ i <= 2 ^ 36).
  { split; [apply Z.pow_pos_nonneg; lia|apply Z.pow_le_mono_r; lia]. }
  change (2 ^ 36) with 68719476736 in Hpow.
  rewrite (wrap64_small (2 ^ i)).
  - apply wrap64_small. unfold Millisecond.
    change (2 ^ 63) with 9223372036854775808. lia.
  - change (2 ^ 63) with 9223372036854775808. lia.
Qed.

Lemma backoff_in_range (i : Z) :
  0 <= i <= 36 -> 0 < backoff_at i <= maxDuration.
Proof.
  intros Hi. rewrite backoff_exact by assumption.
  assert (Hpow : 0 < 2 ^ i <= 2 ^ 36).
  { split; [apply Z.pow_pos_nonneg; lia|apply Z.pow_le_mono_r; lia]. }
  change (2 ^ 36) with 68719476736 in Hpow.
  unfold maxDuration, Millisecond. change (2 ^ 63) with 9223372036854775808. lia.
Qed.

Lemma make_backoff_lookup (n i : Z) :
  0 <= i < n -> make_backoff n !! Z.to_nat i = Some (backoff_at i).
Proof.
  intros Hi. unfold make_backoff.
  rewrite list_lookup_fmap, lookup_seq_lt by lia.
  simpl. rewrite Z2Nat.id by lia. reflexivity.
Qed.

Lemma make_backoff_length (n : Z) : length (make_backoff n) = Z.to_nat n.
Proof. unfold make_backoff. rewrite length_fmap, length_seq. reflexivity. Qed.

(** C8, as the code has it. The table built by CheckTarget holds, at every
    index [i] below maxRetry, the int64 product [base * (1 << i)]. For
    [i <= 36] that is the exact duration 100ms * 2^i, positive and within
    the range of Duration; nothing caps it. *)
Theorem backoff_table_uncapped (maxRetry i : Z) :
  0 <= i < maxRetry ->
  make_backoff maxRetry !! Z.to_nat i = Some (backoff_at i) /\
  backoff_at i = wrap64 (100 * Millisecond * wrap64 (2 ^ i)) /\
  (i <= 36 -> backoff_at i = 100 * Millisecond * 2 ^ i /\
              0 < backoff_at i <= maxDuration).
Proof.
  intros Hi. split; [apply make_backoff_lookup; assumption|]. split.
  - unfold backoff_at, dur_mul, shl64, base.
    rewrite Z.shiftl_mul_pow2 by lia. rewrite Z.mul_1_l. reflexivity.
  - intros Hle. split; [apply backoff_exact|apply backoff_in_range]; lia.
Qed.

Lemma backoff_table_uncapped_witness :
  0 <= 36 < 37 /\
  make_backoff 37 !! Z.to_nat 36 = Some (backoff_at 36) /\
  backoff_at 36 = wrap64 (100 * Millisecond * wrap64 (2 ^ 36)) /\
  (36 <= 36 -> backoff_at 36 = 100 * Millisecond * 2 ^ 36 /\
               0 < backoff_at 36 <= maxDuration).
Proof. split; [lia|]. apply (backoff_table_uncapped 37 36). lia. Defined.

(** C8 fails as stated: with maxRetry = 38 the last interval of the table,
    100ms * 2^37, exceeds the range of int64 and wraps to a negative
    duration; with maxRetry = 57 the interval at index 56 wraps to zero.
    No cap is applied. *)
Lemma backoff_overflow_counterexample :
  make_backoff 38 !! 37%nat = Some (-4702848726509551616) /\
  backoff_at 37 < 0 /\
  100 * Millisecond * 2 ^ 37 > maxDuration /\
  make_backoff 57 !! 56%nat = Some 0.
Proof. repeat split; vm_compute; reflexivity. Qed.

(** *** checkHTTP: classification *)

Lemma checkHTTP_answered (env : Env) (cfg : MonitorConfig) (url keyword : string)
      (result : MonitorResult) (w : World) (resp : Response) (full : string) :
  new_request env url = None ->
  http_do env (ops w) url = DoOK resp ->
  RespBody resp = BodyOK full ->
  err_of (checkHTTP env cfg url keyword result w) =
    (if keyword_missing cfg keyword full
     then Some ("响应体未找到关键词：" +:+ keyword)
     else if non_2xx (RespStatusCode resp)
          then Some ("HTTP状态码异常：" +:+ itoa (RespStatusCode resp))
          else None) /\
  kind_of (checkHTTP env cfg url keyword result w) =
    (if keyword_missing cfg keyword full then ErrorTypeKeyword
     else if non_2xx (RespStatusCode resp) then ErrorTypeHTTP else "").
Proof.
  intros Hreq Hdo Hbody. unfold checkHTTP, err_of, kind_of, keyword_missing, non_2xx.
  rewrite Hreq, Hdo, Hbody.
  destruct (negb (String.eqb keyword "") &&
            negb (Contains (limit_body (MaxBodySize cfg) full) keyword))%bool;
    [split; reflexivity|].
  destruct ((RespStatusCode resp <? 200) || (300 <=? RespStatusCode resp))%bool;
    split; reflexivity.
Qed.

(** C4, as the code has it. When the exchange completes (request built,
    response received, body read) with a non-2xx status code, the probe
    fails; its kind is [keyword] when a non-empty keyword is configured
    and the body read does not contain it, and [http] otherwise. The
    keyword check runs before the status check and does not look at the
    status code. *)
Theorem non_2xx_classification (env : Env) (cfg : MonitorConfig) (url keyword : string)
      (result : MonitorResult) (w : World) (resp : Response) (full : string) :
  new_request env url = None ->
  http_do env (ops w) url = DoOK resp ->
  RespBody resp = BodyOK full ->
  non_2xx (RespStatusCode resp) = true ->
  err_of (checkHTTP env cfg url keyword result w) <> None /\
  kind_of (checkHTTP env cfg url keyword result w) =
    (if keyword_missing cfg keyword full then ErrorTypeKeyword else ErrorTypeHTTP).
Proof.
  intros Hreq Hdo Hbody Hcode.
  destruct (checkHTTP_answered env cfg url keyword result w resp full Hreq Hdo Hbody)
    as [He Hk].
  rewrite He, Hk, Hcode. destruct (keyword_missing cfg keyword full); split;
    (discriminate || reflexivity).
Qed.

Lemma non_2xx_classification_witness :
  let resp := mkResponse 503 (BodyOK "status: ok, degraded") None in
  let out := checkHTTP (env_answering resp) (cfg_retry 3) "http://a.example" "ok"
               (blank "http://a.example" 0) w0 in
  non_2xx 503 = true /\
  keyword_missing (cfg_retry 3) "ok" "status: ok, degraded" = false /\
  err_of out <> None /\
  kind_of out = (if keyword_missing (cfg_retry 3) "ok" "status: ok, degraded"
                 then ErrorTypeKeyword else ErrorTypeHTTP).
Proof.
  split; [reflexivity|]. split; [reflexivity|].
  apply (non_2xx_classification
           (env_answering (mkResponse 503 (BodyOK "status: ok, degraded") None))
           (cfg_retry 3) "http://a.example" "ok" (blank "http://a.example" 0) w0
           (mkResponse 503 (BodyOK "status: ok, degraded") None)
           "status: ok, degraded"); reflexivity.
Defined.

(** C4 fails as stated: a 503 response whose body lacks the configured
    keyword is classified [keyword], not [http]. *)
Lemma non_2xx_classification_counterexample :
  let resp := mkResponse 503 (BodyOK "service unavailable") None in
  let out := checkHTTP (env_answering resp) (cfg_retry 3) "http://a.example" "ok"
               (blank "http://a.example" 0) w0 in
  non_2xx (RespStatusCode resp) = true /\
  kind_of out = ErrorTypeKeyword /\
  kind_of out <> ErrorTypeHTTP /\
  StatusCode (result_of out) = 503.
Proof. repeat split; try reflexivity. vm_compute. discriminate. Qed.

(** *** What a probe leaves alone *)

Ltac split_probe :=
  unfold probe, checkTCP, checkHTTP, err_of, kind_of, result_of, world_of, fail, ok;
  repeat match goal with
         | |- context [match ?x with _ => _ end] => destruct x
         end;
  simpl.

Lemma probe_cache env cfg target result w :
  cache (world_of (probe env cfg target result w)) = cache w.
Proof. split_probe; reflexivity. Qed.

Lemma probe_TargetURL env cfg target result w :
  TargetURL (result_of (probe env cfg target result w)) = TargetURL result.
Proof.
  split_probe; try reflexivity;
    unfold record_certificate;
    repeat match goal with
           | |- context [if ?x then _ else _] => destruct x
           end; reflexivity.
Qed.

Lemma probe_trace env cfg target result w :
  exists evs, trace (world_of (probe env cfg target result w)) = trace w ++ evs /\
              List.filter is_pacing evs = [].
Proof.
  split_probe;
    first [ exists []; split; [symmetry; apply app_nil_r|reflexivity]
          | eexists; split; [reflexivity|reflexivity] ].
Qed.

Lemma probe_pacing env cfg target result w :
  pacing (world_of (probe env cfg target result w)) = pacing w.
Proof.
  destruct (probe_trace env cfg target result w) as (evs & Ht & Hp).
  unfold pacing. rewrite Ht, List.filter_app, Hp. apply app_nil_r.
Qed.

Lemma probe_kind env cfg target result w :
  err_of (probe env cfg target result w) <> None ->
  kind_of (probe env cfg target result w) <> "".
Proof. split_probe; intros H; (discriminate || (exfalso; apply H; reflexivity)). Qed.

(** *** The retry loop *)

Lemma retry_loop_cache env cfg target backoff n retry result w :
  cache (retry_loop env cfg target backoff n retry result w).2 = cache w.
Proof.
  revert retry result w. induction n as [|n IH]; intros retry result w; [reflexivity|].
  cbn [retry_loop].
  pose proof (probe_cache env cfg target result (log (EvAttempt retry) w)) as Hc.
  unfold world_of in Hc.
  destruct (probe env cfg target result (log (EvAttempt retry) w)) as [[err r1] w1].
  simpl in Hc. destruct (err.1); [|exact Hc].
  destruct (retry =? MaxRetry cfg - 1); rewrite IH; simpl; exact Hc.
Qed.

Lemma retry_loop_TargetURL env cfg target backoff n retry result w :
  TargetURL (retry_loop env cfg target backoff n retry result w).1 = TargetURL result.
Proof.
  revert retry result w. induction n as [|n IH]; intros retry result w; [reflexivity|].
  cbn [retry_loop].
  pose proof (probe_TargetURL env cfg target result (log (EvAttempt retry) w)) as Hc.
  unfold result_of in Hc.
  destruct (probe env cfg target result (log (EvAttempt retry) w)) as [[err r1] w1].
  simpl in Hc. destruct (err.1); [|exact Hc].
  destruct (retry =? MaxRetry cfg - 1); rewrite IH; simpl; exact Hc.
Qed.

Lemma retry_loop_trace env cfg target backoff n retry result w :
  exists evs, trace (retry_loop env cfg target backoff n retry result w).2 = trace w ++ evs.
Proof.
  revert retry result w. induction n as [|n IH]; intros retry result w.
  - exists []. symmetry. apply app_nil_r.
  - cbn [retry_loop].
    destruct (probe_trace env cfg target result (log (EvAttempt retry) w)) as (e1 & Ht & _).
    unfold world_of in Ht.
    destruct (probe env cfg target result (log (EvAttempt retry) w)) as [[err r1] w1].
    simpl in Ht. destruct (err.1).
    + destruct (retry =? MaxRetry cfg - 1).
      * destruct (IH (retry + 1) (set_outcome (set_ResponseTime r1
                   (Milliseconds (time_sub (now w1) (now (log (EvAttempt retry) w)))))
                   "failed" s err.2) w1) as (e2 & He2).
        rewrite He2, Ht. simpl. eexists. rewrite <- !app_assoc. reflexivity.
      * match goal with
        | |- context [retry_loop _ _ _ _ _ _ ?r ?w'] =>
            destruct (IH (retry + 1) r w') as (e2 & He2)
        end.
        rewrite He2. simpl. rewrite Ht. simpl.
        eexists. rewrite <- !app_assoc. reflexivity.
    + simpl. rewrite Ht. simpl. eexists. rewrite <- !app_assoc. reflexivity.
Qed.

Lemma retry_loop_first_attempt env cfg target backoff n retry result w :
  exists rest,
    trace (retry_loop env cfg target backoff (S n) retry result w).2 =
    trace w ++ EvAttempt retry :: rest.
Proof.
  cbn [retry_loop].
  destruct (probe_trace env cfg target result (log (EvAttempt retry) w)) as (e1 & Ht & _).
  unfold world_of in Ht.
  destruct (probe env cfg target result (log (EvAttempt retry) w)) as [[err r1] w1].
  simpl in Ht. destruct (err.1).
  - destruct (retry =? MaxRetry cfg - 1);
      match goal with
      | |- context [retry_loop _ _ _ _ ?m ?i ?r ?w'] =>
          destruct (retry_loop_trace env cfg target backoff m i r w') as (e2 & He2)
      end; rewrite He2; simpl; rewrite Ht; simpl;
      eexists; rewrite <- !app_assoc; simpl; reflexivity.
  - simpl. rewrite Ht. eexists. rewrite <- !app_assoc. simpl. reflexivity.
Qed.

(** One iteration of the loop. *)
Lemma retry_loop_S env cfg target backoff (n : nat) retry result w :
  retry_loop env cfg target backoff (S n) retry result w =
  let w0 := log (EvAttempt retry) w in
  let '(err, r1, w1) := probe env cfg target result w0 in
  let r1' := set_ResponseTime r1 (Milliseconds (time_sub (now w1) (now w0))) in
  match fst err with
  | None => (set_outcome r1' "success" "" "", w1)
  | Some msg =>
      if retry =? MaxRetry cfg - 1
      then retry_loop env cfg target backoff n (retry + 1)
             (set_outcome r1' "failed" msg (snd err)) w1
      else retry_loop env cfg target backoff n (retry + 1) r1'
             (Sleep (default 0 (backoff !! Z.to_nat retry)) w1)
  end.
Proof. reflexivity. Qed.

Lemma probe_ops env cfg target result w :
  (ops w <= ops (world_of (probe env cfg target result w)))%nat.
Proof. split_probe; lia. Qed.

Lemma retry_loop_ops env cfg target backoff n retry result w :
  (ops w <= ops (retry_loop env cfg target backoff n retry result w).2)%nat.
Proof.
  revert retry result w. induction n as [|n IH]; intros retry result w; [simpl; lia|].
  rewrite retry_loop_S. cbn zeta.
  pose proof (probe_ops env cfg target result (log (EvAttempt retry) w)) as Hp.
  unfold world_of in Hp.
  destruct (probe env cfg target result (log (EvAttempt retry) w)) as [[err r1] w1].
  cbn [fst snd] in *. change (ops (log (EvAttempt retry) w)) with (ops w) in Hp.
  destruct (err.1); [|simpl; exact Hp].
  destruct (retry =? MaxRetry cfg - 1).
  - etransitivity; [exact Hp|]. apply IH.
  - etransitivity; [exact Hp|].
    match goal with
    | |- context [retry_loop _ _ _ _ _ _ ?r (Sleep ?d w1)] =>
        change (ops w1) with (ops (Sleep d w1))
    end.
    apply IH.
Qed.

(** The probe of an HTTP target whose request can be built sends it. *)
Lemma probe_sends_request env cfg target result w :
  HasPrefix (ToLower (URL target)) "tcp://" = false ->
  new_request env (URL target) = None ->
  trace (world_of (probe env cfg target result w)) = trace w ++ [EvGet (URL target)] /\
  ops (world_of (probe env cfg target result w)) = S (ops w).
Proof.
  intros Hhttp Hreq. unfold probe. rewrite Hhttp. unfold checkHTTP, world_of.
  rewrite Hreq.
  repeat match goal with
         | |- context [match ?x with _ => _ end] => destruct x
         end; split; reflexivity.
Qed.

(** *** The result cache *)

Lemma CheckTarget_hit env cfg target w r :
  cache w !! URL target = Some r ->
  time_sub (now w) (CheckedAt r) <= CacheTTL cfg ->
  CheckTarget env cfg target w = Some (r, w).
Proof.
  intros Hl Hage. unfold CheckTarget, GetCachedResult. rewrite Hl.
  destruct (CacheTTL cfg <? time_sub (now w) (CheckedAt r)) eqn:Hlt; [|reflexivity].
  apply Z.ltb_lt in Hlt. lia.
Qed.

Lemma CheckTarget_miss env cfg target w :
  GetCachedResult cfg (URL target) w = None ->
  0 < MaxRetry cfg ->
  fresh_check env cfg target w.
Proof.
  intros Hmiss Hpos. unfold fresh_check, CheckTarget. cbn zeta. rewrite Hmiss.
  destruct (MaxRetry cfg <? 0) eqn:Hneg; [apply Z.ltb_lt in Hneg; lia|].
  change (mkResult (URL target) "" 0 0 "" false "" "" "" (now w))
    with (blank (URL target) (now w)).
  set (r0 := blank (URL target) (now w)).
  destruct (Z.to_nat (MaxRetry cfg)) as [|n] eqn:Hn; [lia|].
  pose proof (retry_loop_cache env cfg target (make_backoff (MaxRetry cfg)) (S n) 0 r0 w) as Hc.
  pose proof (retry_loop_TargetURL env cfg target (make_backoff (MaxRetry cfg)) (S n) 0 r0 w) as Hu.
  rewrite retry_loop_S in Hc, Hu |- *. cbn zeta in Hc, Hu |- *.
  unfold err_of, result_of, world_of.
  destruct (probe env cfg target r0 (log (EvAttempt 0) w)) as [[err r1] w1].
  cbn [fst snd] in Hc, Hu |- *.
  destruct (err.1) as [msg|].
  - destruct (0 =? MaxRetry cfg - 1);
      match goal with
      | |- context [retry_loop _ _ _ ?b n ?i ?r ?w2] =>
          destruct (retry_loop_trace env cfg target b n i r w2) as (e2 & He2);
          pose proof (retry_loop_ops env cfg target b n i r w2) as Hops;
          destruct (retry_loop env cfg target b n i r w2) as [r' w']
      end;
      cbn [fst snd] in Hc, Hu, He2, Hops; simpl trace in He2; simpl ops in Hops;
      eexists r', (updateCache r' w'), _;
      (split; [reflexivity|]);
      (split; [simpl; rewrite He2, <- ?app_assoc; reflexivity|]);
      (split; [simpl; exact Hops|]);
      (split; [intros H; discriminate H|]);
      unfold updateCache; simpl; rewrite Hc, Hu; split; reflexivity.
  - eexists _, _, []. split; [reflexivity|].
    split; [simpl; symmetry; apply app_nil_r|]. split; [simpl; lia|].
    split; [intros _; split; reflexivity|].
    simpl in Hc, Hu. unfold updateCache; simpl. rewrite Hc, Hu. split; reflexivity.
Qed.

(** With at least one attempt configured: when the cache holds a result
    for the URL that is at most [cacheTTL] old, CheckTarget returns it and
    leaves the world as it is (no attempt, no network operation, no cache
    write, no time spent); when the entry is older, or there is none,
    CheckTarget runs the probe and stores its final result under the URL,
    replacing the previous entry. *)
Lemma cache_hit_or_fresh_check env cfg target w :
  0 < MaxRetry cfg ->
  match cache w !! URL target with
  | Some r =>
      if time_sub (now w) (CheckedAt r) <=? CacheTTL cfg
      then CheckTarget env cfg target w = Some (r, w)
      else fresh_check env cfg target w
  | None => fresh_check env cfg target w
  end.
Proof.
  intros Hpos. destruct (cache w !! URL target) as [r|] eqn:Hl.
  - destruct (time_sub (now w) (CheckedAt r) <=? CacheTTL cfg) eqn:Hage.
    + apply Z.leb_le in Hage. apply CheckTarget_hit; assumption.
    + apply Z.leb_gt in Hage. apply CheckTarget_miss; [|assumption].
      unfold GetCachedResult. rewrite Hl.
      destruct (CacheTTL cfg <? time_sub (now w) (CheckedAt r)) eqn:Hlt; [reflexivity|].
      apply Z.ltb_ge in Hlt. lia.
  - apply CheckTarget_miss; [|assumption].
    unfold GetCachedResult. rewrite Hl. reflexivity.
Qed.

Lemma cache_hit_or_fresh_check_witness :
  let url := "http://a.example" in
  0 < MaxRetry (cfg_retry 3) /\
  CheckTarget env_refusing (cfg_retry 3) (target_of url) (w_cached url (30 * Second))
    = Some (cached_result url, w_cached url (30 * Second)) /\
  fresh_check env_refusing (cfg_retry 3) (target_of url) (w_cached url (30 * Second + 1)).
Proof.
  split; [reflexivity|]. split.
  - exact (cache_hit_or_fresh_check env_refusing (cfg_retry 3)
             (target_of "http://a.example") (w_cached "http://a.example" (30 * Second))
             eq_refl).
  - exact (cache_hit_or_fresh_check env_refusing (cfg_retry 3)
             (target_of "http://a.example") (w_cached "http://a.example" (30 * Second + 1))
             eq_refl).
Defined.

(** A fresh check of an HTTP target whose request can be built contacts
    the server: the first thing it does after marking attempt 0 is to
    send the request. *)
Lemma fresh_check_sends_request env cfg target w :
  HasPrefix (ToLower (URL target)) "tcp://" = false ->
  new_request env (URL target) = None ->
  fresh_check env cfg target w ->
  exists r' w' rest,
    CheckTarget env cfg target w = Some (r', w') /\
    trace w' = trace w ++ EvAttempt 0 :: EvGet (URL target) :: rest /\
    (ops w < ops w')%nat /\
    cache w' !! URL target = Some r'.
Proof.
  intros Hhttp Hreq (r' & w' & rest & Hc & Ht & Hops & _ & _ & Hcache).
  destruct (probe_sends_request env cfg target (blank (URL target) (now w))
              (log (EvAttempt 0) w) Hhttp Hreq) as [Ht' Hops'].
  rewrite Ht' in Ht. rewrite Hops' in Hops. simpl in Ht, Hops.
  exists r', w', rest. split; [exact Hc|]. split.
  - rewrite Ht, <- !app_assoc. reflexivity.
  - split; [lia|]. rewrite Hcache. apply lookup_insert_eq.
Qed.

(** C3 does not hold for maxRetry = 0. A call made after the TTL has
    elapsed misses the cache, yet the retry loop runs no iteration:
    nothing is probed, not even an attempt is marked, and the blank
    result, its status empty, replaces the cached success. The same call
    with maxRetry = 1 marks attempt 0, sends the request and stores the
    answer. *)
Lemma zero_retry_skips_the_probe :
  let url := "http://a.example" in
  let env := env_answering (mkResponse 200 (BodyOK "ok") None) in
  let w := w_cached url (30 * Second + 1) in
  GetCachedResult (cfg_retry 0) url w = None /\
  (exists r w',
     CheckTarget env (cfg_retry 0) (target_of url) w = Some (r, w') /\
     trace w' = [] /\ ops w' = ops w /\
     r = blank url (now w) /\ Status r = "" /\
     cache w !! url = Some (cached_result url) /\
     cache w' !! url = Some r) /\
  (exists r w',
     CheckTarget env (cfg_retry 1) (target_of url) w = Some (r, w') /\
     trace w' = [EvAttempt 0; EvGet url] /\ ops w' = S (ops w) /\
     Status r = "success" /\ StatusCode r = 200 /\
     cache w' !! url = Some r).
Proof.
  split; [reflexivity|]. split.
  - eexists _, _. split; [reflexivity|]. repeat split; vm_compute; reflexivity.
  - eexists _, _. split; [vm_compute; reflexivity|]. repeat split; vm_compute; reflexivity.
Qed.

(** *** Status and error kind *)

Lemma retry_loop_outcome env cfg target backoff n retry result w :
  Z.of_nat (S n) = MaxRetry cfg - retry ->
  let r := (retry_loop env cfg target backoff (S n) retry result w).1 in
  (Status r = "success" /\ ErrorMsg r = "" /\ ErrorType r = "") \/
  (Status r = "failed" /\ ErrorType r <> "").
Proof.
  revert retry result w. induction n as [|n IH]; intros retry result w Hn.
  - cbn [retry_loop].
    pose proof (probe_kind env cfg target result (log (EvAttempt retry) w)) as Hk.
    unfold err_of, kind_of in Hk.
    destruct (probe env cfg target result (log (EvAttempt retry) w)) as [[err r1] w1].
    simpl in Hk. destruct (err.1) eqn:He; [|left; repeat split].
    replace (retry =? MaxRetry cfg - 1) with true by (symmetry; apply Z.eqb_eq; lia).
    right. simpl. split; [reflexivity|]. apply Hk. discriminate.
  - cbn [retry_loop].
    destruct (probe env cfg target result (log (EvAttempt retry) w)) as [[err r1] w1].
    destruct (err.1) eqn:He; [|left; repeat split].
    replace (retry =? MaxRetry cfg - 1) with false by (symmetry; apply Z.eqb_neq; lia).
    apply IH. lia.
Qed.

(** With at least one attempt configured, a fresh check ends with status
    success and no error kind, or with status failed and a kind. *)
Lemma error_kind_iff_success env cfg target w r w' :
  0 < MaxRetry cfg ->
  GetCachedResult cfg (URL target) w = None ->
  CheckTarget env cfg target w = Some (r, w') ->
  (ErrorType r = "" <-> Status r = "success").
Proof.
  intros Hpos Hmiss. unfold CheckTarget. rewrite Hmiss.
  destruct (MaxRetry cfg <? 0) eqn:Hneg; [discriminate|].
  destruct (Z.to_nat (MaxRetry cfg)) as [|n] eqn:Hn; [lia|].
  set (r0 := mkResult (URL target) "" 0 0 "" false "" "" "" (now w)).
  pose proof (retry_loop_outcome env cfg target (make_backoff (MaxRetry cfg)) n 0 r0 w) as Ho.
  destruct (retry_loop env cfg target (make_backoff (MaxRetry cfg)) (S n) 0 r0 w)
    as [r1 w1].
  intros [= <- <-]. simpl in Ho.
  destruct Ho as [(Hs & _ & Hk)|(Hs & Hk)]; [lia| |].
  - rewrite Hs, Hk. tauto.
  - rewrite Hs. split; [tauto|discriminate].
Qed.

(** C5 does not hold for maxRetry = 0: the retry loop runs no iteration,
    so CheckTarget returns, and caches, a result whose status is still
    the empty string although its error kind is empty, without a single
    attempt. *)
Lemma zero_retry_leaves_status_empty :
  exists r w',
    CheckTarget env_refusing (cfg_retry 0) (target_of "http://a.example") w0 = Some (r, w') /\
    ErrorType r = "" /\ Status r = "" /\ Status r <> "success" /\
    trace w' = [] /\
    cache w' !! "http://a.example" = Some r.
Proof.
  eexists _, _. split; [reflexivity|].
  repeat split; try reflexivity. discriminate.
Qed.

(** *** Pacing of a failing check *)

Lemma retry_loop_failing_pacing env cfg target n retry result w :
  always_fails env cfg target ->
  0 <= retry ->
  Z.of_nat n = MaxRetry cfg - retry ->
  pacing (retry_loop env cfg target (make_backoff (MaxRetry cfg)) n retry result w).2 =
  pacing w ++ failing_pacing n retry.
Proof.
  intros Hfail. revert retry result w.
  induction n as [|n IH]; intros retry result w Hr Hn.
  - simpl. symmetry. apply app_nil_r.
  - cbn [retry_loop].
    pose proof (Hfail result (log (EvAttempt retry) w)) as He.
    pose proof (probe_pacing env cfg target result (log (EvAttempt retry) w)) as Hp.
    unfold err_of, world_of in He, Hp.
    destruct (probe env cfg target result (log (EvAttempt retry) w)) as [[err r1] w1].
    simpl in He, Hp. destruct (err.1) as [msg|]; [|congruence].
    assert (Hlog : pacing (log (EvAttempt retry) w) = pacing w ++ [EvAttempt retry]).
    { unfold pacing, log; simpl. rewrite List.filter_app. reflexivity. }
    destruct n as [|n].
    + replace (retry =? MaxRetry cfg - 1) with true by (symmetry; apply Z.eqb_eq; lia).
      simpl. rewrite Hp, Hlog. reflexivity.
    + replace (retry =? MaxRetry cfg - 1) with false by (symmetry; apply Z.eqb_neq; lia).
      rewrite IH by lia.
      rewrite make_backoff_lookup by lia. simpl default.
      unfold pacing at 1, Sleep; simpl trace. rewrite List.filter_app.
      fold (pacing w1). rewrite Hp, Hlog. simpl. rewrite <- !app_assoc. reflexivity.
Qed.

Lemma retry_loop_failing_status env cfg target backoff n retry result w :
  always_fails env cfg target ->
  Z.of_nat (S n) = MaxRetry cfg - retry ->
  Status (retry_loop env cfg target backoff (S n) retry result w).1 = "failed".
Proof.
  intros Hfail. revert retry result w.
  induction n as [|n IH]; intros retry r1 w1 Hn; cbn [retry_loop];
    pose proof (Hfail r1 (log (EvAttempt retry) w1)) as He; unfold err_of in He;
    destruct (probe env cfg target r1 (log (EvAttempt retry) w1)) as [[err r2] w2];
    simpl in He; (destruct (err.1) as [msg|]; [|congruence]).
  - replace (retry =? MaxRetry cfg - 1) with true by (symmetry; apply Z.eqb_eq; lia).
    reflexivity.
  - replace (retry =? MaxRetry cfg - 1) with false by (symmetry; apply Z.eqb_neq; lia).
    apply IH. lia.
Qed.

(** Where the attempts and the sleeps of a failing check stand. *)
Lemma failing_pacing_length (n : nat) (retry : Z) :
  length (failing_pacing n retry) = (2 * n - 1)%nat.
Proof.
  revert retry. induction n as [|n IH]; intros retry; [reflexivity|].
  destruct n as [|n]; [reflexivity|].
  change (failing_pacing (S (S n)) retry)
    with (EvAttempt retry :: EvSleep (backoff_at retry) :: failing_pacing (S n) (retry + 1)).
  cbn [length]. rewrite IH. lia.
Qed.

Lemma failing_pacing_lookup (n : nat) (retry : Z) (k : nat) :
  (k < n)%nat ->
  failing_pacing n retry !! (2 * k)%nat = Some (EvAttempt (retry + Z.of_nat k)) /\
  ((S k < n)%nat ->
   failing_pacing n retry !! (2 * k + 1)%nat =
     Some (EvSleep (backoff_at (retry + Z.of_nat k)))).
Proof.
  revert retry k. induction n as [|n IH]; intros retry k Hk; [lia|].
  destruct k as [|k].
  - simpl. rewrite Z.add_0_r. split; [reflexivity|]. intros Hn.
    destruct n as [|n]; [lia|]. reflexivity.
  - destruct n as [|n]; [lia|].
    change (failing_pacing (S (S n)) retry)
      with (EvAttempt retry :: EvSleep (backoff_at retry) :: failing_pacing (S n) (retry + 1)).
    replace (2 * S k)%nat with (S (S (2 * k))) by lia.
    replace (S (S (2 * k)) + 1)%nat with (S (S (2 * k + 1))) by lia.
    cbn [lookup list_lookup].
    destruct (IH (retry + 1) k ltac:(lia)) as [Ha Hs].
    replace (retry + Z.of_nat (S k)) with (retry + 1 + Z.of_nat k) by lia.
    split; [exact Ha|]. intros Hn. apply Hs. lia.
Qed.

Lemma backoff_int64 (i : Z) :
  0 <= i -> backoff_at i = wrap64 (100 * Millisecond * wrap64 (2 ^ i)).
Proof.
  intros Hi. unfold backoff_at, dur_mul, shl64, base.
  rewrite Z.shiftl_mul_pow2 by lia. rewrite Z.mul_1_l. reflexivity.
Qed.

(** C2, as the code has it. A target whose probe fails at every attempt,
    checked with maxRetry = 3 on a cache miss, gets exactly the attempts
    0, 1, 2, with a sleep of 100ms after the first and of 200ms after the
    second, none before the first and none after the last, and ends
    failed. For any maxRetry >= 0 attempt [i] stands at position [2 i] of
    the pacing and, unless it is the last, is followed by one sleep of
    [backoff_at i], the int64 product [base * (1 << i)]: that is
    100ms * 2^i for [i <= 36], and the wrapped product beyond. *)
Theorem failing_target_pacing env cfg target w :
  always_fails env cfg target ->
  GetCachedResult cfg (URL target) w = None ->
  0 <= MaxRetry cfg ->
  exists r w',
    CheckTarget env cfg target w = Some (r, w') /\
    (0 < MaxRetry cfg -> Status r = "failed") /\
    pacing w' = pacing w ++ failing_pacing (Z.to_nat (MaxRetry cfg)) 0 /\
    (MaxRetry cfg = 3 ->
     pacing w' = pacing w ++ [EvAttempt 0; EvSleep (100 * Millisecond);
                              EvAttempt 1; EvSleep (200 * Millisecond);
                              EvAttempt 2]) /\
    (forall i, 0 <= i <= 36 -> backoff_at i = 100 * Millisecond * 2 ^ i) /\
    (forall i, 0 <= i -> backoff_at i = wrap64 (100 * Millisecond * wrap64 (2 ^ i))) /\
    length (failing_pacing (Z.to_nat (MaxRetry cfg)) 0) =
      (2 * Z.to_nat (MaxRetry cfg) - 1)%nat /\
    (forall i, 0 <= i < MaxRetry cfg ->
       failing_pacing (Z.to_nat (MaxRetry cfg)) 0 !! (2 * Z.to_nat i)%nat =
         Some (EvAttempt i) /\
       (i < MaxRetry cfg - 1 ->
        failing_pacing (Z.to_nat (MaxRetry cfg)) 0 !! (2 * Z.to_nat i + 1)%nat =
          Some (EvSleep (backoff_at i)))).
Proof.
  intros Hfail Hmiss Hpos.
  pose proof (retry_loop_failing_pacing env cfg target (Z.to_nat (MaxRetry cfg)) 0
                (mkResult (URL target) "" 0 0 "" false "" "" "" (now w)) w Hfail) as Hp.
  assert (Hlook : forall i, 0 <= i < MaxRetry cfg ->
       failing_pacing (Z.to_nat (MaxRetry cfg)) 0 !! (2 * Z.to_nat i)%nat =
         Some (EvAttempt i) /\
       (i < MaxRetry cfg - 1 ->
        failing_pacing (Z.to_nat (MaxRetry cfg)) 0 !! (2 * Z.to_nat i + 1)%nat =
          Some (EvSleep (backoff_at i)))).
  { intros i Hi.
    destruct (failing_pacing_lookup (Z.to_nat (MaxRetry cfg)) 0 (Z.to_nat i) ltac:(lia))
      as [Ha Hs].
    rewrite Z.add_0_l, Z2Nat.id in Ha, Hs by lia.
    split; [exact Ha|]. intros Hlt. apply Hs. lia. }
  pose proof (failing_pacing_length (Z.to_nat (MaxRetry cfg)) 0) as Hlen.
  unfold CheckTarget. rewrite Hmiss.
  destruct (MaxRetry cfg <? 0) eqn:Hneg; [apply Z.ltb_lt in Hneg; lia|].
  destruct (Z.to_nat (MaxRetry cfg)) as [|n] eqn:Hn.
  - (* no attempt configured: the loop does not run *)
    exists (mkResult (URL target) "" 0 0 "" false "" "" "" (now w)),
      (updateCache (mkResult (URL target) "" 0 0 "" false "" "" "" (now w)) w).
    split; [reflexivity|]. split; [lia|].
    split; [unfold pacing, updateCache; simpl; symmetry; apply app_nil_r|].
    split; [intros H3; rewrite H3 in Hn; discriminate Hn|].
    split; [apply backoff_exact|]. split; [apply backoff_int64|].
    split; [exact Hlen|exact Hlook].
  - pose proof (retry_loop_failing_status env cfg target (make_backoff (MaxRetry cfg)) n 0
                  (mkResult (URL target) "" 0 0 "" false "" "" "" (now w)) w Hfail) as Hsucc.
    destruct (retry_loop env cfg target (make_backoff (MaxRetry cfg)) (S n) 0
                (mkResult (URL target) "" 0 0 "" false "" "" "" (now w)) w) as [r1 w1].
    simpl in Hsucc, Hp.
    exists r1, (updateCache r1 w1). split; [reflexivity|].
    split; [intros _; apply Hsucc; lia|].
    assert (Hpace : pacing (updateCache r1 w1) = pacing w ++ failing_pacing (S n) 0).
    { unfold pacing, updateCache; simpl. apply Hp; lia. }
    split; [exact Hpace|]. split; [|split; [|split; [|split]]].
    + intros H3. rewrite Hpace. rewrite H3 in Hn.
      change (Z.to_nat 3) with 3%nat in Hn. injection Hn as <-. reflexivity.
    + apply backoff_exact.
    + apply backoff_int64.
    + exact Hlen.
    + exact Hlook.
Qed.

Lemma failing_target_pacing_witness :
  let target := target_of "http://a.example" in
  always_fails env_refusing (cfg_retry 3) target /\
  GetCachedResult (cfg_retry 3) (URL target) w0 = None /\
  0 <= MaxRetry (cfg_retry 3) /\
  exists r w',
    CheckTarget env_refusing (cfg_retry 3) target w0 = Some (r, w') /\
    (0 < MaxRetry (cfg_retry 3) -> Status r = "failed") /\
    pacing w' = pacing w0 ++ failing_pacing (Z.to_nat (MaxRetry (cfg_retry 3))) 0 /\
    (MaxRetry (cfg_retry 3) = 3 ->
     pacing w' = pacing w0 ++ [EvAttempt 0; EvSleep (100 * Millisecond);
                               EvAttempt 1; EvSleep (200 * Millisecond);
                               EvAttempt 2]) /\
    (forall i, 0 <= i <= 36 -> backoff_at i = 100 * Millisecond * 2 ^ i) /\
    (forall i, 0 <= i -> backoff_at i = wrap64 (100 * Millisecond * wrap64 (2 ^ i))) /\
    length (failing_pacing (Z.to_nat (MaxRetry (cfg_retry 3))) 0) =
      (2 * Z.to_nat (MaxRetry (cfg_retry 3)) - 1)%nat /\
    (forall i, 0 <= i < MaxRetry (cfg_retry 3) ->
       failing_pacing (Z.to_nat (MaxRetry (cfg_retry 3))) 0 !! (2 * Z.to_nat i)%nat =
         Some (EvAttempt i) /\
       (i < MaxRetry (cfg_retry 3) - 1 ->
        failing_pacing (Z.to_nat (MaxRetry (cfg_retry 3))) 0 !! (2 * Z.to_nat i + 1)%nat =
          Some (EvSleep (backoff_at i)))).
Proof.
  assert (Hfail : always_fails env_refusing (cfg_retry 3) (target_of "http://a.example")).
  { intros result w. vm_compute. discriminate. }
  split; [exact Hfail|]. split; [reflexivity|]. split; [discriminate|].
  exact (failing_target_pacing env_refusing (cfg_retry 3) (target_of "http://a.example")
           w0 Hfail eq_refl ltac:(discriminate)).
Defined.

(** C2 fails as stated: with maxRetry = 39 and a target that always
    fails, attempt 37, which is not the last, is followed by a sleep of
    -4702848726509551616ns, the int64 product wrapped around, and not of
    100ms * 2^37. *)
Lemma failing_target_pacing_counterexample :
  let target := target_of "http://a.example" in
  always_fails env_refusing (cfg_retry 39) target /\
  exists r w',
    CheckTarget env_refusing (cfg_retry 39) target w0 = Some (r, w') /\
    pacing w' !! 74%nat = Some (EvAttempt 37) /\
    pacing w' !! 75%nat = Some (EvSleep (-4702848726509551616)) /\
    pacing w' !! 76%nat = Some (EvAttempt 38) /\
    -4702848726509551616 <> 100 * Millisecond * 2 ^ 37.
Proof.
  split; [intros result w; vm_compute; discriminate|].
  destruct (CheckTarget env_refusing (cfg_retry 39) (target_of "http://a.example") w0)
    as [[r w']|] eqn:Hc; [|vm_compute in Hc; discriminate Hc].
  exists r, w'. split; [reflexivity|].
  vm_compute in Hc. injection Hc as <- <-.
  repeat split; try (vm_compute; reflexivity). vm_compute. discriminate.
Qed.

(** *** Mixed-case tcp:// URLs *)

Lemma lower_ascii_inv (c x : ascii) :
  lower_ascii c = x ->
  (x = "t" -> c = "t" \/ c = "T")%char /\
  (x = "c" -> c = "c" \/ c = "C")%char /\
  (x = "p" -> c = "p" \/ c = "P")%char /\
  (x = ":" -> c = ":")%char /\
  (x = "/" -> c = "/")%char.
Proof.
  intros <-.
  destruct c as [[] [] [] [] [] [] [] []]; vm_compute;
    repeat split; intros H; try discriminate H; auto.
Qed.

Lemma substring_all (s : string) : String.substring 0 (String.length s) s = s.
Proof. induction s as [|c s IH]; simpl; [reflexivity|]. rewrite IH. reflexivity. Qed.

Lemma LookupPort_slashes (env : Env) (s : string) :
  (forall p, HasPrefix p "//" = true -> services env p = None) ->
  LookupPort env (String "/" (String "/" s)) = None.
Proof.
  intros Hs. unfold LookupPort. simpl parsePort. rewrite Hs; [reflexivity|].
  unfold HasPrefix. simpl. destruct s; reflexivity.
Qed.

Lemma SplitHostPort_scheme (c0 c1 c2 : ascii) (rest : string) :
  (c0 = "t" \/ c0 = "T")%char -> (c1 = "c" \/ c1 = "C")%char -> (c2 = "p" \/ c2 = "P")%char ->
  let url := String c0 (String c1 (String c2 (String ":" (String "/" (String "/" rest))))) in
  (exists why, SplitHostPort url = inr why) \/
  (exists host, SplitHostPort url = inl (host, String "/" (String "/" rest))).
Proof.
  intros H0 H1 H2 url. subst url. unfold SplitHostPort.
  cbn [LastIndexByte].
  destruct (LastIndexByte rest ":") as [i|] eqn:Hlast.
  - left. destruct H0 as [-> | ->], H1 as [-> | ->], H2 as [-> | ->];
      cbn; eexists; reflexivity.
  - destruct H0 as [-> | ->], H1 as [-> | ->], H2 as [-> | ->]; cbn;
      rewrite substring_all;
      destruct (IndexByte rest "["); cbn; eauto;
      destruct (IndexByte rest "]"); cbn; eauto.
Qed.

Lemma checkTCP_mixed_case env cfg url result w :
  HasPrefix (ToLower url) "tcp://" = true ->
  HasPrefix url "tcp://" = false ->
  (forall p, HasPrefix p "//" = true -> services env p = None) ->
  exists msg, checkTCP env cfg url result w = (fail msg ErrorTypeInvalid, result, w).
Proof.
  intros Hlow Hexact Hserv.
  unfold HasPrefix in Hlow.
  destruct url as [|c0 [|c1 [|c2 [|c3 [|c4 [|c5 rest]]]]]]; simpl in Hlow;
  repeat match type of Hlow with
         | (if ?d then _ else _) = true => destruct d as [?E|]; [|discriminate Hlow]
         end; try discriminate Hlow.
  clear Hlow.
  symmetry in E, E0, E1, E2, E3, E4.
  destruct (lower_ascii_inv _ _ E) as (H0 & _).
  destruct (lower_ascii_inv _ _ E0) as (_ & H1 & _).
  destruct (lower_ascii_inv _ _ E1) as (_ & _ & H2 & _).
  destruct (lower_ascii_inv _ _ E2) as (_ & _ & _ & H3 & _).
  destruct (lower_ascii_inv _ _ E3) as (_ & _ & _ & _ & H4).
  destruct (lower_ascii_inv _ _ E4) as (_ & _ & _ & _ & H5).
  specialize (H0 eq_refl). specialize (H1 eq_refl). specialize (H2 eq_refl).
  specialize (H3 eq_refl). specialize (H4 eq_refl). specialize (H5 eq_refl).
  clear E E0 E1 E2 E3 E4. subst c3 c4 c5.
  assert (Hport := LookupPort_slashes env rest Hserv).
  unfold checkTCP, TrimPrefix. rewrite Hexact.
  cbn [String.eqb].
  destruct (SplitHostPort_scheme c0 c1 c2 rest H0 H1 H2) as [(why & ->)|(host & ->)].
  - eexists. reflexivity.
  - rewrite Hport. eexists. reflexivity.
Qed.

Lemma retry_loop_rejected env cfg target backoff kind n retry result w :
  (forall result w, exists msg, probe env cfg target result w = (fail msg kind, result, w)) ->
  Z.of_nat (S n) = MaxRetry cfg - retry ->
  Status (retry_loop env cfg target backoff (S n) retry result w).1 = "failed" /\
  ErrorType (retry_loop env cfg target backoff (S n) retry result w).1 = kind /\
  network_events (retry_loop env cfg target backoff (S n) retry result w).2 =
    network_events w.
Proof.
  intros Hrej. revert retry result w.
  induction n as [|n IH]; intros retry result w Hn; cbn [retry_loop];
    destruct (Hrej result (log (EvAttempt retry) w)) as (msg & ->); cbn [fst snd fail].
  - replace (retry =? MaxRetry cfg - 1) with true by (symmetry; apply Z.eqb_eq; lia).
    simpl. repeat split.
    unfold network_events; simpl. rewrite List.filter_app. apply app_nil_r.
  - replace (retry =? MaxRetry cfg - 1) with false by (symmetry; apply Z.eqb_neq; lia).
    destruct (IH (retry + 1)
                (set_ResponseTime result
                   (Milliseconds (time_sub (now (log (EvAttempt retry) w))
                                    (now (log (EvAttempt retry) w)))))
                (Sleep (default 0 (backoff !! Z.to_nat retry)) (log (EvAttempt retry) w)))
      as (Hs & Hk & Hnet); [lia|].
    split; [exact Hs|]. split; [exact Hk|].
    etransitivity; [exact Hnet|].
    unfold network_events, Sleep, log; simpl.
    rewrite !List.filter_app. simpl. rewrite !app_nil_r. reflexivity.
Qed.

(** C10. A URL that begins with "tcp://" in some other letter case than
    all lower case is dispatched to the TCP probe, which strips nothing
    and parses the whole URL as host:port. Provided no entry of the
    service database has a name starting with "//", every attempt fails
    with kind [invalid] before any dial, so the check ends failed with
    kind [invalid] and without a network operation, whatever the
    network would answer. *)
Theorem mixed_case_tcp_is_invalid env cfg target w :
  HasPrefix (ToLower (URL target)) "tcp://" = true ->
  HasPrefix (URL target) "tcp://" = false ->
  (forall p, HasPrefix p "//" = true -> services env p = None) ->
  GetCachedResult cfg (URL target) w = None ->
  0 < MaxRetry cfg ->
  TrimPrefix (URL target) "tcp://" = URL target /\
  (forall result w1, exists msg,
      probe env cfg target result w1 = (fail msg ErrorTypeInvalid, result, w1)) /\
  exists r w',
    CheckTarget env cfg target w = Some (r, w') /\
    Status r = "failed" /\ ErrorType r = ErrorTypeInvalid /\
    network_events w' = network_events w.
Proof.
  intros Hlow Hexact Hserv Hmiss Hpos.
  assert (Hrej : forall result w1, exists msg,
             probe env cfg target result w1 = (fail msg ErrorTypeInvalid, result, w1)).
  { intros result w1. unfold probe. rewrite Hlow.
    apply checkTCP_mixed_case; assumption. }
  split; [unfold TrimPrefix; rewrite Hexact; reflexivity|].
  split; [exact Hrej|].
  unfold CheckTarget. rewrite Hmiss.
  destruct (MaxRetry cfg <? 0) eqn:Hneg; [apply Z.ltb_lt in Hneg; lia|].
  destruct (Z.to_nat (MaxRetry cfg)) as [|n] eqn:Hn; [lia|].
  destruct (retry_loop_rejected env cfg target (make_backoff (MaxRetry cfg))
              ErrorTypeInvalid n 0
              (mkResult (URL target) "" 0 0 "" false "" "" "" (now w)) w Hrej)
    as (Hs & Hk & Hnet); [lia|].
  destruct (retry_loop env cfg target (make_backoff (MaxRetry cfg)) (S n) 0
              (mkResult (URL target) "" 0 0 "" false "" "" "" (now w)) w) as [r1 w1].
  simpl in Hs, Hk, Hnet.
  exists r1, (updateCache r1 w1). repeat split; assumption.
Qed.

(** Even where every dial would succeed. *)
Lemma mixed_case_tcp_is_invalid_witness :
  let target := target_of "TCP://host:80" in
  let env := env_answering (mkResponse 200 (BodyOK "") None) in
  HasPrefix (ToLower (URL target)) "tcp://" = true /\
  HasPrefix (URL target) "tcp://" = false /\
  GetCachedResult (cfg_retry 3) (URL target) w0 = None /\
  0 < MaxRetry (cfg_retry 3) /\
  TrimPrefix (URL target) "tcp://" = URL target /\
  (forall result w1, exists msg,
      probe env (cfg_retry 3) target result w1 = (fail msg ErrorTypeInvalid, result, w1)) /\
  exists r w',
    CheckTarget env (cfg_retry 3) target w0 = Some (r, w') /\
    Status r = "failed" /\ ErrorType r = ErrorTypeInvalid /\
    network_events w' = network_events w0.
Proof.
  split; [reflexivity|]. split; [reflexivity|]. split; [reflexivity|].
  split; [reflexivity|].
  exact (mixed_case_tcp_is_invalid
           (env_answering (mkResponse 200 (BodyOK "") None)) (cfg_retry 3)
           (target_of "TCP://host:80") w0 eq_refl eq_refl (fun _ _ => eq_refl)
           eq_refl eq_refl).
Defined.

(** *** TLS expiry *)






(** The expiries named in the specification. *)
Example expires_today :
  SSLCertExpiry (record_certificate (days_until 0 0) (blank "u" 0)) = "今日过期".
Proof. reflexivity. Qed.

Example expires_in_ten_days :
  let r := record_certificate (days_until (240 * Hour) 0) (blank "u" 0) in
  SSLCertExpiry r = "还有10天过期" /\ Warning r = "".
Proof. split; reflexivity. Qed.

Example expires_in_three_days :
  let r := record_certificate (days_until (72 * Hour) 0) (blank "u" 0) in
  SSLCertExpiry r = "还有3天过期" /\ Warning r = "SSL证书即将过期（剩余3天）".
Proof. split; reflexivity. Qed.


End CheckerProofs.
(** ** Further properties of the admission controller *)

Module LimiterExtra.
Import Limiter LimiterProofs.

(** *** Slots, parents and children *)

Lemma parent_cases (c : nat) :
  0 < c -> c = 2 * parent c + 1 \/ c = 2 * parent c + 2.
Proof.
  intros Hc. unfold parent.
  pose proof (Nat.div_mod_eq (c - 1) 2) as Hd.
  pose proof (Nat.mod_upper_bound (c - 1) 2 ltac:(lia)) as Hm.
  lia.
Qed.

Lemma parent_left (i : nat) : parent (2 * i + 1) = i.
Proof.
  unfold parent. replace (2 * i + 1 - 1) with (i * 2) by lia. apply Nat.div_mul. lia.
Qed.

Lemma parent_right (i : nat) : parent (2 * i + 2) = i.
Proof.
  unfold parent. symmetry. apply (Nat.div_unique _ 2 i 1); lia.
Qed.

Lemma parent_lt (c : nat) : 0 < c -> parent c < c.
Proof. intros Hc. destruct (parent_cases c Hc); lia. Qed.

(** *** Swap *)

Lemma Swap_length (q : PriorityQueue) (i j : nat) : length (Swap q i j) = length q.
Proof.
  unfold Swap, PriorityQueue in *.
  destruct (q !! i), (q !! j); rewrite ?length_insert; reflexivity.
Qed.

Lemma Swap_lookup (q : PriorityQueue) (i j k : nat) (a b : PriorityTask) :
  q !! i = Some a -> q !! j = Some b ->
  Swap q i j !! k =
    if decide (k = j) then Some (set_Index a (Z.of_nat j))
    else if decide (k = i) then Some (set_Index b (Z.of_nat i))
    else q !! k.
Proof.
  intros Hi Hj. unfold Swap, PriorityQueue in *. rewrite Hi, Hj.
  assert (i < length q) by (eapply lookup_lt_Some; eassumption).
  assert (j < length q) by (eapply lookup_lt_Some; eassumption).
  destruct (decide (k = j)) as [->|Hkj].
  - apply list_lookup_insert_eq. rewrite length_insert. assumption.
  - rewrite list_lookup_insert_ne by congruence.
    destruct (decide (k = i)) as [->|Hki].
    + apply list_lookup_insert_eq. assumption.
    + apply list_lookup_insert_ne. congruence.
Qed.

Lemma rk_Swap (q : PriorityQueue) (i j k : nat) :
  i < length q -> j < length q ->
  rk (Swap q i j) k =
    if decide (k = j) then rk q i else if decide (k = i) then rk q j else rk q k.
Proof.
  intros Hi Hj.
  destruct (lookup_lt_is_Some_2 q i Hi) as [a Ha].
  destruct (lookup_lt_is_Some_2 q j Hj) as [b Hb].
  unfold rk. rewrite (Swap_lookup q i j k a b Ha Hb). unfold PriorityQueue in *.
  destruct (decide (k = j)); [rewrite Ha; reflexivity|].
  destruct (decide (k = i)); [rewrite Hb; reflexivity|reflexivity].
Qed.

Lemma Less_rk (q : PriorityQueue) (i j : nat) :
  i < length q -> j < length q -> Less q i j = (rk q j <? rk q i)%Z.
Proof.
  intros Hi Hj.
  destruct (lookup_lt_is_Some_2 q i Hi) as [a Ha].
  destruct (lookup_lt_is_Some_2 q j Hj) as [b Hb].
  unfold Less, rk, PriorityQueue in *. rewrite Ha, Hb. apply Z.gtb_ltb.
Qed.

Lemma insert_swap_perm {A} (l : list A) (j : nat) (a b : A) :
  l !! j = Some b -> a :: l ≡ₚ b :: <[j := a]> l.
Proof.
  revert j. induction l as [|x l IH]; intros [|j] Hj; simpl in *; try discriminate.
  - injection Hj as ->. apply perm_swap.
  - rewrite (perm_swap x a), (IH j Hj), (perm_swap x b). reflexivity.
Qed.

Lemma swap_perm {A} (l : list A) (i j : nat) (a b : A) :
  l !! i = Some a -> l !! j = Some b -> <[j := a]> (<[i := b]> l) ≡ₚ l.
Proof.
  intros Hi Hj. destruct (decide (i = j)) as [->|Hne].
  - rewrite Hi in Hj. injection Hj as <-.
    rewrite list_insert_insert_eq, list_insert_id by assumption. reflexivity.
  - apply (inj (cons b)). 
    assert (Hj' : <[i := b]> l !! j = Some b)
      by (rewrite list_lookup_insert_ne by assumption; assumption).
    rewrite <- (insert_swap_perm (<[i := b]> l) j a b Hj').
    symmetry. apply insert_swap_perm. exact Hi.
Qed.

Lemma Swap_ident (q : PriorityQueue) (i j : nat) :
  ident <$> Swap q i j ≡ₚ ident <$> q.
Proof.
  unfold Swap, PriorityQueue in *. destruct (q !! i) as [a|] eqn:Hi; [|reflexivity].
  destruct (q !! j) as [b|] eqn:Hj; [|reflexivity].
  rewrite !list_fmap_insert.
  change (ident (set_Index a (Z.of_nat j))) with (ident a).
  change (ident (set_Index b (Z.of_nat i))) with (ident b).
  apply swap_perm; rewrite list_lookup_fmap; [rewrite Hi|rewrite Hj]; reflexivity.
Qed.

Lemma Swap_indexed (q : PriorityQueue) (i j : nat) : indexed q -> indexed (Swap q i j).
Proof.
  intros Hq. destruct (q !! i) as [a|] eqn:Hi;
    [|unfold Swap; rewrite Hi; exact Hq].
  destruct (q !! j) as [b|] eqn:Hj; [|unfold Swap; rewrite Hi, Hj; exact Hq].
  intros k t Hk.
  rewrite (Swap_lookup q i j k a b Hi Hj) in Hk.
  destruct (decide (k = j)) as [->|]; [injection Hk as <-; reflexivity|].
  destruct (decide (k = i)) as [->|]; [injection Hk as <-; reflexivity|].
  apply Hq. exact Hk.
Qed.

(** *** up and down: what every swap preserves *)

Lemma up_length (fuel : nat) (q : PriorityQueue) (j : nat) :
  length (up fuel q j) = length q.
Proof.
  revert q j. induction fuel as [|fuel IH]; intros q j; [reflexivity|]. cbn [up].
  destruct (_ || _)%bool; [reflexivity|]. rewrite IH. apply Swap_length.
Qed.

Lemma down_length (fuel : nat) (q : PriorityQueue) (i n : nat) :
  length (down fuel q i n) = length q.
Proof.
  revert q i. induction fuel as [|fuel IH]; intros q i; [reflexivity|]. cbn [down].
  destruct (n <=? 2 * i + 1)%nat; [reflexivity|].
  destruct (negb _); [reflexivity|]. rewrite IH. apply Swap_length.
Qed.

Lemma up_preserves (P : PriorityQueue -> Prop) :
  (forall q i j, P q -> P (Swap q i j)) ->
  forall fuel q j, P q -> P (up fuel q j).
Proof.
  intros HP. induction fuel as [|fuel IH]; intros q j Hq; [exact Hq|]. cbn [up].
  destruct (_ || _)%bool; [exact Hq|]. apply IH, HP, Hq.
Qed.

Lemma down_preserves (P : PriorityQueue -> Prop) :
  (forall q i j, P q -> P (Swap q i j)) ->
  forall fuel q i n, P q -> P (down fuel q i n).
Proof.
  intros HP. induction fuel as [|fuel IH]; intros q i n Hq; [exact Hq|]. cbn [down].
  destruct (n <=? 2 * i + 1)%nat; [exact Hq|].
  destruct (negb _); [exact Hq|]. apply IH, HP, Hq.
Qed.

Lemma Swap_lookup_other (q : PriorityQueue) (i j k : nat) :
  k <> i -> k <> j -> Swap q i j !! k = q !! k.
Proof.
  intros Hi Hj. unfold Swap, PriorityQueue in *.
  destruct (q !! i), (q !! j); try reflexivity.
  rewrite !list_lookup_insert_ne by congruence. reflexivity.
Qed.

Lemma down_tail (fuel : nat) (q : PriorityQueue) (i n k : nat) :
  n <= k -> down fuel q i n !! k = q !! k.
Proof.
  revert q i. induction fuel as [|fuel IH]; intros q i Hk; [reflexivity|]. cbn [down].
  destruct (n <=? 2 * i + 1)%nat eqn:Hle; [reflexivity|]. apply Nat.leb_gt in Hle.
  destruct (negb _); [reflexivity|]. rewrite IH by assumption.
  apply Swap_lookup_other; [lia|].
  destruct ((2 * i + 1 + 1 <? n)%nat && _)%bool eqn:Hc; [|lia].
  apply andb_prop in Hc as [Hc _]. apply Nat.ltb_lt in Hc. lia.
Qed.

(** *** up and down: heap order *)

Ltac heap_arith :=
  repeat case_decide; subst; try lia;
  repeat match goal with
         | E : parent ?a = ?b |- _ => progress (rewrite ?E in * )
         end;
  lia.

Lemma up_heap (fuel : nat) (q : PriorityQueue) (j : nat) :
  j < fuel -> j < length q -> up_ok q j -> is_heap (up fuel q j).
Proof.
  revert q j. induction fuel as [|fuel IH]; intros q j Hf Hj [H1 H2]; [lia|].
  cbn [up]. fold (parent j).
  destruct (parent j =? j)%nat eqn:Hroot.
  { apply Nat.eqb_eq in Hroot. intros c Hc. apply H1; [assumption|].
    intros ->. pose proof (parent_lt j). lia. }
  apply Nat.eqb_neq in Hroot. cbn [orb].
  assert (Hj0 : 0 < j) by (destruct j; [exfalso; apply Hroot; reflexivity|lia]).
  pose proof (parent_lt j Hj0) as Hpj.
  rewrite Less_rk by lia.
  destruct (rk q (parent j) <? rk q j)%Z eqn:Hless; cbn [negb].
  2:{ apply Z.ltb_ge in Hless. intros c Hc.
      destruct (decide (c = j)) as [->|Hne]; [assumption|apply H1; assumption]. }
  apply Z.ltb_lt in Hless.
  apply IH; [lia|rewrite Swap_length; lia|].
  split.
  - intros c Hc Hci. rewrite Swap_length in Hc.
    pose proof (parent_lt c ltac:(lia)) as Hpc.
    pose proof (H1 c Hc) as F1. pose proof (H2 c Hc) as F2.
    rewrite !rk_Swap by lia.
    heap_arith.
  - intros c Hc Hpar Hi0. rewrite Swap_length in Hc.
    pose proof (parent_lt (parent j) Hi0) as Hpp.
    pose proof (H1 c Hc) as F1. pose proof (H1 (parent j) ltac:(lia)) as F3.
    rewrite !rk_Swap by lia.
    heap_arith.
Qed.

Lemma down_heap (fuel : nat) (q : PriorityQueue) (i n : nat) :
  n - i <= fuel -> n <= length q -> down_ok q i n ->
  is_heap_upto (down fuel q i n) n.
Proof.
  revert q i. induction fuel as [|fuel IH]; intros q i Hf Hn [H1 H2].
  { simpl. intros c Hc. apply H1; [assumption|].
    intros Hp. destruct (parent_cases c ltac:(lia)); lia. }
  cbn [down].
  destruct (n <=? 2 * i + 1)%nat eqn:Hleaf.
  { apply Nat.leb_le in Hleaf. intros c Hc. apply H1; [assumption|].
    intros Hp. destruct (parent_cases c ltac:(lia)); lia. }
  apply Nat.leb_gt in Hleaf.
  set (j := if ((2 * i + 1 + 1 <? n)%nat && Less q (2 * i + 1 + 1) (2 * i + 1))%bool
            then (2 * i + 1 + 1)%nat else (2 * i + 1)%nat).
  assert (Hj : j < n /\ i < j /\ parent j = i /\
               (forall c, 0 < c < n -> parent c = i -> (rk q c <= rk q j)%Z)).
  { subst j. destruct (2 * i + 1 + 1 <? n)%nat eqn:Hr; cbn [andb].
    - apply Nat.ltb_lt in Hr. rewrite Less_rk by lia.
      destruct (rk q (2 * i + 1) <? rk q (2 * i + 1 + 1))%Z eqn:Hl.
      + apply Z.ltb_lt in Hl. split; [lia|]. split; [lia|]. split.
        * replace (2 * i + 1 + 1) with (2 * i + 2) by lia. apply parent_right.
        * intros c Hc Hp. destruct (parent_cases c ltac:(lia)) as [Hcc|Hcc];
            rewrite Hp in Hcc; subst c; [lia|].
          replace (2 * i + 2) with (2 * i + 1 + 1) by lia. lia.
      + apply Z.ltb_ge in Hl. split; [lia|]. split; [lia|]. split; [apply parent_left|].
        intros c Hc Hp. destruct (parent_cases c ltac:(lia)) as [Hcc|Hcc];
          rewrite Hp in Hcc; subst c; [lia|].
        replace (2 * i + 2) with (2 * i + 1 + 1) by lia. lia.
    - apply Nat.ltb_ge in Hr. split; [lia|]. split; [lia|]. split; [apply parent_left|].
      intros c Hc Hp. destruct (parent_cases c ltac:(lia)) as [Hcc|Hcc];
        rewrite Hp in Hcc; subst c; lia. }
  destruct Hj as (Hjn & Hij & Hpj & Hmax). clearbody j.
  rewrite Less_rk by lia.
  destruct (rk q i <? rk q j)%Z eqn:Hless; cbn [negb].
  2:{ apply Z.ltb_ge in Hless. intros c Hc.
      destruct (decide (parent c = i)) as [Hp|Hp]; [|apply H1; assumption].
      rewrite Hp. specialize (Hmax c Hc Hp). lia. }
  apply Z.ltb_lt in Hless.
  apply IH; [lia|rewrite Swap_length; lia|].
  split.
  - intros c Hc Hpc.
    pose proof (parent_lt c ltac:(lia)) as Hlt.
    pose proof (H1 c Hc) as F1. pose proof (Hmax c Hc) as F2.
    pose proof (H2 j ltac:(lia) Hpj) as F3.
    pose proof (parent_lt i) as F4.
    rewrite !rk_Swap by lia.
    heap_arith.
  - intros c Hc Hpc Hj0.
    rewrite Hpj. rewrite !rk_Swap by lia.
    pose proof (parent_lt c ltac:(lia)) as Hlt.
    pose proof (H1 c Hc) as F1.
    heap_arith.
Qed.

Lemma root_max (q : PriorityQueue) (n i : nat) :
  is_heap_upto q n -> i < n -> (rk q i <= rk q 0)%Z.
Proof.
  intros Hq. induction i as [i IH] using lt_wf_ind. intros Hi.
  destruct (decide (i = 0)) as [->|Hne]; [lia|].
  pose proof (parent_lt i ltac:(lia)) as Hp.
  specialize (IH (parent i) Hp ltac:(lia)). specialize (Hq i ltac:(lia)). lia.
Qed.


(** *** heap.Push and heap.Pop *)

Lemma rk_app_l (q r : PriorityQueue) (i : nat) :
  i < length q -> rk (q ++ r) i = rk q i.
Proof. intros Hi. unfold rk, PriorityQueue in *. rewrite lookup_app_l by assumption. reflexivity. Qed.

Lemma Push_indexed (q : PriorityQueue) (x : PriorityTask) :
  indexed q -> indexed (Push q x).
Proof.
  intros Hq i t. unfold Push, Len, PriorityQueue in *.
  destruct (decide (i < length q)) as [Hlt|Hge].
  - rewrite lookup_app_l by assumption. apply Hq.
  - rewrite lookup_app_r by lia.
    destruct (i - length q) as [|d] eqn:Hd; simpl; [|destruct d; discriminate].
    intros [= <-]. simpl. f_equal. lia.
Qed.

Lemma heap_Push_spec (q : PriorityQueue) (x : PriorityTask) :
  length (heap_Push q x) = S (length q) /\
  ident <$> heap_Push q x ≡ₚ ident x :: (ident <$> q) /\
  (indexed q -> indexed (heap_Push q x)) /\
  (is_heap q -> is_heap (heap_Push q x)).
Proof.
  unfold heap_Push, Len.
  assert (Hlen : length (Push q x) = S (length q))
    by (unfold Push; rewrite length_app; simpl; lia).
  split; [rewrite up_length; exact Hlen|]. split; [|split].
  - apply (up_preserves (fun q' => ident <$> q' ≡ₚ ident x :: (ident <$> q))).
    + intros q' i j Hq'. rewrite Swap_ident. exact Hq'.
    + unfold Push. rewrite fmap_app. simpl.
      rewrite Permutation_app_comm. reflexivity.
  - intros Hq. apply (up_preserves indexed).
    + intros q' i j. apply Swap_indexed.
    + apply Push_indexed, Hq.
  - intros Hq. apply up_heap; [lia|lia|]. rewrite Hlen. split.
    + intros c Hc Hne. rewrite Hlen in Hc.
      pose proof (parent_lt c ltac:(lia)).
      unfold Push. rewrite !rk_app_l by lia. apply Hq. lia.
    + intros c Hc Hpar _. rewrite Hlen in Hc.
      destruct (parent_cases c ltac:(lia)); lia.
Qed.

Lemma heap_Pop_spec (q : PriorityQueue) :
  match heap_Pop q with
  | None => q = []
  | Some (y, q') =>
      S (length q') = length q /\
      ident y :: (ident <$> q') ≡ₚ ident <$> q /\
      Index y = (-1)%Z /\
      (indexed q -> indexed q') /\
      (is_heap q ->
       is_heap q' /\
       forall t, t ∈ q -> (prio_rank (Priority t) <= prio_rank (Priority y))%Z)
  end.
Proof.
  destruct q as [|a0 q0] eqn:Hq; [reflexivity|].
  assert (Hpop : heap_Pop (a0 :: q0) =
                 Pop (down (Len (a0 :: q0)) (Swap (a0 :: q0) 0 (Len (a0 :: q0) - 1)) 0
                        (Len (a0 :: q0) - 1))) by reflexivity.
  rewrite Hpop. clear Hpop. rewrite <- Hq.
  assert (Hlen : length q = S (length q0)) by (subst q; reflexivity).
  set (n := length q0) in *.
  unfold Len. rewrite Hlen.
  replace (S n - 1) with n by lia.
  set (q1 := Swap q 0 n). set (q2 := down (S n) q1 0 n).
  assert (Hl1 : length q1 = S n) by (unfold q1; rewrite Swap_length; exact Hlen).
  assert (Hl2 : length q2 = S n) by (unfold q2; rewrite down_length; exact Hl1).
  assert (H0 : q !! 0 = Some a0) by (subst q; reflexivity).
  destruct (lookup_lt_is_Some_2 q n ltac:(lia)) as [b Hb].
  assert (Hlast : q2 !! n = Some (set_Index a0 (Z.of_nat n))).
  { unfold q2. rewrite down_tail by lia. unfold q1.
    rewrite (Swap_lookup q 0 n n a0 b H0 Hb). rewrite decide_True by reflexivity.
    reflexivity. }
  unfold Pop, Len. unfold PriorityQueue in *.
  rewrite last_lookup, Hl2. simpl pred. rewrite Hlast.
  replace (S n - 1) with n by lia.
  assert (Hsplit : q2 = take n q2 ++ [set_Index a0 (Z.of_nat n)]).
  { rewrite <- (take_drop n q2) at 1. f_equal.
    apply list_eq. intros [|k]; simpl.
    - rewrite lookup_drop, Nat.add_0_r. exact Hlast.
    - rewrite lookup_drop. apply lookup_ge_None. lia. }
  assert (Hid2 : ident <$> q2 ≡ₚ ident <$> q).
  { unfold q2. apply (down_preserves (fun q' => ident <$> q' ≡ₚ ident <$> q)).
    - intros q' i j Hq'. pose proof (Swap_ident q' i j) as Hs.
      unfold PriorityQueue in *. rewrite Hs. exact Hq'.
    - unfold q1. apply Swap_ident. }
  split; [rewrite length_take_le by lia; lia|]. split; [|split; [reflexivity|split]].
  - rewrite <- Hid2. rewrite Hsplit at 2. rewrite fmap_app. simpl.
    rewrite Permutation_app_comm. reflexivity.
  - intros Hidx i t Hi.
    assert (Hidx2 : indexed q2).
    { unfold q2. apply (down_preserves indexed); [intros ? ? ?; apply Swap_indexed|].
      unfold q1. apply Swap_indexed, Hidx. }
    apply lookup_take_Some in Hi as [Hi _]. apply (Hidx2 i t Hi).
  - intros Hheap.
    assert (Hh2 : is_heap_upto q2 n).
    { unfold q2. apply down_heap; [lia|lia|]. split; [|lia].
      intros c Hc Hpc. pose proof (parent_lt c ltac:(lia)).
      unfold q1. rewrite !rk_Swap by lia.
      rewrite !decide_False by lia. apply Hheap. lia. }
    split.
    + intros c Hc. rewrite length_take_le in Hc by lia.
      pose proof (parent_lt c ltac:(lia)).
      specialize (Hh2 c Hc). unfold rk in *.
      unfold PriorityQueue in *. rewrite !lookup_take_lt by lia. exact Hh2.
    + intros t Ht. apply list_elem_of_lookup in Ht as [k Hk].
      pose proof (root_max q (length q) k Hheap ltac:(eapply lookup_lt_Some; eassumption)) as Hm.
      unfold rk in Hm. unfold PriorityQueue in *. rewrite Hk, H0 in Hm. exact Hm.
Qed.


(** X11. heap.Push and heap.Pop neither lose nor duplicate a task:
    pushing adds exactly the pushed task, popping removes exactly the
    returned one, and popping the empty queue is the only way to fail.
    Tasks are compared by pointer and priority, whatever their [Index]. *)
Theorem heap_keeps_tasks (q : PriorityQueue) (x : PriorityTask) :
  length (heap_Push q x) = S (length q) /\
  ident <$> heap_Push q x ≡ₚ ident x :: (ident <$> q) /\
  match heap_Pop q with
  | None => q = []
  | Some (y, q') =>
      S (length q') = length q /\ ident y :: (ident <$> q') ≡ₚ ident <$> q
  end.
Proof.
  destruct (heap_Push_spec q x) as (Hl & Hp & _).
  split; [exact Hl|]. split; [exact Hp|].
  pose proof (heap_Pop_spec q) as Hpop.
  destruct (heap_Pop q) as [[y q']|]; [|exact Hpop].
  destruct Hpop as (H1 & H2 & _). split; assumption.
Qed.

(** X12. The [Index] bookkeeping: in a queue whose tasks each record
    their own slot, they still do after heap.Push and after heap.Pop, and
    the popped task is marked with index -1. *)
Theorem heap_keeps_indices (q : PriorityQueue) (x : PriorityTask) :
  indexed q ->
  indexed (heap_Push q x) /\
  match heap_Pop q with
  | None => q = []
  | Some (y, q') => Index y = (-1)%Z /\ indexed q'
  end.
Proof.
  intros Hq. destruct (heap_Push_spec q x) as (_ & _ & Hi & _).
  split; [apply Hi, Hq|].
  pose proof (heap_Pop_spec q) as Hpop.
  destruct (heap_Pop q) as [[y q']|]; [|exact Hpop].
  destruct Hpop as (_ & _ & H3 & H4 & _). split; [exact H3|apply H4, Hq].
Qed.

Lemma heap_keeps_indices_witness :
  let q := heap_Push (heap_Push [] (mkTask 7 PriorityLow 0)) (mkTask 8 PriorityHigh 0) in
  indexed q /\
  q = [mkTask 8 PriorityHigh 0; mkTask 7 PriorityLow 1] /\
  indexed (heap_Push q (mkTask 9 PriorityNormal 0)) /\
  match heap_Pop q with
  | None => q = []
  | Some (y, q') => Index y = (-1)%Z /\ indexed q'
  end.
Proof.
  assert (Hq : indexed (heap_Push (heap_Push [] (mkTask 7 PriorityLow 0))
                          (mkTask 8 PriorityHigh 0))).
  { intros [|[|i]] t Ht; vm_compute in Ht; try discriminate; injection Ht as <-; reflexivity. }
  split; [exact Hq|]. split; [reflexivity|].
  exact (heap_keeps_indices _ (mkTask 9 PriorityNormal 0) Hq).
Defined.

(** X13. Heap order: a queue in max-heap order stays so after heap.Push
    and after heap.Pop, and heap.Pop returns a task whose priority is at
    least that of every task that was queued. *)
Theorem heap_pops_a_maximum (q : PriorityQueue) (x : PriorityTask) :
  is_heap q ->
  is_heap (heap_Push q x) /\
  match heap_Pop q with
  | None => q = []
  | Some (y, q') =>
      is_heap q' /\
      forall t, t ∈ q -> (prio_rank (Priority t) <= prio_rank (Priority y))%Z
  end.
Proof.
  intros Hq. destruct (heap_Push_spec q x) as (_ & _ & _ & Hh).
  split; [apply Hh, Hq|].
  pose proof (heap_Pop_spec q) as Hpop.
  destruct (heap_Pop q) as [[y q']|]; [|exact Hpop].
  destruct Hpop as (_ & _ & _ & _ & H5). apply H5, Hq.
Qed.

Lemma heap_pops_a_maximum_witness :
  let q := [mkTask 8 PriorityHigh 0; mkTask 7 PriorityLow 1; mkTask 6 PriorityNormal 2] in
  is_heap q /\
  heap_Pop q = Some (mkTask 8 PriorityHigh (-1),
                     [mkTask 6 PriorityNormal 0; mkTask 7 PriorityLow 1]) /\
  is_heap (heap_Push q (mkTask 9 PriorityHigh 0)) /\
  match heap_Pop q with
  | None => q = []
  | Some (y, q') =>
      is_heap q' /\
      forall t, t ∈ q -> (prio_rank (Priority t) <= prio_rank (Priority y))%Z
  end.
Proof.
  assert (Hq : is_heap [mkTask 8 PriorityHigh 0; mkTask 7 PriorityLow 1;
                        mkTask 6 PriorityNormal 2]).
  { intros c Hc. simpl in Hc.
    assert (c = 1 \/ c = 2) as [-> | ->] by lia; vm_compute; discriminate. }
  split; [exact Hq|]. split; [reflexivity|].
  exact (heap_pops_a_maximum _ (mkTask 9 PriorityHigh 0) Hq).
Defined.

(** *** The queue of a running limiter *)

Lemma step_queue_ok (l : label) (st st' : state) :
  queue_ok st -> step l st = Some st' -> queue_ok st'.
Proof.
  intros [Hh Hi]. unfold queue_ok. destruct l as [t k|]; simpl.
  - unfold step_thread. destruct (threads st !! t) as [th|]; [|discriminate].
    destruct (th_pc th) eqn:Hpc; try discriminate.
    + destruct (mu st); [discriminate|]. destruct (closed st).
      * intros [= <-]; simpl. split; assumption.
      * destruct (signal k (waiters st) (threads st)) as [ws ths].
        intros [= <-]; simpl.
        destruct (heap_Push_spec (pq st) (own_task t th)) as (_ & _ & H3 & H4).
        split; [apply H4, Hh|apply H3, Hi].
    + destruct (sem_len st =? sem_cap st)%nat; intros [= <-]; simpl; split; assumption.
    + destruct (mu st); [discriminate|]. intros [= <-]; simpl; split; assumption.
    + pose proof (heap_Pop_spec (pq st)) as Hpop.
      destruct (heap_Pop (pq st)) as [[x q']|]; intros [= <-]; simpl;
        [|split; assumption].
      destruct Hpop as (_ & _ & _ & H4 & H5). split; [apply H5, Hh|apply H4, Hi].
    + destruct (sem_closed st); [intros [= <-]; simpl; split; assumption|].
      destruct (sem_len st <? sem_cap st)%nat; [|discriminate].
      intros [= <-]; simpl; split; assumption.
    + destruct (task_ptr x =? t)%nat; intros [= <-]; simpl; [split; assumption|].
      destruct (heap_Push_spec (pq st) x) as (_ & _ & H3 & H4).
      split; [apply H4, Hh|apply H3, Hi].
    + destruct (sem_len st); [destruct (sem_closed st); [|discriminate]|];
        intros [= <-]; simpl; split; assumption.
    + destruct (mu st); [discriminate|].
      destruct (signal k (waiters st) (threads st)) as [ws ths].
      intros [= <-]; simpl; split; assumption.
  - unfold step_close. destruct (mu st); [discriminate|].
    destruct (sem_closed st); intros [= <-]; simpl; split; assumption.
Qed.

Lemma exec_queue_ok (sched : list label) (st : state) :
  queue_ok st -> queue_ok (exec sched st).
Proof.
  revert st. induction sched as [|l sched IH]; intros st Hq; simpl; [assumption|].
  apply IH. destruct (step l st) as [st'|] eqn:Hs; simpl; [|assumption].
  eapply step_queue_ok; eassumption.
Qed.

(** X14. In every state a limiter can reach, whatever the goroutines,
    their priorities and the schedule, the queue is in max-heap order with
    correct indices; so the task a caller pops in AcquireWithPriority has
    a priority at least that of every task still waiting in the queue. *)
Theorem limiter_pops_highest_priority
    (max : Z) (ths : list thread) (st0 : state) (sched : list label) :
  NewConcurrencyLimiter max ths = Some st0 ->
  let st := exec sched st0 in
  is_heap (pq st) /\ indexed (pq st) /\
  forall x q', heap_Pop (pq st) = Some (x, q') ->
    Index x = (-1)%Z /\
    forall t, t ∈ pq st -> (prio_rank (Priority t) <= prio_rank (Priority x))%Z.
Proof.
  unfold NewConcurrencyLimiter. destruct (max <? 0)%Z; [discriminate|].
  intros [= <-]. cbn zeta.
  match goal with |- context [exec sched ?s] => set (s0 := s) end.
  assert (H0 : queue_ok s0).
  { split; [intros c Hc; simpl in Hc; lia|intros i t Ht; discriminate Ht]. }
  destruct (exec_queue_ok sched s0 H0) as [Hh Hi].
  split; [exact Hh|]. split; [exact Hi|].
  intros x q' Hpop. pose proof (heap_Pop_spec (pq (exec sched s0))) as Hs.
  rewrite Hpop in Hs. destruct Hs as (_ & _ & H3 & _ & H5).
  split; [exact H3|]. apply (H5 Hh).
Qed.

Lemma limiter_pops_highest_priority_witness :
  let ths := fresh <$> [PriorityNormal; PriorityLow; PriorityHigh] in
  exists st0,
    NewConcurrencyLimiter 1 ths = Some st0 /\
    let st := exec (admit0 ++ [Run 1 0; Run 1 0; Run 2 0; Run 2 0]) st0 in
    heap_Pop (pq st) = Some (mkTask 2 PriorityHigh (-1), [mkTask 1 PriorityLow 0]) /\
    is_heap (pq st) /\ indexed (pq st) /\
    forall x q', heap_Pop (pq st) = Some (x, q') ->
      Index x = (-1)%Z /\
      forall t, t ∈ pq st -> (prio_rank (Priority t) <= prio_rank (Priority x))%Z.
Proof.
  eexists. split; [reflexivity|]. split; [reflexivity|].
  exact (limiter_pops_highest_priority 1
           (fresh <$> [PriorityNormal; PriorityLow; PriorityHigh]) _
           (admit0 ++ [Run 1 0; Run 1 0; Run 2 0; Run 2 0]) eq_refl).
Defined.


End LimiterExtra.

(** ** Further properties of the probe orchestrator *)

Module CheckerExtra.
Import Checker CheckerProofs.
Local Open Scope Z_scope.

(** *** The cache *)

(** X1. After CleanExpiredCache the cache holds exactly the entries that
    GetCachedResult would return, and the sweep changes the answer of no
    lookup. *)
Theorem sweep_keeps_what_lookup_returns (cfg : MonitorConfig) (w : World) (u : string) :
  cache (CleanExpiredCache cfg w) !! u = GetCachedResult cfg u w /\
  GetCachedResult cfg u (CleanExpiredCache cfg w) = GetCachedResult cfg u w.
Proof.
  assert (Hfirst : cache (CleanExpiredCache cfg w) !! u = GetCachedResult cfg u w).
  { unfold CleanExpiredCache, GetCachedResult; simpl.
    destruct (cache w !! u) as [r|] eqn:Hl.
    - destruct (CacheTTL cfg <? time_sub (now w) (CheckedAt r)) eqn:Hexp.
      + apply Z.ltb_lt in Hexp. apply map_lookup_filter_None. right.
        intros r' Hr'. rewrite Hl in Hr'. injection Hr' as <-. simpl. tauto.
      + apply Z.ltb_ge in Hexp. apply map_lookup_filter_Some. split; [exact Hl|].
        simpl. lia.
    - apply map_lookup_filter_None. left. exact Hl. }
  split; [exact Hfirst|].
  unfold GetCachedResult at 1. rewrite Hfirst.
  unfold GetCachedResult. simpl. destruct (cache w !! u) as [r|]; [|reflexivity].
  destruct (CacheTTL cfg <? time_sub (now w) (CheckedAt r)) eqn:Hexp; [reflexivity|].
  rewrite Hexp. reflexivity.
Qed.

Lemma probe_CheckedAt env cfg target result w :
  CheckedAt (result_of (probe env cfg target result w)) = CheckedAt result.
Proof.
  split_probe; try reflexivity;
    unfold record_certificate;
    repeat match goal with
           | |- context [if ?x then _ else _] => destruct x
           end; reflexivity.
Qed.

Lemma retry_loop_CheckedAt env cfg target backoff n retry result w :
  CheckedAt (retry_loop env cfg target backoff n retry result w).1 = CheckedAt result.
Proof.
  revert retry result w. induction n as [|n IH]; intros retry result w; [reflexivity|].
  cbn [retry_loop].
  pose proof (probe_CheckedAt env cfg target result (log (EvAttempt retry) w)) as Hc.
  unfold result_of in Hc.
  destruct (probe env cfg target result (log (EvAttempt retry) w)) as [[err r1] w1].
  simpl in Hc. destruct (err.1); [|exact Hc].
  destruct (retry =? MaxRetry cfg - 1); rewrite IH; simpl; exact Hc.
Qed.



(** *** Bounds on the work of a check *)

Lemma count_attempts_app (a b : list Event) :
  count_attempts (a ++ b) = count_attempts a + count_attempts b.
Proof. unfold count_attempts. rewrite List.filter_app, length_app. lia. Qed.

Lemma count_sleeps_app (a b : list Event) :
  count_sleeps (a ++ b) = count_sleeps a + count_sleeps b.
Proof. unfold count_sleeps. rewrite List.filter_app, length_app. lia. Qed.

Lemma total_sleep_app (a b : list Event) :
  total_sleep (a ++ b) = total_sleep a + total_sleep b.
Proof.
  induction a as [|e a IH]; simpl; [reflexivity|].
  destruct e; rewrite IH; lia.
Qed.

(** One probe: at most one network operation, no attempt mark, no sleep. *)
Lemma probe_effort env cfg target result w :
  let w' := world_of (probe env cfg target result w) in
  count_attempts (trace w') = count_attempts (trace w) /\
  count_sleeps (trace w') = count_sleeps (trace w) /\
  total_sleep (trace w') = total_sleep (trace w) /\
  Z.of_nat (ops w) <= Z.of_nat (ops w') <= Z.of_nat (ops w) + 1.
Proof.
  split_probe; rewrite ?count_attempts_app, ?count_sleeps_app, ?total_sleep_app;
    unfold count_attempts, count_sleeps; simpl; lia.
Qed.

Lemma retry_loop_effort env cfg target backoff n retry result w :
  Z.of_nat n = MaxRetry cfg - retry ->
  let w' := (retry_loop env cfg target backoff n retry result w).2 in
  let added := count_attempts (trace w') - count_attempts (trace w) in
  0 <= added <= Z.of_nat n /\
  (0 < Z.of_nat n -> 1 <= added) /\
  Z.of_nat (ops w) <= Z.of_nat (ops w') <= Z.of_nat (ops w) + added /\
  count_sleeps (trace w') - count_sleeps (trace w) = Z.max 0 (added - 1).
Proof.
  revert retry result w. induction n as [|n IH]; intros retry result w Hn.
  - simpl. lia.
  - cbn zeta. cbn [retry_loop].
    pose proof (probe_effort env cfg target result (log (EvAttempt retry) w)) as Hp.
    cbn zeta in Hp. unfold world_of in Hp.
    destruct (probe env cfg target result (log (EvAttempt retry) w)) as [[err r1] w1].
    cbn [snd] in Hp. destruct Hp as (Ha & Hs & _ & Ho).
    simpl in Ha, Hs, Ho.
    rewrite count_attempts_app in Ha. rewrite count_sleeps_app in Hs.
    change (count_attempts [EvAttempt retry]) with 1 in Ha.
    change (count_sleeps [EvAttempt retry]) with 0 in Hs.
    destruct (err.1) as [msg|].
    + destruct (retry =? MaxRetry cfg - 1) eqn:Hlast.
      * apply Z.eqb_eq in Hlast. assert (n = 0%nat) as -> by lia. simpl. lia.
      * apply Z.eqb_neq in Hlast.
        match goal with
        | |- context [retry_loop _ _ _ _ _ _ ?r ?w2] =>
            specialize (IH (retry + 1) r w2 ltac:(lia)); cbn zeta in IH;
            destruct (retry_loop env cfg target backoff n (retry + 1) r w2) as [r3 w3]
        end.
        cbn [snd] in IH |- *. simpl in IH.
        rewrite count_attempts_app, count_sleeps_app in IH.
        change (count_attempts [EvSleep _]) with 0 in IH.
        change (count_sleeps [EvSleep _]) with 1 in IH.
        lia.
    + simpl. lia.
Qed.

(** One probe adds at most one event to the trace, a network operation. *)
Lemma probe_events env cfg target result w :
  exists evs,
    trace (world_of (probe env cfg target result w)) = trace w ++ evs /\
    (evs = [] \/ exists e, evs = [e] /\ is_network e = true).
Proof.
  split_probe;
    first [ exists []; split; [symmetry; apply app_nil_r|left; reflexivity]
          | eexists; split; [reflexivity|right; eexists; split; reflexivity] ].
Qed.

Lemma paced_after_probe (i : Z) (evs rest : list Event) :
  (evs = [] \/ exists e, evs = [e] /\ is_network e = true) ->
  (rest = [] \/ exists d rest', rest = EvSleep d :: rest' /\ paced Slept i rest' = true) ->
  paced Attempted i (evs ++ rest) = true.
Proof.
  intros [->|(e & -> & He)] [->|(d & rest' & -> & Hr)]; simpl; try reflexivity.
  - exact Hr.
  - destruct e; try discriminate; reflexivity.
  - destruct e; try discriminate; exact Hr.
Qed.

(** The events of the retry loop, when [n] iterations are left. *)
Lemma retry_loop_paced env cfg target backoff n retry result w :
  Z.of_nat (S n) = MaxRetry cfg - retry ->
  exists evs,
    trace (retry_loop env cfg target backoff (S n) retry result w).2 =
      trace w ++ EvAttempt retry :: evs /\
    paced Attempted (retry + 1) evs = true.
Proof.
  revert retry result w. induction n as [|n IH]; intros retry result w Hn;
    rewrite retry_loop_S; cbn zeta;
    destruct (probe_events env cfg target result (log (EvAttempt retry) w))
      as (e1 & Ht & He1);
    unfold world_of in Ht;
    destruct (probe env cfg target result (log (EvAttempt retry) w)) as [[err r1] w1];
    cbn [fst snd] in Ht |- *; simpl trace in Ht;
    (destruct (err.1) as [msg|];
     [|exists e1; split;
       [simpl; rewrite Ht, <- app_assoc; reflexivity
       |rewrite <- (app_nil_r e1); apply paced_after_probe; auto]]).
  - replace (retry =? MaxRetry cfg - 1) with true by (symmetry; apply Z.eqb_eq; lia).
    exists e1. split; [simpl; rewrite Ht, <- app_assoc; reflexivity|].
    rewrite <- (app_nil_r e1). apply paced_after_probe; auto.
  - replace (retry =? MaxRetry cfg - 1) with false by (symmetry; apply Z.eqb_neq; lia).
    match goal with
    | |- context [retry_loop _ _ _ _ _ _ ?r ?w2] =>
        destruct (IH (retry + 1) r w2 ltac:(lia)) as (evs & Hevs & Hp)
    end.
    rewrite Hevs. simpl trace. rewrite Ht.
    eexists. split; [rewrite <- !app_assoc; simpl; reflexivity|].
    apply paced_after_probe; [exact He1|]. right. eexists _, _. split; [reflexivity|].
    simpl. rewrite Z.eqb_refl. exact Hp.
Qed.

(** X3. A check never makes more attempts than maxRetry and makes at
    least one when maxRetry is positive and it misses the cache. What it
    adds to the trace is a run of attempts numbered from 0: each attempt
    is its mark followed by at most one network operation, two
    consecutive attempts are separated by exactly one sleep, and there is
    no sleep before the first attempt nor after the last. *)
Theorem check_effort_bounded env cfg target w r w' :
  CheckTarget env cfg target w = Some (r, w') ->
  let added := count_attempts (trace w') - count_attempts (trace w) in
  0 <= added <= Z.max 0 (MaxRetry cfg) /\
  (GetCachedResult cfg (URL target) w = None -> 0 < MaxRetry cfg -> 1 <= added) /\
  Z.of_nat (ops w) <= Z.of_nat (ops w') <= Z.of_nat (ops w) + added /\
  count_sleeps (trace w') - count_sleeps (trace w) = Z.max 0 (added - 1) /\
  exists evs, trace w' = trace w ++ evs /\ paced Idle 0 evs = true.
Proof.
  unfold CheckTarget. destruct (GetCachedResult cfg (URL target) w) as [c|].
  - intros [= <- <-]. cbn zeta. rewrite !Z.sub_diag. repeat split; try lia;
      [discriminate|].
    exists []. split; [symmetry; apply app_nil_r|reflexivity].
  - destruct (MaxRetry cfg <? 0) eqn:Hneg; [discriminate|]. apply Z.ltb_ge in Hneg.
    pose proof (retry_loop_effort env cfg target (make_backoff (MaxRetry cfg))
                  (Z.to_nat (MaxRetry cfg)) 0
                  (mkResult (URL target) "" 0 0 "" false "" "" "" (now w)) w
                  ltac:(lia)) as He.
    cbn zeta in He.
    assert (Hshape : exists evs,
               trace (retry_loop env cfg target (make_backoff (MaxRetry cfg))
                        (Z.to_nat (MaxRetry cfg)) 0
                        (mkResult (URL target) "" 0 0 "" false "" "" "" (now w)) w).2
               = trace w ++ evs /\ paced Idle 0 evs = true).
    { destruct (Z.to_nat (MaxRetry cfg)) as [|n] eqn:Hn.
      - exists []. split; [symmetry; apply app_nil_r|reflexivity].
      - destruct (retry_loop_paced env cfg target (make_backoff (MaxRetry cfg)) n 0
                    (mkResult (URL target) "" 0 0 "" false "" "" "" (now w)) w
                    ltac:(lia)) as (evs & Hevs & Hp).
        exists (EvAttempt 0 :: evs). split; [exact Hevs|]. simpl. exact Hp. }
    destruct (retry_loop env cfg target (make_backoff (MaxRetry cfg))
                (Z.to_nat (MaxRetry cfg)) 0
                (mkResult (URL target) "" 0 0 "" false "" "" "" (now w)) w) as [r1 w1].
    intros [= <- <-]. cbn zeta. simpl in He, Hshape |- *.
    repeat split; try lia. exact Hshape.
Qed.

Lemma check_effort_bounded_witness :
  exists r w',
    CheckTarget env_refusing (cfg_retry 3) (target_of "http://a.example") w0 = Some (r, w') /\
    count_attempts (trace w') = 3 /\ count_sleeps (trace w') = 2 /\ ops w' = 3%nat /\
    let added := count_attempts (trace w') - count_attempts (trace w0) in
    0 <= added <= Z.max 0 (MaxRetry (cfg_retry 3)) /\
    count_sleeps (trace w') - count_sleeps (trace w0) = Z.max 0 (added - 1) /\
    exists evs, trace w' = trace w0 ++ evs /\ paced Idle 0 evs = true.
Proof.
  destruct (CheckTarget env_refusing (cfg_retry 3) (target_of "http://a.example") w0)
    as [[r w']|] eqn:Hc; [|discriminate Hc].
  exists r, w'. split; [reflexivity|].
  pose proof (check_effort_bounded env_refusing (cfg_retry 3)
                (target_of "http://a.example") w0 r w' Hc) as (Ha & _ & _ & Hs & Hp).
  vm_compute in Hc. injection Hc as <- <-.
  split; [reflexivity|]. split; [reflexivity|]. split; [reflexivity|].
  split; [exact Ha|]. split; [exact Hs|exact Hp].
Defined.


(** *** Recovery after failed attempts *)

Lemma checkHTTP_outcome env cfg url keyword result w :
  new_request env url = None ->
  let out := checkHTTP env cfg url keyword result w in
  (err_of out = None <-> http_reply_ok cfg keyword (http_do env (ops w) url) = true) /\
  ops (world_of out) = S (ops w) /\
  now (world_of out) = now w + latency env (ops w) /\
  cache (world_of out) = cache w /\
  trace (world_of out) = trace w ++ [EvGet url] /\
  (err_of out = None ->
   forall resp, http_do env (ops w) url = DoOK resp ->
                StatusCode (result_of out) = RespStatusCode resp).
Proof.
  intros Hreq. cbn zeta.
  unfold checkHTTP, err_of, world_of, result_of, http_reply_ok, keyword_missing, non_2xx.
  rewrite Hreq.
  destruct (http_do env (ops w) url) as [msg|msg|resp]; simpl.
  - repeat split; try reflexivity; discriminate.
  - destruct (Contains msg "certificate"); simpl; repeat split; try reflexivity; discriminate.
  - destruct (RespBody resp) as [full|msg]; simpl;
      [|repeat split; try reflexivity; discriminate].
    destruct (negb (String.eqb keyword "") &&
              negb (Contains (limit_body (MaxBodySize cfg) full) keyword))%bool; simpl;
      [repeat split; try reflexivity; discriminate|].
    destruct ((RespStatusCode resp <? 200) || (300 <=? RespStatusCode resp))%bool; simpl;
      [repeat split; try reflexivity; discriminate|].
    repeat split; try reflexivity.
    intros _ resp' [= <-].
    destruct (RespTLS resp) as [[|e l]|]; simpl;
      unfold record_certificate;
      repeat match goal with
             | |- context [if ?x then _ else _] => destruct x
             end; simpl;
      destruct (String.eqb keyword ""); reflexivity.
Qed.

Lemma pacing_log (e : Event) (w : World) :
  pacing (log e w) = pacing w ++ List.filter is_pacing [e].
Proof. unfold pacing, log; simpl. apply List.filter_app. Qed.

Lemma retry_loop_recovers env cfg target backoff (k n : nat) retry result w :
  HasPrefix (ToLower (URL target)) "tcp://" = false ->
  new_request env (URL target) = None ->
  (forall i, 0 <= i < MaxRetry cfg -> backoff !! Z.to_nat i = Some (backoff_at i)) ->
  0 <= retry ->
  Z.of_nat n = MaxRetry cfg - retry ->
  (k < n)%nat ->
  (forall i, (i < k)%nat ->
     http_reply_ok cfg (Keyword target) (http_do env (ops w + i)%nat (URL target)) = false) ->
  http_reply_ok cfg (Keyword target) (http_do env (ops w + k)%nat (URL target)) = true ->
  let out := retry_loop env cfg target backoff n retry result w in
  Status out.1 = "success" /\ ErrorMsg out.1 = "" /\ ErrorType out.1 = "" /\
  pacing out.2 = pacing w ++ recover_pacing k retry /\
  ops out.2 = (ops w + k + 1)%nat /\
  (forall resp, http_do env (ops w + k)%nat (URL target) = DoOK resp ->
                StatusCode out.1 = RespStatusCode resp).
Proof.
  intros Hhttp Hreq Hback. revert n retry result w.
  induction k as [|k IH]; intros n retry result w Hr Hn Hk Hfail Hok;
    (destruct n as [|n]; [lia|]); cbn zeta; cbn [retry_loop];
    pose proof (checkHTTP_outcome env cfg (URL target) (Keyword target) result
                  (log (EvAttempt retry) w) Hreq) as Hout;
    cbn zeta in Hout; unfold probe; rewrite Hhttp;
    unfold err_of, world_of, result_of in Hout;
    destruct (checkHTTP env cfg (URL target) (Keyword target) result
                (log (EvAttempt retry) w)) as [[err r1] w1];
    cbn [fst snd] in Hout; destruct Hout as (Hiff & Hops & Hnow & _ & Htr & Hcode);
    simpl in Hiff, Hops, Hcode.
  - rewrite Nat.add_0_r in Hok. destruct (err.1) as [msg|] eqn:He.
    + destruct Hiff as [_ Hiff]. specialize (Hiff Hok). discriminate.
    + simpl. repeat split.
      * unfold pacing. rewrite Htr. simpl. rewrite !List.filter_app. simpl.
        rewrite app_nil_r. reflexivity.
      * lia.
      * intros resp Hresp. rewrite Nat.add_0_r in Hresp. apply (Hcode eq_refl resp Hresp).
  - destruct (err.1) as [msg|] eqn:He.
    + replace (retry =? MaxRetry cfg - 1) with false by (symmetry; apply Z.eqb_neq; lia).
      rewrite Hback by lia. simpl default.
      match goal with
      | |- context [retry_loop _ _ _ _ _ _ ?r ?w2] =>
          specialize (IH n (retry + 1) r w2 ltac:(lia) ltac:(lia) ltac:(lia))
      end.
      cbn zeta in IH. simpl ops in IH. rewrite Hops in IH.
      destruct IH as (Hs & Hm & Hk' & Hp & Ho & Hc).
      * intros i Hi. replace (S (ops w) + i)%nat with (ops w + S i)%nat by lia.
        apply Hfail. lia.
      * replace (S (ops w) + k)%nat with (ops w + S k)%nat by lia. exact Hok.
      * split; [exact Hs|]. split; [exact Hm|]. split; [exact Hk'|]. split; [|split].
        -- etransitivity; [exact Hp|].
           unfold pacing, Sleep; simpl trace. rewrite Htr. simpl.
           rewrite !List.filter_app. simpl. rewrite app_nil_r, <- !app_assoc. reflexivity.
        -- etransitivity; [exact Ho|lia].
        -- intros resp Hresp. apply Hc.
           replace (S (ops w) + k)%nat with (ops w + S k)%nat by lia. exact Hresp.
    + destruct Hiff as [Hiff _]. specialize (Hiff eq_refl).
      rewrite <- (Nat.add_0_r (ops w)) in Hiff. rewrite Hfail in Hiff by lia. discriminate.
Qed.

(** X4. For an HTTP target whose request can be built: when the first
    [k] exchanges of a fresh check are rejected and the next one is
    accepted, with [k] below maxRetry, the check ends with status success
    and empty error fields after exactly [k + 1] attempts and as many
    network operations, having slept [backoff[i]] after each of the [k]
    failed attempts, and reports the status code of the accepted
    response. *)
Theorem check_recovers env cfg target w (k : nat) :
  HasPrefix (ToLower (URL target)) "tcp://" = false ->
  new_request env (URL target) = None ->
  GetCachedResult cfg (URL target) w = None ->
  Z.of_nat k < MaxRetry cfg ->
  (forall i, (i < k)%nat ->
     http_reply_ok cfg (Keyword target) (http_do env (ops w + i)%nat (URL target)) = false) ->
  http_reply_ok cfg (Keyword target) (http_do env (ops w + k)%nat (URL target)) = true ->
  exists r w',
    CheckTarget env cfg target w = Some (r, w') /\
    Status r = "success" /\ ErrorMsg r = "" /\ ErrorType r = "" /\
    pacing w' = pacing w ++ recover_pacing k 0 /\
    ops w' = (ops w + k + 1)%nat /\
    (forall resp, http_do env (ops w + k)%nat (URL target) = DoOK resp ->
                  StatusCode r = RespStatusCode resp).
Proof.
  intros Hhttp Hreq Hmiss Hk Hfail Hok. unfold CheckTarget. rewrite Hmiss.
  destruct (MaxRetry cfg <? 0) eqn:Hneg; [apply Z.ltb_lt in Hneg; lia|].
  pose proof (retry_loop_recovers env cfg target (make_backoff (MaxRetry cfg)) k
                (Z.to_nat (MaxRetry cfg)) 0
                (mkResult (URL target) "" 0 0 "" false "" "" "" (now w)) w Hhttp Hreq
                (fun i Hi => make_backoff_lookup (MaxRetry cfg) i Hi)
                ltac:(lia) ltac:(lia) ltac:(lia) Hfail Hok) as Hrec.
  cbn zeta in Hrec.
  destruct (retry_loop env cfg target (make_backoff (MaxRetry cfg))
              (Z.to_nat (MaxRetry cfg)) 0
              (mkResult (URL target) "" 0 0 "" false "" "" "" (now w)) w) as [r1 w1].
  exists r1, (updateCache r1 w1). split; [reflexivity|]. exact Hrec.
Qed.


Lemma check_recovers_witness :
  let target := target_of "http://a.example" in
  HasPrefix (ToLower (URL target)) "tcp://" = false /\
  Z.of_nat 1 < MaxRetry (cfg_retry 3) /\
  exists r w',
    CheckTarget env_flaky (cfg_retry 3) target w0 = Some (r, w') /\
    Status r = "success" /\ ErrorMsg r = "" /\ ErrorType r = "" /\
    pacing w' = pacing w0 ++ recover_pacing 1 0 /\
    ops w' = (ops w0 + 1 + 1)%nat /\
    (forall resp, http_do env_flaky (ops w0 + 1)%nat (URL target) = DoOK resp ->
                  StatusCode r = RespStatusCode resp).
Proof.
  split; [reflexivity|]. split; [reflexivity|].
  apply (check_recovers env_flaky (cfg_retry 3) (target_of "http://a.example") w0 1);
    try reflexivity.
  intros [|i] Hi; [reflexivity|lia].
Defined.

(** *** Total backoff of a failing check *)

Lemma total_sleep_pacing (evs : list Event) :
  total_sleep (List.filter is_pacing evs) = total_sleep evs.
Proof.
  induction evs as [|e evs IH]; [reflexivity|].
  destruct e; simpl; rewrite ?IH; reflexivity.
Qed.

Lemma total_sleep_failing (n : nat) (retry : Z) :
  0 <= retry -> retry + Z.of_nat n <= 37 ->
  total_sleep (failing_pacing (S n) retry) =
  100 * Millisecond * (2 ^ (retry + Z.of_nat n) - 2 ^ retry).
Proof.
  revert retry. induction n as [|n IH]; intros retry Hr Hn.
  - simpl. rewrite Z.add_0_r. lia.
  - change (failing_pacing (S (S n)) retry)
      with (EvAttempt retry :: EvSleep (backoff_at retry) :: failing_pacing (S n) (retry + 1)).
    cbn [total_sleep]. rewrite IH by lia.
    rewrite backoff_exact by lia.
    replace (retry + 1 + Z.of_nat n) with (retry + Z.of_nat (S n)) by lia.
    rewrite (Z.pow_add_r 2 retry 1) by lia. change (2 ^ 1) with 2.
    assert (0 < 2 ^ retry) by (apply Z.pow_pos_nonneg; lia).
    unfold Millisecond. lia.
Qed.

(** X5. A target whose probe fails at every attempt, checked with
    maxRetry between 1 and 38, is slept on for 100ms * (2^(maxRetry-1) - 1)
    in total. *)
Theorem failing_check_total_backoff env cfg target w :
  always_fails env cfg target ->
  GetCachedResult cfg (URL target) w = None ->
  1 <= MaxRetry cfg <= 38 ->
  exists r w',
    CheckTarget env cfg target w = Some (r, w') /\
    total_sleep (trace w') =
      total_sleep (trace w) + 100 * Millisecond * (2 ^ (MaxRetry cfg - 1) - 1).
Proof.
  intros Hfail Hmiss Hrange.
  pose proof (retry_loop_failing_pacing env cfg target (Z.to_nat (MaxRetry cfg)) 0
                (mkResult (URL target) "" 0 0 "" false "" "" "" (now w)) w Hfail
                ltac:(lia) ltac:(lia)) as Hp.
  unfold CheckTarget. rewrite Hmiss.
  destruct (MaxRetry cfg <? 0) eqn:Hneg; [apply Z.ltb_lt in Hneg; lia|].
  destruct (retry_loop env cfg target (make_backoff (MaxRetry cfg))
              (Z.to_nat (MaxRetry cfg)) 0
              (mkResult (URL target) "" 0 0 "" false "" "" "" (now w)) w) as [r1 w1].
  exists r1, (updateCache r1 w1). split; [reflexivity|].
  simpl in Hp |- *. unfold pacing in Hp.
  rewrite <- (total_sleep_pacing (trace w1)), Hp, total_sleep_app, total_sleep_pacing.
  f_equal.
  destruct (Z.to_nat (MaxRetry cfg)) as [|n] eqn:Hn; [lia|].
  rewrite total_sleep_failing by lia. simpl (2 ^ 0).
  replace (0 + Z.of_nat n) with (MaxRetry cfg - 1) by lia. reflexivity.
Qed.

Lemma failing_check_total_backoff_witness :
  let target := target_of "http://a.example" in
  always_fails env_refusing (cfg_retry 3) target /\
  1 <= MaxRetry (cfg_retry 3) <= 38 /\
  exists r w',
    CheckTarget env_refusing (cfg_retry 3) target w0 = Some (r, w') /\
    total_sleep (trace w') =
      total_sleep (trace w0) + 100 * Millisecond * (2 ^ (MaxRetry (cfg_retry 3) - 1) - 1).
Proof.
  assert (Hfail : always_fails env_refusing (cfg_retry 3) (target_of "http://a.example")).
  { intros result w. vm_compute. discriminate. }
  split; [exact Hfail|]. split; [vm_compute; split; discriminate|].
  apply (failing_check_total_backoff env_refusing (cfg_retry 3)
           (target_of "http://a.example") w0);
    [exact Hfail|reflexivity|vm_compute; split; discriminate].
Defined.


(** *** Classification of results *)

Lemma probe_failure_shape env cfg target result w :
  (forall msg, err_of (probe env cfg target result w) = Some msg ->
     msg <> "" /\ In (kind_of (probe env cfg target result w)) error_kinds) /\
  (err_of (probe env cfg target result w) = None ->
     kind_of (probe env cfg target result w) = "").
Proof.
  split.
  - split_probe; intros msg0 [= <-];
      (split; [discriminate|unfold error_kinds; simpl; tauto]).
  - split_probe; intros H; (reflexivity || discriminate H).
Qed.

Lemma retry_loop_classified env cfg target backoff n retry result w :
  Z.of_nat (S n) = MaxRetry cfg - retry ->
  let r := (retry_loop env cfg target backoff (S n) retry result w).1 in
  (Status r = "success" /\ ErrorMsg r = "" /\ ErrorType r = "") \/
  (Status r = "failed" /\ ErrorMsg r <> "" /\ In (ErrorType r) error_kinds).
Proof.
  revert retry result w. induction n as [|n IH]; intros retry result w Hn;
    cbn zeta; cbn [retry_loop];
    pose proof (probe_failure_shape env cfg target result (log (EvAttempt retry) w)) as Hk;
    unfold err_of, kind_of in Hk;
    destruct (probe env cfg target result (log (EvAttempt retry) w)) as [[err r1] w1];
    simpl in Hk; destruct Hk as [Hk _];
    (destruct (err.1) as [msg|] eqn:He; [specialize (Hk msg eq_refl)|left; repeat split]).
  - replace (retry =? MaxRetry cfg - 1) with true by (symmetry; apply Z.eqb_eq; lia).
    right. simpl. tauto.
  - replace (retry =? MaxRetry cfg - 1) with false by (symmetry; apply Z.eqb_neq; lia).
    apply IH. lia.
Qed.

(** X6. With maxRetry at least 1, the result of a check that missed the
    cache is either a success with empty error message and error kind,
    or a failure with a non-empty message and one of the seven kinds;
    it is stamped with the URL of the target and with the instant the
    check started. *)
Theorem fresh_result_is_classified env cfg target w r w' :
  0 < MaxRetry cfg ->
  GetCachedResult cfg (URL target) w = None ->
  CheckTarget env cfg target w = Some (r, w') ->
  TargetURL r = URL target /\ CheckedAt r = now w /\
  ((Status r = "success" /\ ErrorMsg r = "" /\ ErrorType r = "") \/
   (Status r = "failed" /\ ErrorMsg r <> "" /\ In (ErrorType r) error_kinds)).
Proof.
  intros Hpos Hmiss. unfold CheckTarget. rewrite Hmiss.
  destruct (MaxRetry cfg <? 0) eqn:Hneg; [discriminate|].
  destruct (Z.to_nat (MaxRetry cfg)) as [|n] eqn:Hn; [lia|].
  set (r0 := mkResult (URL target) "" 0 0 "" false "" "" "" (now w)).
  pose proof (retry_loop_classified env cfg target (make_backoff (MaxRetry cfg)) n 0 r0 w
                ltac:(lia)) as Ho.
  pose proof (retry_loop_TargetURL env cfg target (make_backoff (MaxRetry cfg)) (S n) 0 r0 w) as Hu.
  pose proof (retry_loop_CheckedAt env cfg target (make_backoff (MaxRetry cfg)) (S n) 0 r0 w) as Ht.
  destruct (retry_loop env cfg target (make_backoff (MaxRetry cfg)) (S n) 0 r0 w)
    as [r1 w1].
  intros [= <- <-]. simpl in Ho, Hu, Ht. repeat split; assumption.
Qed.

Lemma fresh_result_is_classified_witness :
  exists r w',
    0 < MaxRetry (cfg_retry 3) /\
    CheckTarget env_refusing (cfg_retry 3) (target_of "http://a.example") w0 = Some (r, w') /\
    Status r = "failed" /\ ErrorType r = ErrorTypeNetwork /\
    ErrorMsg r = "HTTP请求失败：connection refused" /\
    TargetURL r = "http://a.example" /\ CheckedAt r = now w0 /\
    ((Status r = "success" /\ ErrorMsg r = "" /\ ErrorType r = "") \/
     (Status r = "failed" /\ ErrorMsg r <> "" /\ In (ErrorType r) error_kinds)).
Proof.
  destruct (CheckTarget env_refusing (cfg_retry 3) (target_of "http://a.example") w0)
    as [[r w']|] eqn:Hc; [|discriminate Hc].
  exists r, w'. split; [reflexivity|]. split; [reflexivity|].
  pose proof (fresh_result_is_classified env_refusing (cfg_retry 3)
                (target_of "http://a.example") w0 r w' eq_refl eq_refl Hc) as Hcl.
  vm_compute in Hc. injection Hc as <- <-.
  split; [reflexivity|]. split; [reflexivity|]. split; [reflexivity|]. exact Hcl.
Defined.

(** *** TCP targets *)

Lemma checkTCP_fields env cfg url result w :
  let out := checkTCP env cfg url result w in
  (no_http_fields result -> no_http_fields (result_of out)) /\
  List.filter is_get (trace (world_of out)) = List.filter is_get (trace w).
Proof.
  cbn zeta. unfold checkTCP, result_of, world_of, no_http_fields.
  repeat match goal with
         | |- context [match ?x with _ => _ end] => destruct x
         end; simpl; rewrite ?List.filter_app; simpl; rewrite ?app_nil_r;
    (split; [tauto|reflexivity]).
Qed.

Lemma retry_loop_tcp env cfg target backoff n retry result w :
  HasPrefix (ToLower (URL target)) "tcp://" = true ->
  no_http_fields result ->
  no_http_fields (retry_loop env cfg target backoff n retry result w).1 /\
  List.filter is_get (trace (retry_loop env cfg target backoff n retry result w).2) =
    List.filter is_get (trace w).
Proof.
  intros Htcp. revert retry result w.
  induction n as [|n IH]; intros retry result w Hr; [split; [exact Hr|reflexivity]|].
  cbn [retry_loop]. unfold probe. rewrite Htcp.
  pose proof (checkTCP_fields env cfg (URL target) result (log (EvAttempt retry) w)) as Hf.
  cbn zeta in Hf. unfold result_of, world_of in Hf.
  destruct (checkTCP env cfg (URL target) result (log (EvAttempt retry) w)) as [[err r1] w1].
  cbn [fst snd] in Hf. destruct Hf as (Hf & Hg). specialize (Hf Hr).
  simpl in Hg. rewrite List.filter_app in Hg. simpl in Hg. rewrite app_nil_r in Hg.
  destruct (err.1) as [msg|].
  - destruct (retry =? MaxRetry cfg - 1).
    + match goal with
      | |- context [retry_loop _ _ _ _ _ _ ?r ?w2] =>
          destruct (IH (retry + 1) r w2) as (H1 & H2); [exact Hf|]
      end.
      split; [exact H1|]. etransitivity; [exact H2|exact Hg].
    + match goal with
      | |- context [retry_loop _ _ _ _ _ _ ?r ?w2] =>
          destruct (IH (retry + 1) r w2) as (H1 & H2); [exact Hf|]
      end.
      split; [exact H1|]. etransitivity; [exact H2|].
      simpl. rewrite List.filter_app. simpl. rewrite app_nil_r. exact Hg.
  - split; [exact Hf|exact Hg].
Qed.

(** X7. The result of a fresh check of a target whose URL starts with
    "tcp://" in any letter case carries no HTTP data (status code 0, no
    certificate text, no warning, keyword not matched), and the check
    sends no HTTP request. *)
Theorem tcp_check_has_no_http_fields env cfg target w r w' :
  HasPrefix (ToLower (URL target)) "tcp://" = true ->
  GetCachedResult cfg (URL target) w = None ->
  CheckTarget env cfg target w = Some (r, w') ->
  no_http_fields r /\
  List.filter is_get (trace w') = List.filter is_get (trace w).
Proof.
  intros Htcp Hmiss. unfold CheckTarget. rewrite Hmiss.
  destruct (MaxRetry cfg <? 0); [discriminate|].
  pose proof (retry_loop_tcp env cfg target (make_backoff (MaxRetry cfg))
                (Z.to_nat (MaxRetry cfg)) 0
                (mkResult (URL target) "" 0 0 "" false "" "" "" (now w)) w Htcp) as Hl.
  destruct (retry_loop env cfg target (make_backoff (MaxRetry cfg))
              (Z.to_nat (MaxRetry cfg)) 0
              (mkResult (URL target) "" 0 0 "" false "" "" "" (now w)) w) as [r1 w1].
  intros [= <- <-]. apply Hl. repeat split.
Qed.

Lemma tcp_check_has_no_http_fields_witness :
  exists r w',
    HasPrefix (ToLower "tcp://10.0.0.1:443") "tcp://" = true /\
    CheckTarget (env_answering (mkResponse 200 (BodyOK "") None)) (cfg_retry 3)
      (target_of "tcp://10.0.0.1:443") w0 = Some (r, w') /\
    Status r = "success" /\ trace w' = [EvAttempt 0; EvDial "10.0.0.1:443"] /\
    no_http_fields r /\
    List.filter is_get (trace w') = List.filter is_get (trace w0).
Proof.
  destruct (CheckTarget (env_answering (mkResponse 200 (BodyOK "") None)) (cfg_retry 3)
              (target_of "tcp://10.0.0.1:443") w0) as [[r w']|] eqn:Hc; [|discriminate Hc].
  exists r, w'. split; [reflexivity|]. split; [reflexivity|].
  pose proof (tcp_check_has_no_http_fields
                (env_answering (mkResponse 200 (BodyOK "") None)) (cfg_retry 3)
                (target_of "tcp://10.0.0.1:443") w0 r w' eq_refl eq_refl Hc) as Hn.
  vm_compute in Hc. injection Hc as <- <-.
  split; [reflexivity|]. split; [reflexivity|]. exact Hn.
Defined.


(** *** Addresses *)

Lemma LastIndexByte_None (s : string) (c : ascii) :
  IndexByte s c = None -> LastIndexByte s c = None.
Proof.
  induction s as [|a s IH]; simpl; [reflexivity|].
  destruct (Ascii.eqb a c); [discriminate|].
  destruct (IndexByte s c); [discriminate|]. intros _. rewrite IH; reflexivity.
Qed.

Lemma prefix_nil (s : string) : String.prefix "" s = true.
Proof. destruct s; reflexivity. Qed.

Lemma TrimPrefix_tcp (addr : string) : TrimPrefix ("tcp://" +:+ addr) "tcp://" = addr.
Proof.
  unfold TrimPrefix, HasPrefix. simpl. rewrite prefix_nil.
  rewrite Nat.sub_0_r. apply substring_all.
Qed.

(** X8. A "tcp://" URL whose address has no colon, the empty address
    included, is rejected with kind [invalid] before anything is dialled:
    the result and the world are left as they were. *)
Theorem tcp_without_port_is_invalid env cfg addr result w :
  IndexByte addr ":" = None ->
  exists msg,
    checkTCP env cfg ("tcp://" +:+ addr) result w = (fail msg ErrorTypeInvalid, result, w).
Proof.
  intros Hno. unfold checkTCP. rewrite TrimPrefix_tcp.
  destruct (String.eqb addr "") eqn:He; [eexists; reflexivity|].
  unfold SplitHostPort. rewrite (LastIndexByte_None _ _ Hno). eexists. reflexivity.
Qed.

Lemma tcp_without_port_is_invalid_witness :
  IndexByte "db.internal" ":" = None /\
  exists msg,
    checkTCP (env_answering (mkResponse 200 (BodyOK "") None)) (cfg_retry 3)
      ("tcp://" +:+ "db.internal") (blank "tcp://db.internal" 0) w0
    = (fail msg ErrorTypeInvalid, blank "tcp://db.internal" 0, w0).
Proof.
  split; [reflexivity|].
  apply (tcp_without_port_is_invalid
           (env_answering (mkResponse 200 (BodyOK "") None)) (cfg_retry 3) "db.internal").
  reflexivity.
Defined.

Lemma plain_no_special (s : string) :
  plain s = true ->
  IndexByte s ":" = None /\ IndexByte s "[" = None /\ IndexByte s "]" = None.
Proof.
  induction s as [|a s IH]; simpl; [tauto|].
  intros H. apply andb_prop in H as [H Hs]. apply andb_prop in H as [H H3].
  apply andb_prop in H as [H1 H2].
  apply negb_true_iff in H1, H2, H3. rewrite H1, H2, H3.
  destruct (IH Hs) as (-> & -> & ->). tauto.
Qed.

Lemma IndexByte_app_None (a b : string) (c : ascii) :
  IndexByte a c = None -> IndexByte b c = None -> IndexByte (a +:+ b) c = None.
Proof.
  intros Ha Hb. induction a as [|x a IH]; simpl in *; [exact Hb|].
  destruct (Ascii.eqb x c); [discriminate|].
  destruct (IndexByte a c); [discriminate|]. rewrite IH; reflexivity.
Qed.

Lemma LastIndexByte_colon (host port : string) :
  IndexByte port ":" = None ->
  LastIndexByte (host +:+ String ":" port) ":" = Some (String.length host).
Proof.
  intros Hp. induction host as [|x host IH]; simpl.
  - rewrite (LastIndexByte_None _ _ Hp). reflexivity.
  - rewrite IH. reflexivity.
Qed.

Lemma substring_app_l (a b : string) :
  String.substring 0 (String.length a) (a +:+ b) = a.
Proof.
  induction a as [|x a IH]; simpl; [destruct b; reflexivity|]. rewrite IH. reflexivity.
Qed.

Lemma substring_app_r (a b : string) (m : nat) :
  String.substring (String.length a) m (a +:+ b) = String.substring 0 m b.
Proof. induction a as [|x a IH]; simpl; [reflexivity|exact IH]. Qed.

Lemma length_append (a b : string) :
  String.length (a +:+ b) = (String.length a + String.length b)%nat.
Proof. induction a as [|x a IH]; simpl; [reflexivity|]. rewrite IH. reflexivity. Qed.

Lemma SplitHostPort_plain (host port : string) :
  plain host = true -> plain port = true ->
  SplitHostPort (host +:+ String ":" port) = inl (host, port).
Proof.
  intros Hh Hp.
  destruct (plain_no_special host Hh) as (Hh1 & Hh2 & Hh3).
  destruct (plain_no_special port Hp) as (Hp1 & Hp2 & Hp3).
  unfold SplitHostPort. rewrite (LastIndexByte_colon host port Hp1).
  assert (Hbr : HasPrefix (host +:+ String ":" port) "[" = false).
  { unfold HasPrefix. destruct host as [|x host]; [reflexivity|].
    change (String.prefix "[" (String x host +:+ String ":" port))
      with (if ascii_dec "[" x then String.prefix "" (host +:+ String ":" port) else false).
    destruct (ascii_dec "[" x) as [<-|_]; [discriminate Hh2|reflexivity]. }
  rewrite Hbr. unfold slice, from. rewrite !Nat.sub_0_r.
  rewrite substring_app_l, Hh1, substring_all.
  rewrite (IndexByte_app_None host (String ":" port) "[" Hh2)
    by (simpl; rewrite Hp2; reflexivity).
  rewrite (IndexByte_app_None host (String ":" port) "]" Hh3)
    by (simpl; rewrite Hp3; reflexivity).
  f_equal. f_equal.
  rewrite length_append. simpl String.length.
  replace (String.length host + S (String.length port) - S (String.length host))%nat
    with (String.length port) by lia.
  change (S (String.length host)) with (1 + String.length host)%nat.
  assert (Hshift : forall a m, String.substring (S (String.length a)) m (a +:+ String ":" port)
                               = String.substring 0 m port).
  { intros a m. induction a as [|y a IHa]; simpl; [reflexivity|exact IHa]. }
  simpl. rewrite Hshift. apply substring_all.
Qed.

(** X9. For an address host:port whose host and port contain neither a
    colon nor a square bracket and whose port resolves, the TCP probe of
    "tcp://host:port" dials host:port exactly once, and its outcome is
    the dial's: success with status code 0, kind [timeout] for a timeout
    and kind [network] for any other dial error, the result being left
    untouched on failure. *)
Theorem tcp_probe_follows_dial env cfg host port p result w :
  plain host = true -> plain port = true ->
  LookupPort env port = Some p ->
  let address := host +:+ String ":" port in
  let out := checkTCP env cfg ("tcp://" +:+ address) result w in
  world_of out = net_op env (EvDial address) w /\
  match dial env (ops w) address with
  | DialOK => err_of out = None /\ kind_of out = "" /\ result_of out = set_StatusCode result 0
  | DialTimeout _ => err_of out <> None /\ kind_of out = ErrorTypeTimeout /\ result_of out = result
  | DialFailed _ => err_of out <> None /\ kind_of out = ErrorTypeNetwork /\ result_of out = result
  end.
Proof.
  intros Hh Hp Hport. cbn zeta. unfold checkTCP. rewrite TrimPrefix_tcp.
  assert (Hne : String.eqb (host +:+ String ":" port) "" = false).
  { destruct host; reflexivity. }
  rewrite Hne, (SplitHostPort_plain host port Hh Hp), Hport.
  destruct (dial env (ops w) (host +:+ String ":" port));
    unfold world_of, err_of, kind_of, result_of; simpl; repeat split; discriminate.
Qed.

Lemma tcp_probe_follows_dial_witness :
  let out := checkTCP env_refusing (cfg_retry 3) ("tcp://" +:+ ("10.0.0.1" +:+ String ":" "443"))
               (blank "tcp://10.0.0.1:443" 0) w0 in
  plain "10.0.0.1" = true /\ plain "443" = true /\
  LookupPort env_refusing "443" = Some 443 /\
  world_of out = net_op env_refusing (EvDial "10.0.0.1:443") w0 /\
  kind_of out = ErrorTypeNetwork.
Proof.
  split; [reflexivity|]. split; [reflexivity|]. split; [reflexivity|].
  destruct (tcp_probe_follows_dial env_refusing (cfg_retry 3) "10.0.0.1" "443" 443
              (blank "tcp://10.0.0.1:443" 0) w0 eq_refl eq_refl eq_refl) as (Hw & Hd).
  split; [exact Hw|]. simpl in Hd. apply Hd.
Defined.

(** *** Keyword and body limit *)

Lemma Contains_empty (kw : string) : kw <> "" -> Contains "" kw = false.
Proof. destruct kw; [congruence|reflexivity]. Qed.

(** X10. With a body limit of zero (or less) no byte of the response is
    read, so an HTTP target with a non-empty keyword fails at every
    attempt, whatever the server answers; a fresh check of it with
    maxRetry at least 1 ends failed. *)
Theorem keyword_needs_body env cfg target w :
  MaxBodySize cfg <= 0 ->
  Keyword target <> "" ->
  HasPrefix (ToLower (URL target)) "tcp://" = false ->
  GetCachedResult cfg (URL target) w = None ->
  0 < MaxRetry cfg ->
  always_fails env cfg target /\
  exists r w', CheckTarget env cfg target w = Some (r, w') /\ Status r = "failed".
Proof.
  intros Hlimit Hkw Hhttp Hmiss Hpos.
  assert (Hfail : always_fails env cfg target).
  { intros result w1. unfold probe. rewrite Hhttp.
    unfold checkHTTP, err_of, limit_body.
    replace (Z.to_nat (MaxBodySize cfg)) with 0%nat by lia.
    assert (Hsub : forall s, String.substring 0 0 s = "") by (intros [|? ?]; reflexivity).
    assert (Hne : String.eqb (Keyword target) "" = false)
      by (apply String.eqb_neq; exact Hkw).
    destruct (new_request env (URL target)); [discriminate|].
    destruct (http_do env (ops w1) (URL target)) as [m|m|resp]; simpl; try discriminate.
    - destruct (Contains m "certificate"); discriminate.
    - destruct (RespBody resp); simpl; [|discriminate].
      rewrite Hsub, Hne, (Contains_empty _ Hkw). simpl. discriminate. }
  split; [exact Hfail|].
  unfold CheckTarget. rewrite Hmiss.
  destruct (MaxRetry cfg <? 0) eqn:Hneg; [apply Z.ltb_lt in Hneg; lia|].
  destruct (Z.to_nat (MaxRetry cfg)) as [|n] eqn:Hn; [lia|].
  pose proof (retry_loop_failing_status env cfg target (make_backoff (MaxRetry cfg)) n 0
                (mkResult (URL target) "" 0 0 "" false "" "" "" (now w)) w Hfail
                ltac:(lia)) as Hs.
  destruct (retry_loop env cfg target (make_backoff (MaxRetry cfg)) (S n) 0
              (mkResult (URL target) "" 0 0 "" false "" "" "" (now w)) w) as [r1 w1].
  exists r1, (updateCache r1 w1). split; [reflexivity|exact Hs].
Qed.


Lemma keyword_needs_body_witness :
  let cfg := mkConfig (10 * Second) (5 * Second) 3 0 (30 * Second) in
  let target := mkTarget "http://a.example" "ok" true "" in
  let env := env_answering (mkResponse 200 (BodyOK "ok") None) in
  MaxBodySize cfg <= 0 /\ Keyword target <> "" /\ 0 < MaxRetry cfg /\
  always_fails env cfg target /\
  exists r w', CheckTarget env cfg target w0 = Some (r, w') /\ Status r = "failed".
Proof.
  split; [vm_compute; discriminate|]. split; [discriminate|]. split; [reflexivity|].
  apply (keyword_needs_body (env_answering (mkResponse 200 (BodyOK "ok") None))
           (mkConfig (10 * Second) (5 * Second) 3 0 (30 * Second))
           (mkTarget "http://a.example" "ok" true "") w0);
    first [reflexivity | discriminate | (vm_compute; discriminate)].
Defined.


End CheckerExtra.

(** ** Invariants of the limiter, and its use by the handler *)

Module LimiterInvariants.
Import Limiter LimiterProofs LimiterExtra.

(** *** Waking, pointwise *)

Lemma lookup_wake (w u : nat) (ths : list thread) :
  wake w ths !! u =
  if decide (u = w) then (fun th => set_pc th PWoken) <$> ths !! u else ths !! u.
Proof.
  unfold wake. destruct (ths !! w) as [th|] eqn:Hw.
  - case_decide as Hu.
    + subst u. rewrite Hw. simpl. apply list_lookup_insert_eq.
      eapply lookup_lt_Some; eassumption.
    + apply list_lookup_insert_ne. congruence.
  - case_decide as Hu; [subst u; rewrite Hw|]; reflexivity.
Qed.

Lemma signal_cases (k : nat) (ws ws' : list nat) (ths ths' : list thread) :
  signal k ws ths = (ws', ths') ->
  (ws = [] /\ ws' = [] /\ ths' = ths) \/
  (exists i w, ws !! i = Some w /\ ws' = delete i ws /\ ths' = wake w ths).
Proof.
  unfold signal. destruct (ws !! k) as [w|] eqn:Hk.
  - intros [= <- <-]. right. exists k, w. auto.
  - destruct ws as [|w ws0]; intros [= <- <-]; [left; auto|].
    right. exists 0, w. auto.
Qed.

Lemma lookup_broadcast (ws : list nat) (u : nat) (ths : list thread) :
  broadcast ws ths !! u =
  if decide (u ∈ ws) then (fun th => set_pc th PWoken) <$> ths !! u else ths !! u.
Proof.
  unfold broadcast. induction ws as [|w ws IH]; cbn [foldr].
  - destruct (decide (u ∈ [])) as [H|H]; [apply elem_of_nil in H; contradiction|reflexivity].
  - rewrite lookup_wake, IH. clear IH.
    destruct (decide (u ∈ w :: ws)) as [Hin|Hnin];
      destruct (decide (u = w)) as [Heq|Hne];
      destruct (decide (u ∈ ws)) as [Hin'|Hnin']; try reflexivity.
    + destruct (ths !! u); reflexivity.
    + apply elem_of_cons in Hin as [?|?]; contradiction.
    + exfalso. apply Hnin, elem_of_cons. auto.
    + exfalso. apply Hnin, elem_of_cons. auto.
    + exfalso. apply Hnin, elem_of_cons. auto.
Qed.

(** A sum over the goroutines, after one of them has changed. *)
Lemma sum_insert (f : thread -> nat) (ths : list thread) (t : nat) (th th' : thread) :
  ths !! t = Some th ->
  sum_list (f <$> <[t := th']> ths) + f th = sum_list (f <$> ths) + f th'.
Proof.
  revert t. induction ths as [|a ths IH]; intros t Hl; [discriminate|].
  destruct t as [|t]; simpl in *.
  - injection Hl as ->. lia.
  - specialize (IH t Hl). unfold fmap in IH. lia.
Qed.

Lemma sum_insert_same (f : thread -> nat) (ths : list thread) (t : nat) (th th' : thread) :
  ths !! t = Some th -> f th' = f th ->
  sum_list (f <$> <[t := th']> ths) = sum_list (f <$> ths).
Proof.
  intros Hl Hf. pose proof (sum_insert f ths t th th' Hl). lia.
Qed.

(** *** The wait list *)

Lemma wl_insert ws ths t th th' :
  wl ws ths -> ths !! t = Some th ->
  th_pc th <> PParked -> th_pc th' <> PParked ->
  wl ws (<[t := th']> ths).
Proof.
  intros [Hnd Hwl] Hl Hp Hp'. split; [assumption|]. intros u.
  destruct (decide (u = t)) as [->|Hne].
  - rewrite list_lookup_insert_eq by (eapply lookup_lt_Some; eassumption).
    rewrite Hwl, Hl. simpl. split; intros [= H]; congruence.
  - rewrite list_lookup_insert_ne by congruence. apply Hwl.
Qed.

Lemma wl_park ws ths t th :
  wl ws ths -> ths !! t = Some th -> th_pc th <> PParked ->
  wl (ws ++ [t]) (<[t := set_pc th PParked]> ths).
Proof.
  intros [Hnd Hwl] Hl Hp.
  assert (Hnot : t ∉ ws).
  { intros Hin. apply Hwl in Hin. rewrite Hl in Hin. simpl in Hin. congruence. }
  split.
  - apply NoDup_app. split; [assumption|]. split; [|apply NoDup_singleton].
    intros x Hx Hx'. apply list_elem_of_singleton in Hx'. subst x. contradiction.
  - intros u. rewrite elem_of_app, list_elem_of_singleton.
    destruct (decide (u = t)) as [->|Hne].
    + rewrite list_lookup_insert_eq by (eapply lookup_lt_Some; eassumption).
      simpl. split; auto.
    + rewrite list_lookup_insert_ne by congruence. rewrite Hwl. split; [|auto].
      intros [H|H]; [assumption|contradiction].
Qed.

Lemma wl_wake ws ths i w :
  wl ws ths -> ws !! i = Some w -> wl (delete i ws) (wake w ths).
Proof.
  intros [Hnd Hwl] Hi.
  pose proof (delete_Permutation ws i w Hi) as Hperm.
  assert (Hnd' : NoDup (w :: delete i ws)) by (rewrite <- Hperm; exact Hnd).
  apply NoDup_cons in Hnd' as [Hw Hnd'].
  split; [assumption|]. intros u. rewrite lookup_wake.
  case_decide as Hu.
  - subst u. split; [contradiction|].
    destruct (ths !! w); simpl; intros [= H].
  - rewrite <- Hwl. rewrite Hperm at 2. rewrite elem_of_cons.
    split; [auto|]. intros [H|H]; [contradiction|assumption].
Qed.

Lemma wl_signal k ws ths ws' ths' :
  wl ws ths -> signal k ws ths = (ws', ths') -> wl ws' ths'.
Proof.
  intros Hwl Hs. apply signal_cases in Hs as [(-> & -> & ->)|(i & w & Hi & -> & ->)].
  - assumption.
  - eapply wl_wake; eassumption.
Qed.

(** A signal leaves every goroutine that is not parked as it is. *)
Lemma signal_frame k ws ths ws' ths' t th :
  wl ws ths -> signal k ws ths = (ws', ths') ->
  ths !! t = Some th -> th_pc th <> PParked -> ths' !! t = Some th.
Proof.
  intros [Hnd Hwl] Hs Hl Hp.
  apply signal_cases in Hs as [(-> & -> & ->)|(i & w & Hi & -> & ->)]; [assumption|].
  rewrite lookup_wake. case_decide as Hu; [|assumption]. subst w.
  apply list_elem_of_lookup_2, Hwl in Hi. rewrite Hl in Hi. simpl in Hi. congruence.
Qed.

Lemma wl_signal_move k ws ths ws' ths' t th th' :
  wl ws ths -> signal k ws ths = (ws', ths') ->
  ths !! t = Some th -> th_pc th <> PParked -> th_pc th' <> PParked ->
  wl ws' (<[t := th']> ths').
Proof.
  intros Hwl Hs Hl Hp Hp'.
  apply (wl_insert ws' ths' t th th'); try assumption.
  - eapply wl_signal; eassumption.
  - eapply signal_frame; eassumption.
Qed.

Lemma wl_broadcast ws ths : wl ws ths -> wl [] (broadcast ws ths).
Proof.
  intros [Hnd Hwl]. split; [apply NoDup_nil; exact I|]. intros u.
  rewrite lookup_broadcast. split; [intros H%elem_of_nil; contradiction|].
  case_decide as Hu.
  - destruct (ths !! u); simpl; intros [= H].
  - intros H. apply Hwl in H. contradiction.
Qed.

Lemma unwind_pc (th : thread) (p : pc) :
  unwind th p = set_pc th p \/ unwind th p = set_pc th PFatal.
Proof. unfold unwind. destruct (th_depth th); auto. Qed.

Lemma unwind_not_parked (th : thread) (p : pc) :
  p <> PParked -> th_pc (unwind th p) <> PParked.
Proof. intros Hp. destruct (unwind_pc th p) as [-> | ->]; simpl; congruence. Qed.

Ltac wl_side :=
  eauto; try congruence; try (simpl; discriminate);
  try (apply unwind_not_parked; discriminate).

Lemma waitlist_step (l : label) (st st' : state) :
  waitlist_ok st -> step l st = Some st' -> waitlist_ok st'.
Proof.
  unfold waitlist_ok, pc_of. intros Hwl. change (wl (waiters st) (threads st)) in Hwl.
  change (step l st = Some st' -> wl (waiters st') (threads st')).
  destruct l as [t k|]; simpl.
  - unfold step_thread. destruct (threads st !! t) as [th|] eqn:Hl; [|discriminate].
    destruct (th_pc th) eqn:Hpc; try discriminate.
    + destruct (mu st); [discriminate|]. destruct (closed st).
      * intros [= <-]; simpl. eapply wl_insert; wl_side.
      * destruct (signal k (waiters st) (threads st)) as [ws ths] eqn:Hs.
        intros [= <-]; simpl. eapply wl_signal_move; wl_side.
    + destruct (sem_len st =? sem_cap st)%nat; intros [= <-]; simpl.
      * eapply wl_park; wl_side.
      * eapply wl_insert; wl_side.
    + destruct (mu st); [discriminate|]. intros [= <-]; simpl.
      eapply wl_insert; wl_side.
    + destruct (heap_Pop (pq st)) as [[x q']|]; intros [= <-]; simpl;
        eapply wl_insert; wl_side.
    + destruct (sem_closed st).
      * intros [= <-]; simpl. eapply wl_insert; wl_side.
      * destruct (sem_len st <? sem_cap st)%nat; [|discriminate].
        intros [= <-]; simpl. eapply wl_insert; wl_side.
    + destruct (task_ptr x =? t)%nat; intros [= <-]; simpl; eapply wl_insert; wl_side.
    + destruct (sem_len st) as [|n].
      * destruct (sem_closed st); [|discriminate]. intros [= <-]; simpl.
        eapply wl_insert; wl_side.
      * intros [= <-]; simpl. eapply wl_insert; wl_side.
    + destruct (mu st); [discriminate|].
      destruct (signal k (waiters st) (threads st)) as [ws ths] eqn:Hs.
      intros [= <-]; simpl. eapply wl_signal_move; wl_side.
  - unfold step_close. destruct (mu st); [discriminate|].
    destruct (sem_closed st); intros [= <-]; simpl; [assumption|].
    apply wl_broadcast. assumption.
Qed.

Lemma waitlist_exec (sched : list label) (st : state) :
  waitlist_ok st -> waitlist_ok (exec sched st).
Proof.
  revert st. induction sched as [|l sched IH]; intros st H; simpl; [assumption|].
  apply IH. destruct (step l st) as [st'|] eqn:Hs; simpl; [|assumption].
  eapply waitlist_step; eassumption.
Qed.

Lemma waitlist_fresh (st : state) :
  waiters st = [] -> (forall t th, threads st !! t = Some th -> th_pc th = PEnter) ->
  waitlist_ok st.
Proof.
  intros Hw Hf. unfold waitlist_ok, pc_of. rewrite Hw. split; [apply NoDup_nil; exact I|].
  intros u. split; [intros H%elem_of_nil; contradiction|].
  destruct (threads st !! u) as [th|] eqn:Hl; simpl; [|discriminate].
  rewrite (Hf u th Hl). discriminate.
Qed.

(** *** The mutex *)

Lemma mx_wake m w ths : mx m ths -> mx m (wake w ths).
Proof.
  intros H u th. rewrite lookup_wake. case_decide as Hu; [|apply H].
  destruct (ths !! u) as [th0|]; simpl; [|discriminate].
  intros [= <-]. discriminate.
Qed.

Lemma mx_signal m k ws ths ws' ths' :
  mx m ths -> signal k ws ths = (ws', ths') -> mx m ths'.
Proof.
  intros H Hs. apply signal_cases in Hs as [(-> & -> & ->)|(i & w & Hi & -> & ->)];
    [assumption|apply mx_wake, H].
Qed.

Lemma mx_broadcast m ws ths : mx m ths -> mx m (broadcast ws ths).
Proof.
  intros H. unfold broadcast. induction ws as [|w ws IH]; simpl; [assumption|].
  apply mx_wake, IH.
Qed.

Lemma mx_idle m ths t th' :
  mx m ths -> holds_mu th' = false -> mx m (<[t := th']> ths).
Proof.
  intros H Hh u th Hl Hu. destruct (decide (u = t)) as [->|Hne].
  - apply list_lookup_insert_Some in Hl as [(_ & <- & _)|(? & _)]; congruence.
  - rewrite list_lookup_insert_ne in Hl by congruence. eapply H; eassumption.
Qed.

Lemma mx_acquire ths t th' : mx None ths -> mx (Some t) (<[t := th']> ths).
Proof.
  intros H u th Hl Hu. destruct (decide (u = t)) as [->|Hne]; [reflexivity|].
  rewrite list_lookup_insert_ne in Hl by congruence.
  specialize (H u th Hl Hu). discriminate.
Qed.

Lemma mx_keep m ths t th th' :
  mx m ths -> ths !! t = Some th -> holds_mu th = true -> mx m (<[t := th']> ths).
Proof.
  intros H Hl Hh u thu Hlu Hu. destruct (decide (u = t)) as [->|Hne].
  - eapply H; eassumption.
  - rewrite list_lookup_insert_ne in Hlu by congruence. eapply H; eassumption.
Qed.

Lemma mx_release m ths t th th' :
  mx m ths -> ths !! t = Some th -> holds_mu th = true -> holds_mu th' = false ->
  mx None (<[t := th']> ths).
Proof.
  intros H Hl Hh Hh' u thu Hlu Hu. destruct (decide (u = t)) as [->|Hne].
  - apply list_lookup_insert_Some in Hlu as [(_ & <- & _)|(? & _)]; congruence.
  - rewrite list_lookup_insert_ne in Hlu by congruence.
    pose proof (H u thu Hlu Hu). pose proof (H t th Hl Hh). congruence.
Qed.

Lemma unwind_idle (th : thread) (p : pc) :
  holds_mu (set_pc th p) = false -> holds_mu (unwind th p) = false.
Proof. intros H. destruct (unwind_pc th p) as [-> | ->]; [assumption|reflexivity]. Qed.

Lemma holds_of_pc (th : thread) :
  match th_pc th with PLoop | PPop | PSend _ | PCompare _ => True | _ => False end ->
  holds_mu th = true.
Proof. unfold holds_mu. destruct (th_pc th); simpl; tauto. Qed.

Ltac mx_side :=
  eauto;
  try (apply unwind_idle; reflexivity);
  try reflexivity;
  try (apply holds_of_pc; match goal with H : th_pc _ = _ |- _ => rewrite H; exact I end).

Lemma mutex_step (l : label) (st st' : state) :
  mutex_ok st -> step l st = Some st' -> mutex_ok st'.
Proof.
  unfold mutex_ok. intros Hm. change (mx (mu st) (threads st)) in Hm.
  change (step l st = Some st' -> mx (mu st') (threads st')).
  destruct l as [t k|]; simpl.
  - unfold step_thread. destruct (threads st !! t) as [th|] eqn:Hl; [|discriminate].
    destruct (th_pc th) eqn:Hpc; try discriminate.
    + destruct (mu st) eqn:Hmu; [discriminate|]. destruct (closed st).
      * intros [= <-]; simpl. apply mx_idle; mx_side.
      * destruct (signal k (waiters st) (threads st)) as [ws ths] eqn:Hs.
        intros [= <-]; simpl. apply mx_acquire. eapply mx_signal; eassumption.
    + destruct (sem_len st =? sem_cap st)%nat; intros [= <-]; simpl.
      * eapply mx_release; mx_side.
      * eapply mx_keep; mx_side.
    + destruct (mu st) eqn:Hmu; [discriminate|]. intros [= <-]; simpl.
      apply mx_acquire. assumption.
    + destruct (heap_Pop (pq st)) as [[x q']|]; intros [= <-]; simpl.
      * eapply mx_keep; mx_side.
      * eapply mx_release; mx_side.
    + destruct (sem_closed st).
      * intros [= <-]; simpl. eapply mx_release; mx_side.
      * destruct (sem_len st <? sem_cap st)%nat; [|discriminate].
        intros [= <-]; simpl. eapply mx_keep; mx_side.
    + destruct (task_ptr x =? t)%nat; intros [= <-]; simpl.
      * eapply mx_release; mx_side.
      * eapply mx_keep; mx_side.
    + destruct (sem_len st) as [|n].
      * destruct (sem_closed st); [|discriminate]. intros [= <-]; simpl.
        apply mx_idle; mx_side.
      * intros [= <-]; simpl. apply mx_idle; mx_side.
    + destruct (mu st) eqn:Hmu; [discriminate|].
      destruct (signal k (waiters st) (threads st)) as [ws ths] eqn:Hs.
      intros [= <-]; simpl. apply mx_idle; [|reflexivity].
      eapply mx_signal; eassumption.
  - unfold step_close. destruct (mu st) eqn:Hmu; [discriminate|].
    destruct (sem_closed st); intros [= <-]; simpl; [assumption|].
    apply mx_broadcast. assumption.
Qed.

Lemma mutex_exec (sched : list label) (st : state) :
  mutex_ok st -> mutex_ok (exec sched st).
Proof.
  revert st. induction sched as [|l sched IH]; intros st H; simpl; [assumption|].
  apply IH. destruct (step l st) as [st'|] eqn:Hs; simpl; [|assumption].
  eapply mutex_step; eassumption.
Qed.

(** The initial state: nobody has started. *)
Lemma lookup_fresh (prios : list TaskPriority) (t : nat) (th : thread) :
  (fresh <$> prios) !! t = Some th -> th_pc th = PEnter /\ th_depth th = 0.
Proof.
  rewrite list_lookup_fmap. destruct (prios !! t); simpl; [|discriminate].
  intros [= <-]. split; reflexivity.
Qed.

Lemma init_ok (max : Z) (prios : list TaskPriority) (st0 : state) :
  NewConcurrencyLimiter max (fresh <$> prios) = Some st0 ->
  waitlist_ok st0 /\ mutex_ok st0 /\
  pq st0 = [] /\ threads st0 = fresh <$> prios /\ mu st0 = None /\
  closed st0 = false /\ sem_closed st0 = false /\ sem_len st0 = 0 /\
  sem_cap st0 = Z.to_nat max.
Proof.
  unfold NewConcurrencyLimiter. destruct (max <? 0)%Z; [discriminate|].
  intros [= <-]. simpl. split; [|split; [|repeat split]].
  - apply waitlist_fresh; [reflexivity|]. simpl. intros t th H.
    apply lookup_fresh in H. tauto.
  - intros u th Hl Hh. simpl in Hl. apply lookup_fresh in Hl as [Hpc Hd].
    unfold holds_mu in Hh. rewrite Hpc, Hd in Hh. discriminate.
Qed.

(** *** Queue accounting *)

Lemma wake_sum (f : thread -> nat) (w : nat) (ths : list thread) :
  (forall th, ths !! w = Some th -> f (set_pc th PWoken) = f th) ->
  sum_list (f <$> wake w ths) = sum_list (f <$> ths).
Proof.
  intros H. unfold wake. destruct (ths !! w) as [th|] eqn:Hw; [|reflexivity].
  eapply sum_insert_same; [eassumption|]. apply H. reflexivity.
Qed.

Lemma queued_woken (th : thread) :
  parked_or_woken th -> queued (set_pc th PWoken) = queued th.
Proof. unfold queued. intros [H|H]; rewrite H; reflexivity. Qed.

Lemma signal_queued k ws ths ws' ths' :
  wl ws ths -> signal k ws ths = (ws', ths') ->
  queued_tasks ths' = queued_tasks ths.
Proof.
  intros [Hnd Hwl] Hs.
  apply signal_cases in Hs as [(-> & -> & ->)|(i & w & Hi & -> & ->)]; [reflexivity|].
  apply wake_sum. intros th Hl. apply queued_woken. left.
  apply list_elem_of_lookup_2, Hwl in Hi. rewrite Hl in Hi. simpl in Hi. congruence.
Qed.

Lemma broadcast_queued ws ths :
  wl ws ths -> queued_tasks (broadcast ws ths) = queued_tasks ths.
Proof.
  intros [_ Hwl].
  assert (Hall : forall w, w ∈ ws -> forall th, ths !! w = Some th -> parked_or_woken th).
  { intros w Hw th Hl. left. apply Hwl in Hw. rewrite Hl in Hw. simpl in Hw. congruence. }
  clear Hwl. unfold broadcast. induction ws as [|w ws IH]; cbn [foldr]; [reflexivity|].
  unfold queued_tasks in *. rewrite wake_sum.
  - apply IH. intros w' Hw'. apply Hall, elem_of_cons. auto.
  - intros th. change (foldr wake ths ws) with (broadcast ws ths).
    rewrite lookup_broadcast. intros Hl. apply queued_woken.
    case_decide.
    + destruct (ths !! w); simpl in Hl; [|discriminate].
      injection Hl as <-. right. reflexivity.
    + eapply (Hall w); [apply elem_of_cons; auto|exact Hl].
Qed.

Lemma queued_lookup_le (ths : list thread) (t : nat) (th : thread) :
  ths !! t = Some th -> queued th <= queued_tasks ths.
Proof.
  revert t. unfold queued_tasks.
  induction ths as [|a ths IH]; intros t Hl; [discriminate|].
  destruct t as [|t]; simpl in *.
  - injection Hl as ->. lia.
  - specialize (IH t Hl). unfold fmap in IH. lia.
Qed.

Lemma queued_unwind (th : thread) (p : pc) :
  queued (set_pc th p) = th_depth th -> queued (unwind th p) = th_depth th.
Proof.
  intros H. destruct (unwind_pc th p) as [-> | ->]; [assumption|].
  unfold queued. simpl. lia.
Qed.

Lemma queued_move ths t th th' :
  ths !! t = Some th ->
  queued_tasks (<[t := th']> ths) + queued th = queued_tasks ths + queued th'.
Proof. apply sum_insert. Qed.

Ltac unw :=
  match goal with
  | |- context [unwind ?th ?p] => destruct (unwind_pc th p) as [-> | ->]
  end.

Ltac queue_arith Hl Hpc :=
  match goal with
  | |- context [<[?t := ?th']> ?ths] =>
      let H := fresh "Hsum" in
      pose proof (queued_move ths t _ th' Hl) as H;
      unfold queued in H; simpl in H; rewrite ?Hpc in H; simpl in H; try lia
  end.

Lemma count_step (l : label) (st st' : state) :
  waitlist_ok st -> queue_counted st -> step l st = Some st' -> queue_counted st'.
Proof.
  unfold waitlist_ok, pc_of, queue_counted. intros Hwl Hq.
  change (wl (waiters st) (threads st)) in Hwl.
  destruct l as [t k|]; simpl.
  - unfold step_thread. destruct (threads st !! t) as [th|] eqn:Hl; [|discriminate].
    assert (Hle := queued_lookup_le _ _ _ Hl).
    unfold queued in Hle.
    destruct (th_pc th) eqn:Hpc; try discriminate.
    + destruct (mu st); [discriminate|]. destruct (closed st).
      * intros [= <-]; simpl. unw; queue_arith Hl Hpc.
      * destruct (signal k (waiters st) (threads st)) as [ws ths] eqn:Hs.
        intros [= <-]; simpl.
        destruct (heap_Push_spec (pq st) (own_task t th)) as (-> & _).
        pose proof (signal_queued _ _ _ _ _ Hwl Hs) as Hsig.
        assert (Hl' : ths !! t = Some th)
          by (eapply signal_frame; eauto; congruence).
        queue_arith Hl' Hpc.
    + destruct (sem_len st =? sem_cap st)%nat; intros [= <-]; simpl; queue_arith Hl Hpc.
    + destruct (mu st); [discriminate|]. intros [= <-]; simpl. queue_arith Hl Hpc.
    + pose proof (heap_Pop_spec (pq st)) as Hpop.
      destruct (heap_Pop (pq st)) as [[x q']|]; intros [= <-]; simpl.
      * destruct Hpop as (Hlen & _). queue_arith Hl Hpc.
      * exfalso. rewrite Hpop in Hq. simpl in Hq. lia.
    + destruct (sem_closed st).
      * intros [= <-]; simpl. unw; queue_arith Hl Hpc.
      * destruct (sem_len st <? sem_cap st)%nat; [|discriminate].
        intros [= <-]; simpl. queue_arith Hl Hpc.
    + destruct (task_ptr x =? t)%nat; intros [= <-]; simpl.
      * unw; queue_arith Hl Hpc.
      * destruct (heap_Push_spec (pq st) x) as (-> & _). queue_arith Hl Hpc.
    + destruct (sem_len st) as [|n].
      * destruct (sem_closed st); [|discriminate]. intros [= <-]; simpl. queue_arith Hl Hpc.
      * intros [= <-]; simpl. queue_arith Hl Hpc.
    + destruct (mu st); [discriminate|].
      destruct (signal k (waiters st) (threads st)) as [ws ths] eqn:Hs.
      intros [= <-]; simpl.
      pose proof (signal_queued _ _ _ _ _ Hwl Hs) as Hsig.
      assert (Hl' : ths !! t = Some th)
        by (eapply signal_frame; eauto; congruence).
      queue_arith Hl' Hpc.
  - unfold step_close. destruct (mu st); [discriminate|].
    destruct (sem_closed st); intros [= <-]; simpl; [assumption|].
    rewrite Hq. symmetry. apply broadcast_queued. assumption.
Qed.

Lemma underflow_step (l : label) (st st' : state) :
  queue_counted st -> no_underflow st -> step l st = Some st' -> no_underflow st'.
Proof.
  unfold no_underflow, pc_of, queue_counted. intros Hq Hn.
  assert (Hins : forall (t : nat) (th th' : thread) (ths : list thread),
            th_pc th' <> PPanicked msg_index ->
            (forall u, th_pc <$> ths !! u <> Some (PPanicked msg_index)) ->
            forall u, th_pc <$> <[t := th']> ths !! u <> Some (PPanicked msg_index)).
  { intros t th th' ths Hp H u. destruct (decide (u = t)) as [->|Hne].
    - destruct (<[t:=th']> ths !! t) as [x|] eqn:Hx; [|discriminate].
      apply list_lookup_insert_Some in Hx as [(_ & <- & _)|(? & _)]; [|congruence].
      simpl. congruence.
    - rewrite list_lookup_insert_ne by congruence. apply H. }
  assert (Hwake : forall (w : nat) (ths : list thread),
            (forall u, th_pc <$> ths !! u <> Some (PPanicked msg_index)) ->
            forall u, th_pc <$> wake w ths !! u <> Some (PPanicked msg_index)).
  { intros w ths H u. rewrite lookup_wake. case_decide; [|apply H].
    destruct (ths !! u); simpl; discriminate. }
  assert (Hunw : forall th p, p <> PPanicked msg_index ->
            th_pc (unwind th p) <> PPanicked msg_index).
  { intros th p Hp. destruct (unwind_pc th p) as [-> | ->]; simpl; congruence. }
  destruct l as [t k|]; simpl.
  - unfold step_thread. destruct (threads st !! t) as [th|] eqn:Hl; [|discriminate].
    assert (Hle := queued_lookup_le _ _ _ Hl).
    destruct (th_pc th) eqn:Hpc; try discriminate.
    + destruct (mu st); [discriminate|]. destruct (closed st).
      * intros [= <-]; simpl. apply (Hins t th); [|assumption].
        apply Hunw. discriminate.
      * destruct (signal k (waiters st) (threads st)) as [ws ths] eqn:Hs.
        intros [= <-]; simpl. apply (Hins t th); [simpl; discriminate|].
        apply signal_cases in Hs as [(_ & _ & ->)|(i & w & _ & _ & ->)];
          [assumption|apply Hwake; assumption].
    + destruct (sem_len st =? sem_cap st)%nat; intros [= <-]; simpl;
        (apply (Hins t th); [simpl; discriminate|assumption]).
    + destruct (mu st); [discriminate|]. intros [= <-]; simpl.
      apply (Hins t th); [simpl; discriminate|assumption].
    + pose proof (heap_Pop_spec (pq st)) as Hpop.
      destruct (heap_Pop (pq st)) as [[x q']|]; intros [= <-]; simpl.
      * apply (Hins t th); [simpl; discriminate|assumption].
      * exfalso. rewrite Hpop in Hq. simpl in Hq.
        unfold queued in Hle. rewrite Hpc in Hle. lia.
    + destruct (sem_closed st).
      * intros [= <-]; simpl. apply (Hins t th); [|assumption].
        apply Hunw. discriminate.
      * destruct (sem_len st <? sem_cap st)%nat; [|discriminate].
        intros [= <-]; simpl. apply (Hins t th); [simpl; discriminate|assumption].
    + destruct (task_ptr x =? t)%nat; intros [= <-]; simpl.
      * apply (Hins t th); [|assumption]. apply Hunw. discriminate.
      * apply (Hins t th); [simpl; discriminate|assumption].
    + destruct (sem_len st) as [|n].
      * destruct (sem_closed st); [|discriminate]. intros [= <-]; simpl.
        apply (Hins t th); [simpl; discriminate|assumption].
      * intros [= <-]; simpl.
        apply (Hins t th); [simpl; discriminate|assumption].
    + destruct (mu st); [discriminate|].
      destruct (signal k (waiters st) (threads st)) as [ws ths] eqn:Hs.
      intros [= <-]; simpl. apply (Hins t th); [simpl; discriminate|].
      apply signal_cases in Hs as [(_ & _ & ->)|(i & w & _ & _ & ->)];
        [assumption|apply Hwake; assumption].
  - unfold step_close. destruct (mu st); [discriminate|].
    destruct (sem_closed st); intros [= <-]; simpl; [assumption|].
    unfold broadcast. induction (waiters st) as [|w ws IH]; simpl; [assumption|].
    apply Hwake. assumption.
Qed.

Lemma accounted_exec (sched : list label) (st : state) :
  accounted st -> accounted (exec sched st).
Proof.
  revert st. induction sched as [|l sched IH]; intros st H; simpl; [assumption|].
  apply IH. destruct (step l st) as [st'|] eqn:Hs; simpl; [|assumption].
  destruct H as (Hw & Hq & Hn). split; [|split].
  - eapply waitlist_step; eassumption.
  - eapply count_step; eassumption.
  - eapply underflow_step; eassumption.
Qed.

Lemma queued_fresh (prios : list TaskPriority) : queued_tasks (fresh <$> prios) = 0.
Proof. unfold queued_tasks. induction prios as [|p prios IH]; simpl; [reflexivity|]. unfold fmap in IH. rewrite IH. reflexivity. Qed.

(** X15. In every state of a limiter, whatever the goroutines, their
    priorities and the schedule (Close included), the queue holds one
    entry for every caller between its heap.Push and its heap.Pop and one
    for every task pushed back; so the heap.Pop of AcquireWithPriority
    never runs on an empty queue, and no caller ever dies of the
    index-out-of-range panic of [Pop]. *)
Theorem queue_never_underflows
    (max : Z) (prios : list TaskPriority) (st0 : state) (sched : list label) :
  NewConcurrencyLimiter max (fresh <$> prios) = Some st0 ->
  let st := exec sched st0 in
  length (pq st) = queued_tasks (threads st) /\
  (forall t, pc_of t st = Some PPop -> heap_Pop (pq st) <> None) /\
  (forall t, pc_of t st <> Some (PPanicked msg_index)).
Proof.
  intros H0 st. destruct (init_ok _ _ _ H0) as (Hw & _ & Hpq & Hths & _).
  assert (Hacc : accounted st0).
  { split; [assumption|]. split.
    - unfold queue_counted. rewrite Hpq, Hths, queued_fresh. reflexivity.
    - intros t. unfold pc_of. rewrite Hths.
      destruct ((fresh <$> prios) !! t) as [th|] eqn:Hl; simpl; [|discriminate].
      apply lookup_fresh in Hl as [-> _]. discriminate. }
  destruct (accounted_exec sched st0 Hacc) as (_ & Hq & Hn). fold st in Hq, Hn.
  split; [exact Hq|]. split; [|exact Hn].
  intros t Ht Hpop. unfold pc_of in Ht.
  destruct (threads st !! t) as [th|] eqn:Hl; simpl in Ht; [|discriminate].
  injection Ht as Hpc.
  pose proof (heap_Pop_spec (pq st)) as Hs. rewrite Hpop in Hs.
  pose proof (queued_lookup_le _ _ _ Hl) as Hle.
  unfold queue_counted in Hq. rewrite Hs in Hq. simpl in Hq.
  unfold queued in Hle. rewrite Hpc in Hle. lia.
Qed.

(** *** After a preemption *)

Lemma frozen_refl (st : state) : frozen st st.
Proof. repeat split; auto. Qed.

Lemma frozen_trans (st1 st2 st3 : state) :
  frozen st1 st2 -> frozen st2 st3 -> frozen st1 st3.
Proof.
  intros (H1 & H2 & H3 & H4) (K1 & K2 & K3 & K4).
  split; [congruence|]. split; [congruence|]. split; [congruence|].
  intros u. destruct (H4 u) as (A & B & C). destruct (K4 u) as (A' & B' & C').
  repeat split; auto.
Qed.

Lemma self_locked_step (t : nat) (th : thread) (l : label) (st st' : state) :
  th_pc th = PEnter ->
  self_locked t th st -> step l st = Some st' ->
  self_locked t th st' /\ frozen st st'.
Proof.
  intros Hpc (Hl & Hmu & Hm).
  assert (Hne : forall u thu, threads st !! u = Some thu -> holds_mu thu = true ->
                              th_pc thu = PEnter).
  { intros u thu Hu Hh. pose proof (Hm u thu Hu Hh) as E. rewrite Hmu in E.
    injection E as <-. rewrite Hl in Hu. injection Hu as <-. exact Hpc. }
  destruct l as [u k|]; simpl.
  - unfold step_thread. destruct (threads st !! u) as [thu|] eqn:Hu; [|discriminate].
    pose proof (Hne u thu Hu) as Hno. unfold holds_mu in Hno.
    assert (Hstep : forall st1,
              mu st1 = mu st -> pq st1 = pq st -> closed st1 = closed st ->
              waiters st1 = waiters st ->
              th_pc thu = PHolding ->
              threads st1 = <[u := set_pc thu PRelSignal]> (threads st) ->
              self_locked t th st1 /\ frozen st st1).
    { intros st1 E1 E2 E3 E4 Hph E5.
      assert (Hut : u <> t) by (intros ->; rewrite Hl in Hu; congruence).
      split.
      - split; [|split].
        + rewrite E5, list_lookup_insert_ne by congruence. exact Hl.
        + congruence.
        + unfold mutex_ok. rewrite E1, E5. apply mx_idle; [exact Hm|reflexivity].
      - split; [assumption|]. split; [assumption|]. split; [assumption|].
        intros v. unfold pc_of. rewrite E5.
        destruct (decide (v = u)) as [->|Hvu].
        + rewrite list_lookup_insert_eq by (eapply lookup_lt_Some; eassumption).
          rewrite Hu. simpl. rewrite Hph.
          repeat split; intros [= ?].
        + rewrite list_lookup_insert_ne by congruence. repeat split; auto. }
    destruct (th_pc thu) eqn:Hpcu; try discriminate;
      try (specialize (Hno eq_refl); discriminate).
    + rewrite Hmu. discriminate.
    + rewrite Hmu. discriminate.
    + destruct (sem_len st) as [|n].
      * destruct (sem_closed st); [|discriminate]. intros [= <-].
        apply Hstep; reflexivity.
      * intros [= <-]. apply Hstep; reflexivity.
    + rewrite Hmu. discriminate.
  - unfold step_close. rewrite Hmu. discriminate.
Qed.

Lemma self_locked_exec (t : nat) (th : thread) (sched : list label) (st : state) :
  th_pc th = PEnter ->
  self_locked t th st ->
  self_locked t th (exec sched st) /\ frozen st (exec sched st).
Proof.
  intros Hpc. revert st.
  induction sched as [|l sched IH]; intros st H; simpl.
  - split; [assumption|apply frozen_refl].
  - destruct (step l st) as [st'|] eqn:Hs; simpl; [|apply IH, H].
    destruct (self_locked_step t th l st st' Hpc H Hs) as [H' Hf].
    destruct (IH st' H') as [H'' Hf']. split; [assumption|].
    eapply frozen_trans; eassumption.
Qed.

(** X16. Once a caller has popped a task that is not its own and made
    the recursive call, the limiter is dead: the caller stays blocked on
    the mutex its outer frame holds, the mutex is never released, and
    from then on no AcquireWithPriority returns, no Release returns, no
    parked caller is woken and Close never runs; the queue stays as it
    is. *)
Theorem preempted_caller_never_returns
    (max : Z) (prios : list TaskPriority) (st0 : state) (sched sched' : list label)
    (t : nat) (th : thread) :
  NewConcurrencyLimiter max (fresh <$> prios) = Some st0 ->
  let st := exec sched st0 in
  threads st !! t = Some th -> th_pc th = PEnter -> 0 < th_depth th ->
  let st' := exec sched' st in
  threads st' !! t = Some th /\ mu st' = Some t /\
  pq st' = pq st /\ closed st' = closed st /\
  forall u, (pc_of u st' = Some PHolding -> pc_of u st = Some PHolding) /\
            (pc_of u st' = Some PDone -> pc_of u st = Some PDone) /\
            (pc_of u st = Some PParked -> pc_of u st' = Some PParked).
Proof.
  intros H0 st Hl Hpc Hd st'.
  destruct (init_ok _ _ _ H0) as (_ & Hm0 & _).
  pose proof (mutex_exec sched st0 Hm0) as Hm. fold st in Hm.
  assert (Hmu : mu st = Some t).
  { apply (Hm t th Hl). unfold holds_mu. rewrite Hpc. apply Nat.ltb_lt. exact Hd. }
  destruct (self_locked_exec t th sched' st Hpc (conj Hl (conj Hmu Hm)))
    as ((A & B & _) & (C & D & _ & E)).
  fold st' in A, B, C, D, E. auto.
Qed.

Lemma preempted_caller_never_returns_witness :
  let st0 := three PriorityNormal PriorityLow PriorityHigh in
  let st := exec sched_preempt st0 in
  let st' := exec [Run 2 0; Run 0 0; CallClose; Run 1 0] st in
  threads st' !! 1 = Some (mkThread PriorityLow 1 PEnter) /\ mu st' = Some 1 /\
  pq st' = pq st /\ closed st' = closed st /\
  forall u, (pc_of u st' = Some PHolding -> pc_of u st = Some PHolding) /\
            (pc_of u st' = Some PDone -> pc_of u st = Some PDone) /\
            (pc_of u st = Some PParked -> pc_of u st' = Some PParked).
Proof.
  apply (preempted_caller_never_returns 1 [PriorityNormal; PriorityLow; PriorityHigh]
           (three PriorityNormal PriorityLow PriorityHigh) sched_preempt
           [Run 2 0; Run 0 0; CallClose; Run 1 0] 1 (mkThread PriorityLow 1 PEnter));
    [reflexivity|reflexivity|reflexivity|simpl; lia].
Defined.

(** *** Every step is progress *)

Lemma rank_move ths t th th' :
  ths !! t = Some th ->
  rank_sum (<[t := th']> ths) + rank th = rank_sum ths + rank th'.
Proof. apply sum_insert. Qed.

Lemma wake_rank w ths :
  (forall th, ths !! w = Some th -> th_pc th = PParked) ->
  rank_sum (wake w ths) <= rank_sum ths + 2.
Proof.
  intros H. unfold wake. destruct (ths !! w) as [th|] eqn:Hw; [|lia].
  pose proof (rank_move ths w th (set_pc th PWoken) Hw) as Hsum.
  unfold rank in Hsum. simpl in Hsum. rewrite (H th eq_refl) in Hsum. lia.
Qed.

Lemma signal_rank k ws ths ws' ths' :
  wl ws ths -> signal k ws ths = (ws', ths') ->
  rank_sum ths' <= rank_sum ths + 2.
Proof.
  intros [Hnd Hwl] Hs.
  apply signal_cases in Hs as [(-> & -> & ->)|(i & w & Hi & -> & ->)]; [lia|].
  apply wake_rank. intros th Hl.
  apply list_elem_of_lookup_2, Hwl in Hi. rewrite Hl in Hi. simpl in Hi. congruence.
Qed.

Ltac rank_arith Hl Hpc :=
  match goal with
  | |- context [<[?t := ?th']> ?ths] =>
      let H := fresh "Hsum" in
      pose proof (rank_move ths t _ th' Hl) as H;
      unfold rank in H; simpl in H; rewrite ?Hpc in H; simpl in H; try lia
  end.

Lemma rank_step (t k : nat) (st st' : state) :
  waitlist_ok st -> mutex_ok st ->
  step_thread t k st = Some st' -> total_rank st' < total_rank st.
Proof.
  unfold waitlist_ok, pc_of, total_rank. intros Hwl Hm.
  change (wl (waiters st) (threads st)) in Hwl.
  change (step_thread t k st = Some st' -> rank_sum (threads st') < rank_sum (threads st)).
  unfold step_thread. destruct (threads st !! t) as [th|] eqn:Hl; [|discriminate].
  pose proof (Hm t th Hl) as Hheld. unfold holds_mu in Hheld.
  destruct (th_pc th) eqn:Hpc; try discriminate.
  - destruct (mu st) eqn:Hmu; [discriminate|].
    assert (Hd : th_depth th = 0).
    { destruct (th_depth th); [reflexivity|]. specialize (Hheld eq_refl). discriminate. }
    destruct (closed st).
    + intros [= <-]; simpl. unw; rank_arith Hl Hpc; rewrite Hd in *; lia.
    + destruct (signal k (waiters st) (threads st)) as [ws ths] eqn:Hs.
      intros [= <-]; simpl.
      pose proof (signal_rank _ _ _ _ _ Hwl Hs) as Hsig.
      assert (Hl' : ths !! t = Some th)
        by (eapply signal_frame; eauto; congruence).
      rank_arith Hl' Hpc. rewrite Hd in *. lia.
  - destruct (sem_len st =? sem_cap st)%nat; intros [= <-]; simpl; rank_arith Hl Hpc.
  - destruct (mu st); [discriminate|]. intros [= <-]; simpl. rank_arith Hl Hpc.
  - destruct (heap_Pop (pq st)) as [[x q']|]; intros [= <-]; simpl.
    + rank_arith Hl Hpc.
    + unw; rank_arith Hl Hpc.
  - destruct (sem_closed st).
    + intros [= <-]; simpl. unw; rank_arith Hl Hpc.
    + destruct (sem_len st <? sem_cap st)%nat; [|discriminate].
      intros [= <-]; simpl. rank_arith Hl Hpc.
  - destruct (task_ptr x =? t)%nat; intros [= <-]; simpl.
    + unw; rank_arith Hl Hpc.
    + rank_arith Hl Hpc.
  - destruct (sem_len st) as [|n].
    + destruct (sem_closed st); [|discriminate]. intros [= <-]; simpl. rank_arith Hl Hpc.
    + intros [= <-]; simpl. rank_arith Hl Hpc.
  - destruct (mu st); [discriminate|].
    destruct (signal k (waiters st) (threads st)) as [ws ths] eqn:Hs.
    intros [= <-]; simpl.
    pose proof (signal_rank _ _ _ _ _ Hwl Hs) as Hsig.
    assert (Hl' : ths !! t = Some th)
      by (eapply signal_frame; eauto; congruence).
    rank_arith Hl' Hpc.
Qed.

(** *** The handler's use of the limiter *)

Ltac pcs :=
  unfold returned, acquiring, waiting, holds_mu, will_signal, is_done, tokens_out in *;
  repeat match goal with
         | H : th_pc ?x = _ |- _ => rewrite H in *
         end;
  simpl in *; try reflexivity; try assumption; try discriminate; try congruence; try lia.

Lemma insert_cases (ths : list thread) (t u : nat) (th' x : thread) :
  <[t := th']> ths !! u = Some x ->
  (u = t /\ x = th') \/ (u <> t /\ ths !! u = Some x).
Proof.
  intros H. apply list_lookup_insert_Some in H as [(-> & -> & _)|(Hne & H)]; auto.
Qed.

Lemma wake_cases (ths : list thread) (w u : nat) (x : thread) :
  wake w ths !! u = Some x ->
  ths !! u = Some x \/
  (u = w /\ exists th, ths !! w = Some th /\ x = set_pc th PWoken).
Proof.
  rewrite lookup_wake. case_decide as Hu; [|auto]. subst u.
  destruct (ths !! w) as [th|]; simpl; [|discriminate].
  intros [= <-]. right. eauto.
Qed.

(** What a signal does to the goroutines when the wait list is right:
    nothing, or it wakes one that was parked. *)
Lemma signal_effect k ws ths ws' ths' :
  wl ws ths -> signal k ws ths = (ws', ths') ->
  ths' = ths \/
  exists w th, ths !! w = Some th /\ th_pc th = PParked /\
               ths' = <[w := set_pc th PWoken]> ths.
Proof.
  intros [Hnd Hwl] Hs.
  apply signal_cases in Hs as [(-> & -> & ->)|(i & w & Hi & -> & ->)]; [auto|].
  apply list_elem_of_lookup_2, Hwl in Hi.
  destruct (ths !! w) as [th|] eqn:Hw; simpl in Hi; [|discriminate].
  injection Hi as Hp. right. exists w, th. unfold wake. rewrite Hw. auto.
Qed.

(** **** One caller at a time *)

Lemma one_acquirer ths u v thu thv :
  in_order ths -> ths !! u = Some thu -> ths !! v = Some thv ->
  acquiring thu = true -> acquiring thv = true -> u = v.
Proof.
  intros Ho Hu Hv Au Av.
  destruct (Nat.lt_trichotomy u v) as [Hlt|[Heq|Hgt]]; [|assumption|].
  - assert (returned thu = true).
    { apply (Ho u v thu thv Hlt Hu Hv). intros E. pcs. }
    exfalso. unfold returned, acquiring in *. destruct (th_pc thu); discriminate.
  - assert (returned thv = true).
    { apply (Ho v u thv thu Hgt Hv Hu). intros E. pcs. }
    exfalso. unfold returned, acquiring in *. destruct (th_pc thv); discriminate.
Qed.

Lemma in_turn_spec t st th :
  in_turn t st = true -> threads st !! t = Some th -> th_pc th = PEnter ->
  forall u thu, u < t -> threads st !! u = Some thu -> returned thu = true.
Proof.
  unfold in_turn, pc_of. intros H Hl Hpc. rewrite Hl in H. simpl in H.
  rewrite Hpc in H. intros u thu Hlt Hu.
  apply Is_true_true_2, forallb_True in H.
  apply Is_true_true_1. eapply (Forall_lookup_1 _ _ u thu H).
  rewrite lookup_take_lt by assumption. exact Hu.
Qed.

Lemma turn_idle ths t th :
  in_order ths -> ths !! t = Some th -> th_pc th = PEnter ->
  (forall u thu, u < t -> ths !! u = Some thu -> returned thu = true) ->
  forall u thu, ths !! u = Some thu -> acquiring thu = false.
Proof.
  intros Ho Hl Hpc Hturn u thu Hu.
  destruct (Nat.lt_trichotomy u t) as [Hlt|[->|Hgt]].
  - specialize (Hturn u thu Hlt Hu).
    unfold returned, acquiring in *. destruct (th_pc thu); congruence.
  - rewrite Hl in Hu. injection Hu as <-. pcs.
  - destruct (acquiring thu) eqn:A; [|reflexivity].
    assert (returned th = true).
    { apply (Ho t u th thu Hgt Hl Hu). intros E. pcs. }
    pcs.
Qed.

(** **** The components, one move at a time *)

Lemma own_insert ths t th' :
  own_all ths -> own_turn t th' -> own_all (<[t := th']> ths).
Proof.
  intros H Ht u x Hx. apply insert_cases in Hx as [(-> & ->)|(_ & Hx)]; [assumption|].
  eapply H; eassumption.
Qed.

Lemma own_signal k ws ths ws' ths' :
  wl ws ths -> signal k ws ths = (ws', ths') -> own_all ths -> own_all ths'.
Proof.
  intros Hwl Hs H. destruct (signal_effect _ _ _ _ _ Hwl Hs) as [->|(w & th & Hw & Hp & ->)];
    [assumption|].
  apply own_insert; [assumption|]. destruct (H w th Hw) as [Hd _].
  split; [exact Hd|exact I].
Qed.

Lemma order_insert ths t th th' :
  in_order ths -> ths !! t = Some th ->
  (returned th = true -> returned th' = true) ->
  (th_pc th <> PEnter \/
   forall u thu, u < t -> ths !! u = Some thu -> returned thu = true) ->
  in_order (<[t := th']> ths).
Proof.
  intros Ho Hl Hret Hent u v thu thv Hlt Hu Hv Hne.
  apply insert_cases in Hu as [(-> & ->)|(Hut & Hu)];
    apply insert_cases in Hv as [(-> & ->)|(Hvt & Hv)].
  - lia.
  - apply Hret. eapply (Ho t v); eassumption.
  - destruct Hent as [Hent|Hent].
    + eapply (Ho u t); eassumption.
    + eapply Hent; eassumption.
  - eapply (Ho u v); eassumption.
Qed.

Lemma order_signal k ws ths ws' ths' :
  wl ws ths -> signal k ws ths = (ws', ths') -> in_order ths -> in_order ths'.
Proof.
  intros Hwl Hs H. destruct (signal_effect _ _ _ _ _ Hwl Hs) as [->|(w & th & Hw & Hp & ->)];
    [assumption|].
  eapply order_insert; [eassumption|eassumption| |].
  - intros E. pcs.
  - left. congruence.
Qed.

Lemma queue_insert_same q ths t th th' :
  queue_is q ths -> ths !! t = Some th ->
  waiting th' = waiting th -> th_prio th' = th_prio th ->
  queue_is q (<[t := th']> ths).
Proof.
  intros [H1 H2] Hl Hw Hp. split.
  - intros u x Hx Wx. apply insert_cases in Hx as [(-> & ->)|(_ & Hx)].
    + rewrite Hp. apply H1; [assumption|congruence].
    + apply H1; assumption.
  - intros Hall. apply H2. intros u x Hx.
    destruct (decide (u = t)) as [->|Hne].
    + rewrite Hl in Hx. injection Hx as <-. rewrite <- Hw.
      apply (Hall t). apply list_lookup_insert_eq. eapply lookup_lt_Some; eassumption.
    + apply (Hall u). rewrite list_lookup_insert_ne by congruence. assumption.
Qed.

Lemma queue_signal k ws ths ws' ths' q :
  wl ws ths -> signal k ws ths = (ws', ths') -> queue_is q ths -> queue_is q ths'.
Proof.
  intros Hwl Hs H. destruct (signal_effect _ _ _ _ _ Hwl Hs) as [->|(w & th & Hw & Hp & ->)];
    [assumption|].
  eapply queue_insert_same; [eassumption|eassumption| |reflexivity]. pcs.
Qed.

Lemma queue_push ths t th :
  ths !! t = Some th ->
  (forall u thu, ths !! u = Some thu -> waiting thu = false) ->
  queue_is (heap_Push [] (own_task t th)) (<[t := set_pc th PLoop]> ths).
Proof.
  intros Hl Hidle. split.
  - intros u x Hx Wx. apply insert_cases in Hx as [(-> & ->)|(_ & Hx)]; [reflexivity|].
    rewrite (Hidle u x Hx) in Wx. discriminate.
  - intros Hall. exfalso.
    assert (H : waiting (set_pc th PLoop) = false).
    { apply (Hall t). apply list_lookup_insert_eq. eapply lookup_lt_Some; eassumption. }
    discriminate.
Qed.

Lemma queue_pop q ths t th x q' :
  queue_is q ths -> ths !! t = Some th -> waiting th = true ->
  heap_Pop q = Some (x, q') ->
  task_ptr x = t /\ queue_is q' (<[t := set_pc th (PSend x)]> ths).
Proof.
  intros [H1 H2] Hl Hw Hpop. rewrite (H1 t th Hl Hw) in Hpop.
  injection Hpop as <- <-. split; [reflexivity|]. split; [|reflexivity].
  intros u y Hy Wy. apply insert_cases in Hy as [(-> & ->)|(Hne & Hy)]; [discriminate|].
  pose proof (H1 u y Hy Wy) as E. rewrite (H1 t th Hl Hw) in E.
  injection E as E _. congruence.
Qed.

Lemma queue_pop_some q ths t th :
  queue_is q ths -> ths !! t = Some th -> waiting th = true -> heap_Pop q <> None.
Proof.
  intros [H1 _] Hl Hw. rewrite (H1 t th Hl Hw). discriminate.
Qed.

(** Slots. *)

Lemma slots_same len cap ths t th th' :
  slots_are len cap ths -> ths !! t = Some th ->
  tokens_out th' = tokens_out th ->
  match th_pc th' with PPop | PSend _ => len < cap | _ => True end ->
  slots_are len cap (<[t := th']> ths).
Proof.
  intros (H1 & H2 & H3) Hl Ht Hp. split; [|split; [assumption|]].
  - pose proof (tokens_insert ths t th th' Hl). lia.
  - intros u x Hx. apply insert_cases in Hx as [(-> & ->)|(_ & Hx)]; [assumption|].
    eapply H3; eassumption.
Qed.

Lemma slots_signal k ws ths ws' ths' len cap :
  wl ws ths -> signal k ws ths = (ws', ths') ->
  slots_are len cap ths -> slots_are len cap ths'.
Proof.
  intros Hwl Hs H. destruct (signal_effect _ _ _ _ _ Hwl Hs) as [->|(w & th & Hw & Hp & ->)];
    [assumption|].
  eapply slots_same; [eassumption|eassumption| |exact I]. pcs.
Qed.

Lemma slots_send len cap ths t th x :
  slots_are len cap ths -> ths !! t = Some th -> th_pc th = PSend x ->
  in_order ths ->
  slots_are (S len) cap (<[t := set_pc th (PCompare x)]> ths).
Proof.
  intros (H1 & H2 & H3) Hl Hpc Ho.
  pose proof (H3 t th Hl) as Hroom. rewrite Hpc in Hroom.
  split; [|split; [lia|]].
  - pose proof (tokens_insert ths t th (set_pc th (PCompare x)) Hl) as E.
    unfold tokens_out in E at 1 2. rewrite Hpc in E. simpl in E. lia.
  - intros u y Hy. apply insert_cases in Hy as [(-> & ->)|(Hne & Hy)]; [exact I|].
    destruct (acquiring y) eqn:A.
    + exfalso. apply Hne. eapply (one_acquirer ths u t y th); eauto. pcs.
    + unfold acquiring in A. destruct (th_pc y); try exact I; discriminate.
Qed.

Lemma slots_recv n cap ths t th :
  slots_are (S n) cap ths -> ths !! t = Some th -> th_pc th = PHolding ->
  slots_are n cap (<[t := set_pc th PRelSignal]> ths).
Proof.
  intros (H1 & H2 & H3) Hl Hpc. split; [|split; [lia|]].
  - pose proof (tokens_insert ths t th (set_pc th PRelSignal) Hl) as E.
    unfold tokens_out in E at 1 2. rewrite Hpc in E. simpl in E. lia.
  - intros u y Hy. apply insert_cases in Hy as [(-> & ->)|(Hne & Hy)]; [exact I|].
    specialize (H3 u y Hy). destruct (th_pc y); try exact I; lia.
Qed.

(** The owner of the mutex. *)

Lemma owned_self ths t th th' :
  ths !! t = Some th -> holds_mu th' = true ->
  mutex_owned (Some t) (<[t := th']> ths).
Proof.
  intros Hl Hh u [= <-]. exists th'. split; [|assumption].
  apply list_lookup_insert_eq. eapply lookup_lt_Some; eassumption.
Qed.

Lemma owned_none ths : mutex_owned None ths.
Proof. intros u H. discriminate. Qed.

Lemma owned_other m ths t th th' :
  mutex_owned m ths -> ths !! t = Some th -> holds_mu th = false ->
  mutex_owned m (<[t := th']> ths).
Proof.
  intros H Hl Hh u Hu. destruct (H u Hu) as (x & Hx & Hhx). exists x.
  split; [|assumption]. rewrite list_lookup_insert_ne; [assumption|].
  intros ->. congruence.
Qed.

(** Somebody to signal. *)

Lemma token_holder (ths : list thread) :
  1 <= tokens ths -> exists v th, ths !! v = Some th /\ 1 <= tokens_out th.
Proof.
  unfold tokens. induction ths as [|a ths IH]; simpl; [lia|]. intros H.
  destruct (tokens_out a) as [|n] eqn:Ha.
  - destruct IH as (v & th & Hv & Hth); [unfold fmap in *; lia|].
    exists (S v), th. auto.
  - exists 0, a. simpl. split; [reflexivity|lia].
Qed.

Lemma wakeable_move ths t th th' :
  in_order ths -> ths !! t = Some th -> acquiring th = true ->
  th_pc th' <> PParked -> wakeable (<[t := th']> ths).
Proof.
  intros Ho Hl Ha Hp (u & x & Hx & Hpx). exfalso.
  apply insert_cases in Hx as [(-> & ->)|(Hne & Hx)]; [contradiction|].
  apply Hne. eapply (one_acquirer ths u t x th); eauto. pcs.
Qed.

Lemma wakeable_park len cap ths t th :
  1 <= cap -> slots_are len cap ths -> len = cap -> own_all ths -> in_order ths ->
  ths !! t = Some th -> th_pc th = PLoop ->
  wakeable (<[t := set_pc th PParked]> ths).
Proof.
  intros Hcap (H1 & _) Hfull Hown Ho Hl Hpc _.
  destruct (token_holder ths) as (v & x & Hv & Hx); [lia|].
  destruct (Hown v x Hv) as [Hd _].
  assert (Hvt : v <> t).
  { intros ->. rewrite Hl in Hv. injection Hv as <-.
    unfold tokens_out in Hx. rewrite Hpc, Hd in Hx. simpl in Hx. lia. }
  exists v, x. split; [rewrite list_lookup_insert_ne by congruence; exact Hv|].
  unfold tokens_out in Hx. rewrite Hd in Hx. unfold will_signal.
  destruct (th_pc x) eqn:Hpx; simpl in Hx; try lia; try reflexivity.
  exfalso. apply Hvt. eapply (one_acquirer ths v t x th); eauto; pcs.
Qed.

Lemma wakeable_recv ths t th :
  ths !! t = Some th -> wakeable (<[t := set_pc th PRelSignal]> ths).
Proof.
  intros Hl _. exists t, (set_pc th PRelSignal). split; [|reflexivity].
  apply list_lookup_insert_eq. eapply lookup_lt_Some; eassumption.
Qed.

Lemma wakeable_signal k ws ths ws' ths' t th th' :
  wl ws ths -> signal k ws ths = (ws', ths') -> in_order ths ->
  ths !! t = Some th -> th_pc th <> PParked -> th_pc th' <> PParked ->
  wakeable (<[t := th']> ths').
Proof.
  intros Hwl Hs Ho Hl Hp Hp' (u & x & Hx & Hpx). exfalso.
  apply insert_cases in Hx as [(-> & ->)|(Hne & Hx)]; [contradiction|].
  pose proof Hwl as [Hnd Hmem].
  apply signal_cases in Hs as [(-> & -> & ->)|(i & w & Hi & -> & ->)].
  - assert (Hin : u ∈ @nil nat) by (apply Hmem; rewrite Hx; simpl; congruence).
    apply elem_of_nil in Hin. exact Hin.
  - rewrite lookup_wake in Hx. case_decide as Huw.
    + subst w. destruct (ths !! u) as [y|]; simpl in Hx; [|discriminate].
      injection Hx as <-. discriminate.
    + apply list_elem_of_lookup_2, Hmem in Hi.
      destruct (ths !! w) as [y|] eqn:Hw; simpl in Hi; [|discriminate].
      injection Hi as Hpy.
      apply Huw. eapply (one_acquirer ths u w x y); eauto; pcs.
Qed.

(** **** The invariant *)

Lemma handler_step_sound (l : label) (st st' : state) :
  handler_step l st = Some st' -> step l st = Some st'.
Proof.
  destruct l as [t k|]; simpl; [|discriminate].
  destruct (in_turn t st); [auto|discriminate].
Qed.

Lemma handler_inv_step (l : label) (st st' : state) :
  handler_inv st -> handler_step l st = Some st' -> handler_inv st'.
Proof.
  intros (Hcl & Hsc & Hwl & Hm & Hmo & Hown & Ho & Hq & Hsx & Hwk) Hs.
  pose proof (waitlist_step l st st' Hwl (handler_step_sound _ _ _ Hs)) as Hwl'.
  pose proof (mutex_step l st st' Hm (handler_step_sound _ _ _ Hs)) as Hm'.
  destruct l as [t k|]; [|discriminate]. simpl in Hs.
  destruct (in_turn t st) eqn:Hturn; [|discriminate].
  unfold step_thread in Hs.
  destruct (threads st !! t) as [th|] eqn:Hl; [|discriminate].
  destruct (Hown t th Hl) as [Hd Hot].
  pose proof Hwl as Hwl0. unfold waitlist_ok, pc_of in Hwl0.
  change (wl (waiters st) (threads st)) in Hwl0.
  pose proof (Hm t th Hl) as Hmine.
  destruct (th_pc th) eqn:Hpc; try discriminate; try contradiction.
  - (* the call starts *)
    destruct (mu st) eqn:Hmu; [discriminate|]. rewrite Hcl in Hs.
    destruct (signal k (waiters st) (threads st)) as [ws ths] eqn:Hsig.
    injection Hs as <-.
    assert (Hidle : forall u thu, threads st !! u = Some thu -> acquiring thu = false).
    { eapply turn_idle; eauto. eapply in_turn_spec; eauto. }
    assert (Hths : ths = threads st).
    { destruct (signal_effect _ _ _ _ _ Hwl0 Hsig) as [->|(w & y & Hw & Hp & _)];
        [reflexivity|].
      specialize (Hidle w y Hw). pcs. }
    subst ths.
    assert (Hwait : forall u thu, threads st !! u = Some thu -> waiting thu = false).
    { intros u thu Hu. specialize (Hidle u thu Hu).
      unfold acquiring, waiting in *. destruct (th_pc thu); congruence. }
    assert (Hpq : pq st = []) by (apply Hq; exact Hwait).
    unfold handler_inv; simpl. rewrite Hpq.
    split; [first [assumption|reflexivity]|]. split; [first [assumption|reflexivity]|]. split; [exact Hwl'|]. split; [exact Hm'|].
    split; [eapply owned_self; eauto|].
    split; [apply own_insert; [assumption|split; [exact Hd|exact I]]|].
    split.
    { eapply order_insert; [exact Ho|exact Hl|intros ?; pcs|]. right. eapply in_turn_spec; eauto. }
    split; [apply queue_push; assumption|].
    split; [eapply slots_same; [exact Hsx|exact Hl|pcs|exact I]|].
    intros _ (u & x & Hx & Hpx).
    apply insert_cases in Hx as [(-> & ->)|(Hne & Hx)]; [discriminate|].
    specialize (Hidle u x Hx). pcs.
  - (* the wait loop tests the channel *)
    specialize (Hmine ltac:(pcs)).
    destruct (sem_len st =? sem_cap st)%nat eqn:Hfull; injection Hs as <-;
      unfold handler_inv; simpl.
    + apply Nat.eqb_eq in Hfull.
      split; [first [assumption|reflexivity]|]. split; [first [assumption|reflexivity]|]. split; [exact Hwl'|]. split; [exact Hm'|].
      split; [apply owned_none|].
      split; [apply own_insert; [assumption|split; [exact Hd|exact I]]|].
      split; [eapply order_insert; [exact Ho|exact Hl|intros ?; pcs|left; congruence]|].
      split; [eapply queue_insert_same; [exact Hq|exact Hl|pcs|reflexivity]|].
      split; [eapply slots_same; [exact Hsx|exact Hl|pcs|exact I]|].
      intros Hcap. eapply wakeable_park; eauto.
    + apply Nat.eqb_neq in Hfull. rewrite Hmine.
      split; [first [assumption|reflexivity]|]. split; [first [assumption|reflexivity]|]. split; [exact Hwl'|].
      split; [rewrite <- Hmine; exact Hm'|].
      split; [eapply owned_self; eauto|].
      split; [apply own_insert; [assumption|split; [exact Hd|exact I]]|].
      split; [eapply order_insert; [exact Ho|exact Hl|intros ?; pcs|left; congruence]|].
      split; [eapply queue_insert_same; [exact Hq|exact Hl|pcs|reflexivity]|].
      split.
      { eapply slots_same; [exact Hsx|exact Hl|pcs|]. simpl. destruct Hsx as (_ & Hle & _). lia. }
      intros _. eapply wakeable_move; [exact Ho|exact Hl|pcs|simpl; discriminate].
  - (* woken: the lock is taken again *)
    destruct (mu st) eqn:Hmu; [discriminate|]. injection Hs as <-.
    unfold handler_inv; simpl.
    split; [first [assumption|reflexivity]|]. split; [first [assumption|reflexivity]|]. split; [exact Hwl'|]. split; [exact Hm'|].
    split; [eapply owned_self; eauto|].
    split; [apply own_insert; [assumption|split; [exact Hd|exact I]]|].
    split; [eapply order_insert; [exact Ho|exact Hl|intros ?; pcs|left; congruence]|].
    split; [eapply queue_insert_same; [exact Hq|exact Hl|pcs|reflexivity]|].
    split; [eapply slots_same; [exact Hsx|exact Hl|pcs|exact I]|].
    intros _. eapply wakeable_move; [exact Ho|exact Hl|pcs|simpl; discriminate].
  - (* heap.Pop *)
    specialize (Hmine ltac:(pcs)).
    destruct (heap_Pop (pq st)) as [[x q']|] eqn:Hpop.
    + injection Hs as <-.
      assert (Hw : waiting th = true) by pcs.
      destruct (queue_pop _ _ _ _ _ _ Hq Hl Hw Hpop) as [Hx Hq'].
      unfold handler_inv; simpl. rewrite Hmine.
      split; [first [assumption|reflexivity]|]. split; [first [assumption|reflexivity]|]. split; [exact Hwl'|].
      split; [rewrite <- Hmine; exact Hm'|].
      split; [eapply owned_self; eauto|].
      split; [apply own_insert; [assumption|split; [exact Hd|exact Hx]]|].
      split; [eapply order_insert; [exact Ho|exact Hl|intros ?; pcs|left; congruence]|].
      split; [exact Hq'|].
      split.
      { eapply slots_same; [exact Hsx|exact Hl|pcs|]. simpl.
        destruct Hsx as (_ & _ & H3). specialize (H3 t th Hl). rewrite Hpc in H3. exact H3. }
      intros _. eapply wakeable_move; [exact Ho|exact Hl|pcs|simpl; discriminate].
    + exfalso. eapply queue_pop_some; eauto. pcs.
  - (* the send *)
    specialize (Hmine ltac:(pcs)).
    rewrite Hsc in Hs. destruct (sem_len st <? sem_cap st)%nat; [|discriminate].
    injection Hs as <-. unfold handler_inv; simpl. rewrite Hmine.
    split; [first [assumption|reflexivity]|]. split; [first [assumption|reflexivity]|]. split; [exact Hwl'|].
    split; [rewrite <- Hmine; exact Hm'|].
    split; [eapply owned_self; eauto|].
    split; [apply own_insert; [assumption|split; [exact Hd|exact Hot]]|].
    split; [eapply order_insert; [exact Ho|exact Hl|intros ?; pcs|left; congruence]|].
    split; [eapply queue_insert_same; [exact Hq|exact Hl|pcs|reflexivity]|].
    split; [eapply slots_send; [exact Hsx|exact Hl|exact Hpc|exact Ho]|].
    intros _. eapply wakeable_move; [exact Ho|exact Hl|pcs|simpl; discriminate].
  - (* the popped task is the caller's own: the call returns *)
    rewrite Hot, Nat.eqb_refl in Hs. unfold unwind in Hs. rewrite Hd in Hs.
    injection Hs as <-. unfold handler_inv; simpl.
    split; [first [assumption|reflexivity]|]. split; [first [assumption|reflexivity]|]. split; [exact Hwl'|]. split; [exact Hm'|].
    split; [apply owned_none|].
    split; [apply own_insert; [assumption|split; [exact Hd|exact I]]|].
    split; [eapply order_insert; [exact Ho|exact Hl|intros ?; pcs|left; congruence]|].
    split; [eapply queue_insert_same; [exact Hq|exact Hl|pcs|reflexivity]|].
    split; [eapply slots_same; [exact Hsx|exact Hl|pcs|exact I]|].
    intros _. eapply wakeable_move; [exact Ho|exact Hl|pcs|simpl; discriminate].
  - (* Release receives from the channel *)
    destruct (sem_len st) as [|n] eqn:Hlen; [rewrite Hsc in Hs; discriminate|].
    injection Hs as <-. unfold handler_inv; simpl.
    split; [first [assumption|reflexivity]|]. split; [first [assumption|reflexivity]|]. split; [exact Hwl'|]. split; [exact Hm'|].
    split; [eapply owned_other; eauto; pcs|].
    split; [apply own_insert; [assumption|split; [exact Hd|exact I]]|].
    split; [eapply order_insert; [exact Ho|exact Hl|intros ?; pcs|left; congruence]|].
    split; [eapply queue_insert_same; [exact Hq|exact Hl|pcs|reflexivity]|].
    split; [eapply slots_recv; eauto|].
    intros _. eapply wakeable_recv; eauto.
  - (* Release signals *)
    destruct (mu st) eqn:Hmu; [discriminate|].
    destruct (signal k (waiters st) (threads st)) as [ws ths] eqn:Hsig.
    injection Hs as <-.
    assert (Hl' : ths !! t = Some th) by (eapply signal_frame; eauto; congruence).
    unfold handler_inv; simpl.
    split; [first [assumption|reflexivity]|]. split; [first [assumption|reflexivity]|]. split; [exact Hwl'|]. split; [exact Hm'|].
    split; [apply owned_none|].
    split.
    { apply own_insert; [eapply own_signal; eauto|split; [exact Hd|exact I]]. }
    split.
    { eapply order_insert; [eapply order_signal; eauto|exact Hl'|intros ?; pcs|left; congruence]. }
    split.
    { eapply queue_insert_same; [eapply queue_signal; eauto|exact Hl'|pcs|reflexivity]. }
    split.
    { eapply slots_same; [eapply slots_signal; eauto|exact Hl'|pcs|exact I]. }
    intros _. eapply (wakeable_signal k (waiters st) (threads st) ws ths t th);
      [exact Hwl0|exact Hsig|exact Ho|exact Hl|congruence|simpl; discriminate].
Qed.

Lemma handler_inv_exec (sched : list label) (st : state) :
  handler_inv st -> handler_inv (handler_exec sched st).
Proof.
  revert st. induction sched as [|l sched IH]; intros st H; simpl; [assumption|].
  apply IH. destruct (handler_step l st) as [st'|] eqn:Hs; simpl; [|assumption].
  eapply handler_inv_step; eassumption.
Qed.

Lemma lookup_Acquire (n t : nat) (th : thread) :
  replicate n Acquire !! t = Some th -> th = Acquire.
Proof. intros H. apply lookup_replicate_1 in H as [-> _]. reflexivity. Qed.

Lemma handler_inv_init (c : Z) (n : nat) (st0 : state) :
  SubmitTargets c n = Some st0 ->
  handler_inv st0 /\ threads st0 = replicate n Acquire /\ sem_cap st0 = Z.to_nat c.
Proof.
  unfold SubmitTargets. intros H0.
  assert (Hfr : replicate n Acquire = fresh <$> replicate n PriorityNormal)
    by (rewrite fmap_replicate; reflexivity).
  rewrite Hfr in H0.
  destruct (init_ok _ _ _ H0) as (Hw & Hm & Hpq & Hths & Hmu & Hcl & Hsc & Hlen & Hcap).
  rewrite <- Hfr in Hths.
  split; [|auto].
  unfold handler_inv. rewrite Hths, Hpq, Hmu, Hlen.
  split; [assumption|]. split; [assumption|]. split; [assumption|]. split; [assumption|].
  split; [apply owned_none|].
  split. { intros t th Hl. apply lookup_Acquire in Hl as ->. split; [reflexivity|exact I]. }
  split. { intros u v thu thv _ _ Hv Hne. apply lookup_Acquire in Hv as ->. contradiction. }
  split.
  { split; [|reflexivity]. intros t th Hl Hwt. apply lookup_Acquire in Hl as ->. discriminate. }
  split.
  { split; [|split; [lia|]].
    - rewrite Hfr. symmetry. apply tokens_fresh.
    - intros t th Hl. apply lookup_Acquire in Hl as ->. exact I. }
  intros _ (u & th & Hl & Hp). apply lookup_Acquire in Hl as ->. discriminate.
Qed.

(** **** Progress *)

Lemma find_thread (f : thread -> bool) (ths : list thread) :
  (exists t th, ths !! t = Some th /\ f th = true) \/
  (forall t th, ths !! t = Some th -> f th = false).
Proof.
  induction ths as [|a ths IH].
  - right. intros t th H. discriminate.
  - destruct (f a) eqn:Ha; [left; exists 0, a; auto|].
    destruct IH as [(t & th & Hl & Hf)|IH]; [left; exists (S t), th; auto|].
    right. intros [|t] th Hl; simpl in Hl; [congruence|eauto].
Qed.

Lemma first_enter (ths : list thread) :
  (forall t th, ths !! t = Some th -> th_pc th = PEnter \/ th_pc th = PDone) ->
  forallb is_done ths = false ->
  exists t th, ths !! t = Some th /\ th_pc th = PEnter /\
               forallb returned (take t ths) = true.
Proof.
  induction ths as [|a ths IH]; intros H Hnd; [discriminate|].
  destruct (H 0 a eq_refl) as [Ha|Ha].
  - exists 0, a. auto.
  - simpl in Hnd. unfold is_done in Hnd at 1. rewrite Ha in Hnd. simpl in Hnd.
    destruct IH as (t & th & Hl & Hp & Hall); [|assumption|].
    + intros t th Hl. apply (H (S t) th Hl).
    + exists (S t), th. split; [exact Hl|]. split; [exact Hp|].
      simpl. unfold returned at 1. rewrite Ha. exact Hall.
Qed.

Lemma in_turn_started t st th :
  threads st !! t = Some th -> th_pc th <> PEnter -> in_turn t st = true.
Proof.
  intros Hl Hp. unfold in_turn, pc_of. rewrite Hl. simpl.
  destruct (th_pc th); try reflexivity. contradiction.
Qed.

Lemma handler_progress (st : state) :
  handler_inv st -> 1 <= sem_cap st -> all_done st = false ->
  exists l st', handler_step l st = Some st'.
Proof.
  intros (Hcl & Hsc & Hwl & Hm & Hmo & Hown & Ho & Hq & Hsx & Hwk) Hcap Hnd.
  destruct (mu st) as [u|] eqn:Hmu.
  - (* the owner of the mutex can move *)
    destruct (Hmo u eq_refl) as (th & Hl & Hh).
    destruct (Hown u th Hl) as [Hd _].
    exists (Run u 0). simpl.
    assert (Hne : th_pc th <> PEnter).
    { intros E. unfold holds_mu in Hh. rewrite E, Hd in Hh. discriminate. }
    rewrite (in_turn_started u st th Hl Hne).
    unfold step_thread. rewrite Hl.
    destruct (th_pc th) eqn:Hpc; try (unfold holds_mu in Hh; rewrite Hpc in Hh; discriminate);
      try contradiction.
    + destruct (sem_len st =? sem_cap st)%nat; eexists; reflexivity.
    + destruct (heap_Pop (pq st)) as [[x q']|]; eexists; reflexivity.
    + rewrite Hsc. destruct Hsx as (_ & _ & H3). specialize (H3 u th Hl).
      rewrite Hpc in H3. apply Nat.ltb_lt in H3. rewrite H3. eexists; reflexivity.
    + destruct (task_ptr x =? u)%nat; eexists; reflexivity.
  - destruct (find_thread (fun th => match th_pc th with PWoken => true | _ => false end)
                (threads st)) as [(t & th & Hl & Hf)|Hnw].
    { exists (Run t 0). simpl.
      destruct (th_pc th) eqn:Hpc; try discriminate.
      rewrite (in_turn_started t st th Hl) by congruence.
      unfold step_thread. rewrite Hl, Hpc, Hmu. eexists; reflexivity. }
    destruct (find_thread (fun th => match th_pc th with PRelSignal => true | _ => false end)
                (threads st)) as [(t & th & Hl & Hf)|Hnr].
    { exists (Run t 0). simpl.
      destruct (th_pc th) eqn:Hpc; try discriminate.
      rewrite (in_turn_started t st th Hl) by congruence.
      unfold step_thread. rewrite Hl, Hpc, Hmu.
      destruct (signal 0 (waiters st) (threads st)). eexists; reflexivity. }
    destruct (find_thread (fun th => match th_pc th with PHolding => true | _ => false end)
                (threads st)) as [(t & th & Hl & Hf)|Hnh].
    { exists (Run t 0). simpl.
      destruct (th_pc th) eqn:Hpc; try discriminate.
      rewrite (in_turn_started t st th Hl) by congruence.
      unfold step_thread. rewrite Hl, Hpc.
      destruct Hsx as (H1 & _). pose proof (tokens_lookup_le _ _ _ Hl) as Hle.
      unfold tokens_out in Hle. rewrite Hpc in Hle.
      destruct (sem_len st); [lia|]. eexists; reflexivity. }
    (* everybody is before the call or done *)
    assert (Hrest : forall t th, threads st !! t = Some th ->
                                 th_pc th = PEnter \/ th_pc th = PDone).
    { intros t th Hl.
      destruct (Hown t th Hl) as [Hd Hot].
      pose proof (Hm t th Hl) as Hmine. rewrite Hmu in Hmine.
      pose proof (Hnw t th Hl) as A. pose proof (Hnr t th Hl) as B.
      pose proof (Hnh t th Hl) as C. simpl in A, B, C.
      unfold holds_mu in Hmine.
      destruct (th_pc th) eqn:Hpc; auto; try discriminate; try contradiction;
        try (specialize (Hmine eq_refl); discriminate).
      (* parked: a worker is left to signal, but none is *)
      exfalso. destruct (Hwk Hcap) as (v & x & Hv & Hx); [eauto|].
      pose proof (Hnr v x Hv) as B'. pose proof (Hnh v x Hv) as C'. simpl in B', C'.
      unfold will_signal in Hx. destruct (th_pc x); discriminate. }
    destruct (first_enter (threads st) Hrest Hnd) as (t & th & Hl & Hpc & Hall).
    exists (Run t 0). simpl.
    assert (Hturn : in_turn t st = true).
    { unfold in_turn, pc_of. rewrite Hl. simpl. rewrite Hpc. exact Hall. }
    rewrite Hturn. unfold step_thread. rewrite Hl, Hpc, Hmu, Hcl.
    destruct (signal 0 (waiters st) (threads st)). eexists; reflexivity.
Qed.

(** **** Every move counts *)

Lemma handler_rank_step (l : label) (st st' : state) :
  handler_inv st -> handler_step l st = Some st' -> total_rank st' < total_rank st.
Proof.
  intros (_ & _ & Hwl & Hm & _) Hs.
  destruct l as [t k|]; [|discriminate]. simpl in Hs.
  destruct (in_turn t st); [|discriminate].
  eapply rank_step; eassumption.
Qed.

Lemma fired_rank (sched : list label) (st : state) :
  handler_inv st ->
  fired sched st + total_rank (handler_exec sched st) <= total_rank st.
Proof.
  revert st. induction sched as [|l sched IH]; intros st H; simpl; [lia|].
  destruct (handler_step l st) as [st'|] eqn:Hs; simpl.
  - pose proof (handler_rank_step l st st' H Hs).
    pose proof (IH st' (handler_inv_step l st st' H Hs)). lia.
  - apply IH, H.
Qed.

Lemma sem_cap_handler (sched : list label) (st : state) :
  sem_cap (handler_exec sched st) = sem_cap st.
Proof.
  revert st. induction sched as [|l sched IH]; intros st; simpl; [reflexivity|].
  rewrite IH. destruct (handler_step l st) as [st'|] eqn:Hs; simpl; [|reflexivity].
  eapply sem_cap_step. apply handler_step_sound. exact Hs.
Qed.

Lemma handler_completes (m : nat) (st : state) :
  handler_inv st -> 1 <= sem_cap st -> total_rank st <= m ->
  exists sched, all_done (handler_exec sched st) = true.
Proof.
  revert st. induction m as [|m IH]; intros st H Hcap Hm.
  - destruct (all_done st) eqn:Hd; [exists []; exact Hd|].
    destruct (handler_progress st H Hcap Hd) as (l & st' & Hs).
    pose proof (handler_rank_step l st st' H Hs). lia.
  - destruct (all_done st) eqn:Hd; [exists []; exact Hd|].
    destruct (handler_progress st H Hcap Hd) as (l & st' & Hs).
    pose proof (handler_rank_step l st st' H Hs) as Hlt.
    destruct (IH st') as (sched & Hsched).
    + eapply handler_inv_step; eassumption.
    + erewrite sem_cap_step; [exact Hcap|]. apply handler_step_sound. exact Hs.
    + lia.
    + exists (l :: sched). simpl. rewrite Hs. exact Hsched.
Qed.

Lemma rank_init (n : nat) : sum_list (rank <$> replicate n Acquire) = 12 * n.
Proof.
  rewrite fmap_replicate, sum_list_replicate. change (rank Acquire) with 12. lia.
Qed.

(** X17. In SubmitTargets, which calls Acquire for one target after the
    other from a single goroutine and leaves each Release to the worker
    started after it, no call is ever preempted: every caller pops its own
    task, nobody recurses or panics, and the queue never holds more than
    one task. *)
Theorem submit_targets_never_preempted
    (concurrency : Z) (targets : nat) (st0 : state) (sched : list label)
    (t : nat) (th : thread) :
  SubmitTargets concurrency targets = Some st0 ->
  threads (handler_exec sched st0) !! t = Some th ->
  th_depth th = 0 /\
  (forall msg, th_pc th <> PPanicked msg) /\ th_pc th <> PFatal /\
  (forall x, th_pc th = PSend x \/ th_pc th = PCompare x -> task_ptr x = t) /\
  length (pq (handler_exec sched st0)) <= 1.
Proof.
  intros H0 Hl. destruct (handler_inv_init _ _ _ H0) as (Hinv & Hths & _).
  pose proof (handler_inv_exec sched st0 Hinv) as (_ & _ & _ & _ & _ & Hown & _ & Hq & _).
  destruct (Hown t th Hl) as [Hd Hot]. split; [exact Hd|].
  split; [intros msg E; rewrite E in Hot; exact Hot|].
  split; [intros E; rewrite E in Hot; exact Hot|].
  split; [intros x [E|E]; rewrite E in Hot; exact Hot|].
  destruct Hq as [Hq1 Hq2].
  destruct (find_thread waiting (threads (handler_exec sched st0)))
    as [(u & x & Hu & Hw)|Hnone].
  - rewrite (Hq1 u x Hu Hw). simpl. lia.
  - rewrite (Hq2 Hnone). simpl. lia.
Qed.

Lemma submit_targets_never_preempted_witness :
  let sched := [Run 0 0; Run 0 0; Run 0 0; Run 0 0; Run 0 0;
                Run 1 0; Run 1 0; Run 1 0; Run 1 0] in
  let th := mkThread PriorityNormal 0 (PCompare (mkTask 1 PriorityNormal (-1))) in
  let st := handler_exec sched (mkState 0 2 false [] None [] false (replicate 3 Acquire)) in
  threads st !! 1 = Some th /\
  th_depth th = 0 /\
  (forall msg, th_pc th <> PPanicked msg) /\ th_pc th <> PFatal /\
  (forall x, th_pc th = PSend x \/ th_pc th = PCompare x -> task_ptr x = 1) /\
  length (pq st) <= 1.
Proof.
  split; [reflexivity|].
  apply (submit_targets_never_preempted 2 3
           (mkState 0 2 false [] None [] false (replicate 3 Acquire))
           [Run 0 0; Run 0 0; Run 0 0; Run 0 0; Run 0 0;
            Run 1 0; Run 1 0; Run 1 0; Run 1 0]
           1 (mkThread PriorityNormal 0 (PCompare (mkTask 1 PriorityNormal (-1)))));
    reflexivity.
Defined.

(** X18. With a concurrency of at least 1 SubmitTargets cannot hang on its
    limiter: in every state a run can reach, some goroutine can move
    unless every Acquire has returned and every worker has released; no
    run makes more than 12 moves per target; and every run can be
    continued to the end. *)
Theorem submit_targets_completes
    (concurrency : Z) (targets : nat) (st0 : state) (sched : list label) :
  SubmitTargets concurrency targets = Some st0 ->
  (1 <= concurrency)%Z ->
  let st := handler_exec sched st0 in
  (all_done st = false -> exists l st', handler_step l st = Some st') /\
  fired sched st0 <= 12 * targets /\
  exists sched', all_done (handler_exec sched' st) = true.
Proof.
  intros H0 Hc st. destruct (handler_inv_init _ _ _ H0) as (Hinv & Hths & Hcap).
  pose proof (handler_inv_exec sched st0 Hinv) as Hst. fold st in Hst.
  assert (Hcap' : 1 <= sem_cap st).
  { unfold st. rewrite sem_cap_handler, Hcap. lia. }
  split; [apply handler_progress; assumption|]. split.
  - pose proof (fired_rank sched st0 Hinv) as Hf.
    unfold total_rank in Hf at 2. rewrite Hths, rank_init in Hf. lia.
  - apply (handler_completes (total_rank st)); [assumption|assumption|lia].
Qed.

Lemma submit_targets_completes_witness :
  let st0 := mkState 0 1 false [] None [] false (replicate 2 Acquire) in
  let sched := [Run 1 0; Run 0 0; Run 0 0; Run 1 0] in
  let st := handler_exec sched st0 in
  (all_done st = false -> exists l st', handler_step l st = Some st') /\
  fired sched st0 <= 12 * 2 /\
  exists sched', all_done (handler_exec sched' st) = true.
Proof.
  apply (submit_targets_completes 1 2
           (mkState 0 1 false [] None [] false (replicate 2 Acquire))
           [Run 1 0; Run 0 0; Run 0 0; Run 1 0]); [reflexivity|lia].
Defined.

(** **** No capacity *)

Lemma before_pop_insert (ths : list thread) (t : nat) (th' : thread) :
  (forall u th, ths !! u = Some th -> before_pop th) -> before_pop th' ->
  forall u th, <[t := th']> ths !! u = Some th -> before_pop th.
Proof.
  intros H Ht u x Hx. apply insert_cases in Hx as [(-> & ->)|(_ & Hx)]; [assumption|].
  eapply H; eassumption.
Qed.

Lemma before_pop_wake (w : nat) (ths : list thread) :
  (forall u th, ths !! u = Some th -> before_pop th) ->
  forall u th, wake w ths !! u = Some th -> before_pop th.
Proof.
  intros H u x Hx. apply wake_cases in Hx as [Hx|(-> & y & _ & ->)]; [|exact I].
  eapply H; eassumption.
Qed.

Lemma before_pop_unwind th p : before_pop (set_pc th p) -> before_pop (unwind th p).
Proof. intros H. destruct (unwind_pc th p) as [-> | ->]; [assumption|exact I]. Qed.

Lemma no_room_step (l : label) (st st' : state) :
  no_room st -> step l st = Some st' -> no_room st'.
Proof.
  intros (Hlen & Hcap & Hall). unfold no_room.
  destruct l as [t k|]; simpl.
  - unfold step_thread. destruct (threads st !! t) as [th|] eqn:Hl; [|discriminate].
    pose proof (Hall t th Hl) as Hb. unfold before_pop in Hb.
    destruct (th_pc th) eqn:Hpc; try discriminate; try contradiction.
    + destruct (mu st); [discriminate|]. destruct (closed st).
      * intros [= <-]; simpl. repeat split; try assumption.
        apply before_pop_insert; [assumption|]. apply before_pop_unwind. exact I.
      * destruct (signal k (waiters st) (threads st)) as [ws ths] eqn:Hs.
        intros [= <-]; simpl. repeat split; try assumption.
        apply before_pop_insert; [|exact I].
        apply signal_cases in Hs as [(_ & _ & ->)|(i & w & _ & _ & ->)];
          [assumption|apply before_pop_wake; assumption].
    + rewrite Hlen, Hcap. simpl. intros [= <-]; simpl. repeat split; try assumption.
      apply before_pop_insert; [assumption|exact I].
    + destruct (mu st); [discriminate|]. intros [= <-]; simpl.
      repeat split; try assumption. apply before_pop_insert; [assumption|exact I].
  - unfold step_close. destruct (mu st); [discriminate|].
    destruct (sem_closed st); intros [= <-]; simpl; repeat split; try assumption.
    unfold broadcast. induction (waiters st) as [|w ws IH]; simpl; [assumption|].
    apply before_pop_wake. assumption.
Qed.

Lemma no_room_exec (sched : list label) (st : state) :
  no_room st -> no_room (exec sched st).
Proof.
  revert st. induction sched as [|l sched IH]; intros st H; simpl; [assumption|].
  apply IH. destruct (step l st) as [st'|] eqn:Hs; simpl; [|assumption].
  eapply no_room_step; eassumption.
Qed.

Lemma no_room_handler (sched : list label) (st : state) :
  no_room st -> no_room (handler_exec sched st).
Proof.
  revert st. induction sched as [|l sched IH]; intros st H; simpl; [assumption|].
  apply IH. destruct (handler_step l st) as [st'|] eqn:Hs; simpl; [|assumption].
  eapply no_room_step; [eassumption|]. apply handler_step_sound. exact Hs.
Qed.

Lemma before_pop_not_returned th : before_pop th -> returned th = false.
Proof. unfold before_pop, returned. destruct (th_pc th); tauto. Qed.

(** X19. A limiter created with capacity 0 admits nobody: whatever the
    schedule, no AcquireWithPriority ever returns, neither under
    arbitrary use nor in SubmitTargets. *)
Theorem zero_capacity_blocks_everyone
    (prios : list TaskPriority) (st0 : state) (sched : list label) :
  NewConcurrencyLimiter 0 (fresh <$> prios) = Some st0 ->
  (forall t th, threads (exec sched st0) !! t = Some th -> returned th = false) /\
  (forall t th, threads (handler_exec sched st0) !! t = Some th -> returned th = false).
Proof.
  intros H0. destruct (init_ok _ _ _ H0) as (_ & _ & _ & Hths & _ & _ & _ & Hlen & Hcap).
  assert (Hnr : no_room st0).
  { split; [assumption|]. split; [assumption|]. intros t th Hl. rewrite Hths in Hl.
    apply lookup_fresh in Hl as [Hpc _]. unfold before_pop. rewrite Hpc. exact I. }
  split; intros t th Hl; apply before_pop_not_returned.
  - destruct (no_room_exec sched st0 Hnr) as (_ & _ & H). eapply H; eassumption.
  - destruct (no_room_handler sched st0 Hnr) as (_ & _ & H). eapply H; eassumption.
Qed.

Lemma zero_capacity_blocks_everyone_witness :
  let st0 := mkState 0 0 false [] None [] false (fresh <$> [PriorityNormal; PriorityHigh]) in
  let sched := [Run 0 0; Run 0 0; Run 1 0; Run 1 1; Run 0 0; CallClose; Run 0 0; Run 0 0] in
  (forall t th, threads (exec sched st0) !! t = Some th -> returned th = false) /\
  (forall t th, threads (handler_exec sched st0) !! t = Some th -> returned th = false).
Proof.
  apply (zero_capacity_blocks_everyone [PriorityNormal; PriorityHigh]
           (mkState 0 0 false [] None [] false (fresh <$> [PriorityNormal; PriorityHigh]))
           [Run 0 0; Run 0 0; Run 1 0; Run 1 1; Run 0 0; CallClose; Run 0 0; Run 0 0]).
  reflexivity.
Defined.

Lemma queue_never_underflows_witness :
  let st := exec sched_popped (three PriorityNormal PriorityLow PriorityHigh) in
  length (pq st) = queued_tasks (threads st) /\
  (forall t, pc_of t st = Some PPop -> heap_Pop (pq st) <> None) /\
  (forall t, pc_of t st <> Some (PPanicked msg_index)).
Proof.
  apply (queue_never_underflows 1 [PriorityNormal; PriorityLow; PriorityHigh]
           (three PriorityNormal PriorityLow PriorityHigh) sched_popped).
  reflexivity.
Defined.

End LimiterInvariants.

(** ** Fields left over from earlier attempts *)

Module CheckerAttempts.
Import Checker CheckerProofs CheckerExtra.
Local Open Scope Z_scope.

Lemma checkHTTP_transport env cfg url keyword result w :
  new_request env url = None ->
  transport_failure (http_do env (ops w) url) = true ->
  let out := checkHTTP env cfg url keyword result w in
  result_of out = result /\
  (exists msg, err_of out = Some msg) /\
  kind_of out = transport_kind (http_do env (ops w) url) /\
  In (kind_of out) transport_kinds /\
  ops (world_of out) = S (ops w).
Proof.
  intros Hreq Htf. cbn zeta.
  unfold checkHTTP, result_of, err_of, kind_of, world_of, transport_failure,
    transport_kind in *.
  rewrite Hreq. destruct (http_do env (ops w) url) as [msg|msg|resp]; simpl.
  - repeat split; eauto; unfold transport_kinds; simpl; auto 10.
  - destruct (Contains msg "certificate"); simpl; repeat split; eauto;
      unfold transport_kinds; simpl; auto 10.
  - destruct (RespBody resp) as [full|msg]; [discriminate|]. simpl.
    repeat split; eauto; unfold transport_kinds; simpl; auto 10.
Qed.

Lemma checkHTTP_records_code env cfg url keyword result w resp full :
  new_request env url = None ->
  http_do env (ops w) url = DoOK resp ->
  RespBody resp = BodyOK full ->
  let out := checkHTTP env cfg url keyword result w in
  StatusCode (result_of out) = RespStatusCode resp /\
  ops (world_of out) = S (ops w).
Proof.
  intros Hreq Hdo Hbody. cbn zeta. unfold checkHTTP, result_of, world_of.
  rewrite Hreq, Hdo, Hbody.
  destruct (negb (String.eqb keyword "") &&
            negb (Contains (limit_body (MaxBodySize cfg) full) keyword))%bool; simpl.
  - destruct (String.eqb keyword ""); split; reflexivity.
  - destruct ((RespStatusCode resp <? 200) || (300 <=? RespStatusCode resp))%bool; simpl;
      (split; [|reflexivity]);
      destruct (RespTLS resp) as [[|e l]|]; simpl;
        unfold record_certificate;
        repeat match goal with
               | |- context [if ?x then _ else _] => destruct x
               end; simpl;
        reflexivity.
Qed.

Lemma retry_loop_transport env cfg target backoff (n : nat) retry result w :
  HasPrefix (ToLower (URL target)) "tcp://" = false ->
  new_request env (URL target) = None ->
  Z.of_nat (S n) = MaxRetry cfg - retry ->
  (forall i, (i < S n)%nat ->
     transport_failure (http_do env (ops w + i)%nat (URL target)) = true) ->
  let out := retry_loop env cfg target backoff (S n) retry result w in
  same_http_fields out.1 result /\ Status out.1 = "failed" /\
  ErrorType out.1 = transport_kind (http_do env (ops w + n)%nat (URL target)) /\
  In (ErrorType out.1) transport_kinds.
Proof.
  intros Hhttp Hreq. revert retry result w.
  induction n as [|n IH]; intros retry result w Hn Hfail; cbn zeta;
    rewrite retry_loop_S; cbn zeta;
    pose proof (checkHTTP_transport env cfg (URL target) (Keyword target) result
                  (log (EvAttempt retry) w) Hreq) as Hout;
    cbn zeta in Hout; simpl ops in Hout;
    (specialize (Hout ltac:(rewrite <- (Nat.add_0_r (ops w)); apply Hfail; lia)));
    unfold probe; rewrite Hhttp;
    unfold err_of, kind_of, world_of, result_of in Hout;
    destruct (checkHTTP env cfg (URL target) (Keyword target) result
                (log (EvAttempt retry) w)) as [[err r1] w1];
    cbn [fst snd] in Hout; destruct Hout as (-> & (msg & Hmsg) & Hkind & Hin & Hops);
    simpl in Hmsg, Hkind, Hin, Hops; rewrite Hmsg.
  - replace (retry =? MaxRetry cfg - 1) with true by (symmetry; apply Z.eqb_eq; lia).
    simpl. split; [repeat split|]. split; [reflexivity|].
    rewrite Nat.add_0_r. split; [exact Hkind|exact Hin].
  - replace (retry =? MaxRetry cfg - 1) with false by (symmetry; apply Z.eqb_neq; lia).
    match goal with
    | |- context [retry_loop _ _ _ _ _ _ ?r ?w2] =>
        specialize (IH (retry + 1) r w2 ltac:(lia))
    end.
    cbn zeta in IH. simpl ops in IH. rewrite Hops in IH.
    destruct IH as (Hsame & Hst & Hk & Hk').
    + intros i Hi. replace (S (ops w) + i)%nat with (ops w + S i)%nat by lia.
      apply Hfail. lia.
    + split; [|split; [exact Hst|split; [|exact Hk']]].
      * destruct Hsame as (A & B & C & D). repeat split; assumption.
      * replace (ops w + S n)%nat with (S (ops w) + n)%nat by lia. exact Hk.
Qed.

(** X20. The attempts of a check share one result, and a failing attempt
    does not reset it: when the first exchange of a fresh HTTP check is
    answered and rejected (keyword missing or status outside 2xx) and
    every later exchange fails before a response body is read, the check
    ends failed with the error kind of its last attempt, the one
    checkHTTP gives to the reply of the last exchange (timeout, ssl,
    network or unknown), but with the status code, keyword flag,
    certificate text and warning recorded from the first answer. *)
Theorem failed_result_keeps_earlier_answer env cfg target w resp full :
  HasPrefix (ToLower (URL target)) "tcp://" = false ->
  new_request env (URL target) = None ->
  GetCachedResult cfg (URL target) w = None ->
  2 <= MaxRetry cfg ->
  http_do env (ops w) (URL target) = DoOK resp ->
  RespBody resp = BodyOK full ->
  http_reply_ok cfg (Keyword target) (DoOK resp) = false ->
  (forall i, (1 <= i)%nat -> Z.of_nat i < MaxRetry cfg ->
     transport_failure (http_do env (ops w + i)%nat (URL target)) = true) ->
  exists r w',
    CheckTarget env cfg target w = Some (r, w') /\
    Status r = "failed" /\
    ErrorType r =
      transport_kind
        (http_do env (ops w + Z.to_nat (MaxRetry cfg) - 1)%nat (URL target)) /\
    In (ErrorType r) transport_kinds /\
    StatusCode r = RespStatusCode resp /\
    same_http_fields r
      (result_of (checkHTTP env cfg (URL target) (Keyword target)
                    (blank (URL target) (now w)) (log (EvAttempt 0) w))).
Proof.
  intros Hhttp Hreq Hmiss Hn Hdo Hbody Hrej Hfail. unfold CheckTarget. rewrite Hmiss.
  destruct (MaxRetry cfg <? 0) eqn:Hneg; [apply Z.ltb_lt in Hneg; lia|].
  destruct (Z.to_nat (MaxRetry cfg)) as [|[|n]] eqn:Hm; [lia|lia|].
  change (mkResult (URL target) "" 0 0 "" false "" "" "" (now w))
    with (blank (URL target) (now w)).
  rewrite retry_loop_S. cbn zeta.
  pose proof (checkHTTP_outcome env cfg (URL target) (Keyword target)
                (blank (URL target) (now w)) (log (EvAttempt 0) w) Hreq) as Hout.
  pose proof (checkHTTP_records_code env cfg (URL target) (Keyword target)
                (blank (URL target) (now w)) (log (EvAttempt 0) w) resp full
                Hreq Hdo Hbody) as Hcode.
  cbn zeta in Hout, Hcode. simpl ops in Hout. rewrite Hdo in Hout.
  unfold probe. rewrite Hhttp.
  unfold err_of, world_of, result_of in *.
  destruct (checkHTTP env cfg (URL target) (Keyword target)
              (blank (URL target) (now w)) (log (EvAttempt 0) w)) as [[err r1] w1].
  cbn [fst snd] in *. destruct Hout as (Hiff & Hops & _). destruct Hcode as (Hcode & _).
  simpl in Hops, Hcode.
  destruct (err.1) as [msg|] eqn:He;
    [|destruct Hiff as [Hiff _]; specialize (Hiff eq_refl); congruence].
  replace (0 =? MaxRetry cfg - 1) with false by (symmetry; apply Z.eqb_neq; lia).
  match goal with
  | |- context [retry_loop _ _ _ ?b (S n) _ ?r ?w2] =>
      pose proof (retry_loop_transport env cfg target b n (0 + 1) r w2 Hhttp Hreq
                    ltac:(lia)) as Hloop;
      destruct (retry_loop env cfg target b (S n) (0 + 1) r w2) as [r2 w2'] eqn:Hrl
  end.
  cbn zeta in Hloop. simpl ops in Hloop. rewrite Hops in Hloop.
  destruct Hloop as ((A & B & C & D) & Hst & Hk & Hk').
  { intros i Hi. replace (S (ops w) + i)%nat with (ops w + S i)%nat by lia.
    apply Hfail; lia. }
  simpl in A, B, C, D. simpl fst in Hst, Hk, Hk'.
  exists r2, (updateCache r2 w2'). split; [reflexivity|].
  split; [exact Hst|]. split.
  { replace (ops w + S (S n) - 1)%nat with (S (ops w) + n)%nat by lia. exact Hk. }
  split; [exact Hk'|]. split; [congruence|].
  repeat split; assumption.
Qed.

Lemma failed_result_keeps_earlier_answer_witness :
  let target := target_of "http://a.example" in
  let resp := mkResponse 503 (BodyOK "busy") None in
  exists r w',
    CheckTarget env_degrading (cfg_retry 3) target w0 = Some (r, w') /\
    Status r = "failed" /\
    ErrorType r =
      transport_kind
        (http_do env_degrading (ops w0 + Z.to_nat (MaxRetry (cfg_retry 3)) - 1)%nat
           (URL target)) /\
    In (ErrorType r) transport_kinds /\
    StatusCode r = RespStatusCode resp /\
    same_http_fields r
      (result_of (checkHTTP env_degrading (cfg_retry 3) (URL target) (Keyword target)
                    (blank (URL target) (now w0)) (log (EvAttempt 0) w0))).
Proof.
  apply (failed_result_keeps_earlier_answer env_degrading (cfg_retry 3)
           (target_of "http://a.example") w0
           (mkResponse 503 (BodyOK "busy") None) "busy");
    try reflexivity; [vm_compute; discriminate|].
  intros [|i] Hi _; [lia|reflexivity].
Defined.

End CheckerAttempts.
